(** * Miracle-Grue: the inset engine (Shrinky) and the containment test

    A shallow embedding of [src/mgl/shrinky.cc] and of the containment
    predicate declared in [src/mgl/ContainmentTree_decl.h].

    The C++ code computes on [Scalar]s.  The embedding is generic in the
    scalar arithmetic ([ScalarOps]) and in the two geometric predicates of
    the primitive library that [shrinky.cc] calls but does not define
    ([Geometry]).  Two instances are used: IEEE binary64 (the kernel's
    primitive floats), on which the pipeline is run on concrete polygons, and
    the real numbers, on which the exact geometry is proved.  What is proved
    of the doubles for every input rests on the kernel's specification of
    the binary64 operations, from which the rounding errors are bounded. *)

From Stdlib Require Import PrimFloat Uint63.
From Stdlib Require Import ZArith Reals Lra Lia List Bool.
From Stdlib Require SpecFloat FloatOps FloatAxioms.
From stdpp Require Import base list.
Import ListNotations.

Set Warnings "-inexact-float,-register-all".
Set Default Proof Using "Type".

(** ** Scalars *)

(** The operations of [Scalar] that [shrinky.cc] uses: literals, the four
    arithmetic operations, [SCALAR_SQRT] and the comparisons. *)
Class ScalarOps (S : Type) := {
  s_of_Z : Z -> S;
  s_half : S;
  s_add : S -> S -> S;
  s_sub : S -> S -> S;
  s_mul : S -> S -> S;
  s_div : S -> S -> S;
  s_sqrt : S -> S;
  s_ltb : S -> S -> bool;
  s_leb : S -> S -> bool
}.

Declare Scope scalar_scope.
Delimit Scope scalar_scope with sc.
Infix "+" := s_add : scalar_scope.
Infix "-" := s_sub : scalar_scope.
Infix "*" := s_mul : scalar_scope.
Infix "/" := s_div : scalar_scope.
Infix "<?" := s_ltb : scalar_scope.
Infix "<=?" := s_leb : scalar_scope.

(** ** Vectors and segments *)

Record Vector2 (S : Type) := Vec2 { x : S; y : S }.
Record Vector3 (S : Type) := Vec3 { x3 : S; y3 : S; z3 : S }.
Record TriangleSegment2 (S : Type) := Seg { a : Vector2 S; b : Vector2 S }.

Arguments Vec2 {S} _ _.
Arguments x {S} _.
Arguments y {S} _.
Arguments Vec3 {S} _ _ _.
Arguments x3 {S} _.
Arguments y3 {S} _.
Arguments z3 {S} _.
Arguments Seg {S} _ _.
Arguments a {S} _.
Arguments b {S} _.

(** Field assignment through a reference: [s.a = p] and [s.b = p]. *)
Definition set_a {S} (p : Vector2 S) (s : TriangleSegment2 S) := Seg p (b s).
Definition set_b {S} (p : Vector2 S) (s : TriangleSegment2 S) := Seg (a s) p.

(** The exceptions of the inset engine: [ShrinkyMess], told apart by the
    message they are built with. *)
Inductive ShrinkyMess :=
| NotEnoughSegments (segmentCount : nat)
    (* "<n> line segment is not enough to create a closed polygon" *)
| NotClosedPolygon.
    (* "This is not a closed polygon" *)

(** How a call ends: it returns, it throws, or an [assert] stops it. *)
Inductive outcome (A : Type) :=
| Returns (v : A)
| Throws (e : ShrinkyMess)
| AssertFailed.

Arguments Returns {A} _.
Arguments Throws {A} _.
Arguments AssertFailed {A}.

#[export] Instance outcome_ret : MRet outcome := fun A v => Returns v.
#[export] Instance outcome_bind : MBind outcome := fun A B k m =>
  match m with
  | Returns v => k v
  | Throws e => Throws e
  | AssertFailed => AssertFailed
  end.

Section Primitives.
Context {S : Type} `{ScalarOps S}.
Local Open Scope scalar_scope.

Definition sc0 : S := s_of_Z 0.
Definition sc1 : S := s_of_Z 1.

#[export] Instance Vector2_inhabited : Inhabited (Vector2 S) :=
  populate (Vec2 sc0 sc0).
#[export] Instance TriangleSegment2_inhabited : Inhabited (TriangleSegment2 S) :=
  populate (Seg inhabitant inhabitant).

(** Modelled from the spec: the vector operations of the primitive
    library (add, subtract, scale, magnitude, normalize, cross), which is
    not part of the sources. *)
Definition vadd (p q : Vector2 S) := Vec2 (x p + x q) (y p + y q).
Definition vsub (p q : Vector2 S) := Vec2 (x p - x q) (y p - y q).
Definition vscale (p : Vector2 S) (k : S) := Vec2 (x p * k) (y p * k).
Definition magnitude (p : Vector2 S) : S := s_sqrt (x p * x p + y p * y p).
Definition normalise (p : Vector2 S) : Vector2 S :=
  let inv := sc1 / magnitude p in vscale p inv.

Definition magnitude3 (p : Vector3 S) : S :=
  s_sqrt (x3 p * x3 p + y3 p * y3 p + z3 p * z3 p).
Definition normalise3 (p : Vector3 S) : Vector3 S :=
  let inv := sc1 / magnitude3 p in
  Vec3 (x3 p * inv) (y3 p * inv) (z3 p * inv).
Definition crossProduct (u v : Vector3 S) : Vector3 S :=
  Vec3 (y3 u * z3 v - z3 u * y3 v)
       (z3 u * x3 v - x3 u * z3 v)
       (x3 u * y3 v - y3 u * x3 v).

(** Modelled from the spec: [squared_length] and [length] of a segment. *)
Definition squaredLength (s : TriangleSegment2 S) : S :=
  let d := vsub (b s) (a s) in x d * x d + y d * y d.
Definition segLength (s : TriangleSegment2 S) : S := s_sqrt (squaredLength s).
End Primitives.

(** The two predicates of the primitive library that decide control flow:
    coincidence of two points within a tolerance, and the intersection of two
    segments, which yields a point when there is one. *)
Class Geometry (S : Type) := {
  sameSame : Vector2 S -> Vector2 S -> S -> bool;
  segmentSegmentIntersection :
    TriangleSegment2 S -> TriangleSegment2 S -> option (Vector2 S)
}.

(** ** The inset engine, [shrinky.cc]

    Conventions of the embedding.  A [std::vector] is a list and
    [v[i]] is [v !!! i]; every index the code computes is below the size of
    its vector whenever [Shrinky::inset] runs, and outside of that range, where
    C++ leaves the behaviour undefined, the embedding reads a default element.
    An output vector that the function asserts to be empty on entry is the
    returned value.  What only prints or writes the OpenSCAD dump
    ([segmentsDiagnostic], [segment3], the [scadFileName] block of
    [Shrinky::inset]) has no part in the result and is left out. *)

Section Shrinky.
Context {S : Type} `{ScalarOps S} `{Geometry S}.
Local Open Scope scalar_scope.

Abbreviation Vector2 := (Vector2 S).
Abbreviation TriangleSegment2 := (TriangleSegment2 S).

(** [i==0 ? segments.size()-1 : i-1] and [i==segments.size()-1 ? 0 : i+1] *)
Definition prevIndex (size i : nat) : nat :=
  if decide (i = 0%nat) then (size - 1)%nat else (i - 1)%nat.
Definition nextIndex (size i : nat) : nat :=
  if decide (i = (size - 1)%nat) then 0%nat else (i + 1)%nat.

Definition getInsetDirection (seg : TriangleSegment2) : Vector2 :=
  let v := Vec3 (x (b seg) - x (a seg)) (y (b seg) - y (a seg)) sc0 in
  let up := Vec3 sc0 sc0 sc1 in
  let inset := normalise3 (crossProduct v up) in
  Vec2 (x3 inset) (y3 inset).

(** One turn of the loop of [insetSegments]. *)
Definition insetSegments_body (segments : list TriangleSegment2) (d : S)
    (insets : list TriangleSegment2) (i : nat) : list TriangleSegment2 :=
  let seg := segments !!! i in
  let inset := vscale (getInsetDirection seg) d in
  let newSeg := Seg (vadd (a seg) inset) (vadd (b seg) inset) in
  insets ++ [newSeg].

(** [insets] is the output vector, which the function asserts to be empty
    on entry; it is returned. *)
Definition insetSegments (segments : list TriangleSegment2) (d : S)
    : list TriangleSegment2 :=
  fold_left (insetSegments_body segments d) (seq 0 (length segments)) [].

Definition elongate (s : TriangleSegment2) (dist : S) (fromStart fromEnd : bool)
    : TriangleSegment2 :=
  let l := vscale (normalise (vsub (b s) (a s))) dist in
  let segment := if fromEnd then set_b (vadd (b s) l) s else s in
  if fromStart then set_a (vsub (a segment) l) segment else segment.

(** [attachSegments] writes through its two references.  Both may refer to
    the same element of a vector, so the embedding takes the vector and the
    places of [first] and [next] in it, and returns the vector after the
    writes along with the returned flag. *)
Definition attachSegments (mem : list TriangleSegment2) (first next : nat)
    (elongation : S) : bool * list TriangleSegment2 :=
  let sa := elongate (mem !!! first) elongation false true in
  let sb := elongate (mem !!! next) elongation true false in
  match segmentSegmentIntersection sa sb with
  | Some intersection =>
      (true, alter (set_a intersection) next
               (alter (set_b intersection) first mem))
  | None => (false, mem)
  end.

Definition triangleAltitude (la lb lc : S) : S :=
  let s := s_half * (la + lb + lc) in
  s_of_Z 2 * s_sqrt (s * (s - la) * (s - lb) * (s - lc)) / la.

(** [edgeCollapse] returns its flag and, when the bisector segments were
    attached, the value written to the reference [collapseDistance] (the one
    call, in [removeCollapsedSegments], reads the flag only). *)
Definition edgeCollapse (segment : TriangleSegment2) (bisector0 bisector1 : Vector2)
    (insetDistance elongation : S) : bool * option S :=
  let bisectorSegment0 := Seg (a segment) (vadd (a segment) bisector0) in
  let bisectorSegment1 := Seg (b segment) (vadd (b segment) bisector1) in
  let '(attached, mem) :=
    attachSegments [bisectorSegment0; bisectorSegment1] 0 1 elongation in
  if attached then
    let intersection := b (mem !!! 0%nat) in
    let edge0 := vsub (a segment) intersection in
    let edge1 := vsub (b segment) intersection in
    let la := segLength segment in
    let lb := magnitude edge0 in
    let lc := magnitude edge1 in
    let collapseDistance := triangleAltitude la lb lc in
    (collapseDistance <? insetDistance, Some collapseDistance)
  else (false, None).

(** The loop variables of [removeCollapsedSegments]. *)
Record CollapseState := MkCollapse {
  prevBisector : nat;
  currId : nat;
  nextBisector : nat;
  relevantSegments : list TriangleSegment2
}.

Definition removeCollapsed_body (segments : list TriangleSegment2)
    (bisectors : list Vector2) (insetDist elongation : S)
    (st : CollapseState) (i : nat) : CollapseState :=
  let size := length segments in
  let currentSegment := segments !!! currId st in
  let collapsed :=
    fst (edgeCollapse currentSegment (bisectors !!! prevBisector st)
           (bisectors !!! nextBisector st) insetDist elongation) in
  MkCollapse
    (if collapsed then prevBisector st else nextIndex size (prevBisector st))
    (nextIndex size (currId st))
    (nextIndex size (nextBisector st))
    (if collapsed then relevantSegments st
     else relevantSegments st ++ [currentSegment]).

Definition removeCollapsedSegments (segments : list TriangleSegment2)
    (bisectors : list Vector2) (insetDist : S) : list TriangleSegment2 :=
  let elongation := s_of_Z 100 in
  let size := length segments in
  relevantSegments
    (fold_left (removeCollapsed_body segments bisectors insetDist elongation)
       (seq 0 size) (MkCollapse (size - 1) 0 1 [])).

(** One turn of the second loop of [elongateAndTrimSegments]. *)
Definition elongateAndTrim_body (elongation : S)
    (segments : list TriangleSegment2) (i : nat) : list TriangleSegment2 :=
  snd (attachSegments segments (prevIndex (length segments) i) i elongation).

Definition elongateAndTrimSegments (longSegments : list TriangleSegment2)
    (elongation : S) : list TriangleSegment2 :=
  let segments :=
    fold_left (fun segments i => segments ++ [longSegments !!! i])
      (seq 0 (length longSegments)) [] in
  fold_left (elongateAndTrim_body elongation) (seq 0 (length segments)) segments.

(** The loop of [createBisectors]; [motorCycles] is the output vector. *)
Definition createBisectors_body (segments : list TriangleSegment2) (tol : S)
    (acc : outcome (list Vector2)) (i : nat) : outcome (list Vector2) :=
  motorCycles ← acc;
  let prevSeg := segments !!! prevIndex (length segments) i in
  let seg := segments !!! i in
  let prevInset := getInsetDirection prevSeg in
  let inset := getInsetDirection seg in
  if sameSame (b prevSeg) (a seg) tol
  then Returns (motorCycles ++ [normalise (vadd inset prevInset)])
  else Throws NotClosedPolygon.

Definition createBisectors (segments : list TriangleSegment2) (tol : S)
    (motorCycles : list Vector2) : outcome (list Vector2) :=
  fold_left (createBisectors_body segments tol) (seq 0 (length segments))
    (Returns motorCycles).

(** The loop of [removeShortSegments].  The body may advance [i] itself, so
    the loop is a while loop; [fuel] bounds the number of turns. *)
Fixpoint removeShortSegments_loop (fuel : nat) (segments : list TriangleSegment2)
    (cutoffLength2 : S) (i : nat) (shorts : list TriangleSegment2)
    : list TriangleSegment2 :=
  match fuel with
  | O => shorts
  | Datatypes.S fuel' =>
      if decide (i < length segments)%nat then
        let seg := segments !!! i in
        let nextSeg := segments !!! nextIndex (length segments) i in
        let length2 := squaredLength nextSeg in
        if length2 <? cutoffLength2
        then removeShortSegments_loop fuel' segments cutoffLength2 (i + 2)
               (shorts ++ [set_b (b nextSeg) seg])
        else removeShortSegments_loop fuel' segments cutoffLength2 (i + 1)
               (shorts ++ [seg])
      else shorts
  end.

Definition removeShortSegments (segments : list TriangleSegment2)
    (cutoffLength : S) (shorts : list TriangleSegment2)
    : outcome (list TriangleSegment2) :=
  if sc0 <? cutoffLength then
    Returns (removeShortSegments_loop (length segments) segments
               (cutoffLength * cutoffLength) 0 shorts)
  else AssertFailed.

(** The local vectors of [Shrinky::inset], as they stand when the
    function returns (they are what the OpenSCAD dump writes out). *)
Record InsetLocals := MkLocals {
  bisectors : list Vector2;
  relevant : list TriangleSegment2;
  insets : list TriangleSegment2;
  finalInsets : list TriangleSegment2
}.

Definition inset_locals (originalSegments : list TriangleSegment2)
    (insetDist cutoffLength : S) : outcome InsetLocals :=
  let segmentCount := length originalSegments in
  if decide (segmentCount = 0)%nat then AssertFailed
  else if decide (segmentCount < 2)%nat then Throws (NotEnoughSegments segmentCount)
  else
    bisectors ← createBisectors originalSegments cutoffLength [];
    let relevantSegments :=
      removeCollapsedSegments originalSegments bisectors insetDist in
    if decide (0 < length relevantSegments)%nat then
      let insets := insetSegments relevantSegments insetDist in
      let elongation := insetDist * s_of_Z 100 in
      Returns (MkLocals bisectors relevantSegments insets
                 (elongateAndTrimSegments insets elongation))
    else Returns (MkLocals bisectors relevantSegments [] []).

(** [Shrinky::inset]: the output vector [finalInsets]. *)
Definition inset (originalSegments : list TriangleSegment2)
    (insetDist cutoffLength : S) : outcome (list TriangleSegment2) :=
  locals ← inset_locals originalSegments insetDist cutoffLength;
  Returns (finalInsets locals).
End Shrinky.

(** ** The primitive library's predicates *)

Section GeometryModel.
Context {S : Type} `{ScalarOps S}.
Local Open Scope scalar_scope.

(** Modelled from the spec: [same_same(other, ε)], the coincidence of two
    points within ε (the primitive library is not part of the sources). *)
Definition sameSame_model (p q : Vector2 S) (tol : S) : bool :=
  let d := vsub q p in
  x d * x d + y d * y d <? tol * tol.

(** Modelled from the spec: segment-segment intersection returning an
    optional point (the primitive library is not part of the sources).
    The two segments are [p.a + t (p.b - p.a)] and [q.a + s (q.b - q.a)];
    they meet when the directions are not parallel and both parameters lie
    in [0, 1]. *)
Definition segmentSegmentIntersection_model (p q : TriangleSegment2 S)
    : option (Vector2 S) :=
  let d1 := vsub (b p) (a p) in
  let d2 := vsub (b q) (a q) in
  let w := vsub (a p) (a q) in
  let den := x d1 * y d2 - x d2 * y d1 in
  if (den <? sc0) || (sc0 <? den) then
    let s := (x d1 * y w - y d1 * x w) / den in
    let t := (x d2 * y w - y d2 * x w) / den in
    if (sc0 <=? s) && (s <=? sc1) && (sc0 <=? t) && (t <=? sc1)
    then Some (Vec2 (x (a p) + t * x d1) (y (a p) + t * y d1))
    else None
  else None.

Definition Geometry_model : Geometry S :=
  {| sameSame := sameSame_model;
     segmentSegmentIntersection := segmentSegmentIntersection_model |}.
End GeometryModel.

(** ** Double precision *)

Definition float_of_Z (z : Z) : float :=
  match z with
  | Z0 => 0%float
  | Zpos _ => of_uint63 (Uint63.of_Z z)
  | Zneg p => PrimFloat.opp (of_uint63 (Uint63.of_Z (Zpos p)))
  end.

(** [Scalar] as the spec has it: double precision. *)
#[export] Instance float_ops : ScalarOps float :=
  {| s_of_Z := float_of_Z;
     s_half := 0.5%float;
     s_add := PrimFloat.add;
     s_sub := PrimFloat.sub;
     s_mul := PrimFloat.mul;
     s_div := PrimFloat.div;
     s_sqrt := PrimFloat.sqrt;
     s_ltb := PrimFloat.ltb;
     s_leb := PrimFloat.leb |}.

#[export] Instance float_geometry : Geometry float := Geometry_model.

(** ** Definitions for the statements

    What the statements below speak of: the inset direction and the
    translation as the specification words them, and the tests that the loops
    of the code run at one index. *)

Section SpecWords.
Context {S : Type} `{ScalarOps S} `{Geometry S}.
Local Open Scope scalar_scope.

Abbreviation Vector2 := (Vector2 S).
Abbreviation TriangleSegment2 := (TriangleSegment2 S).

(** The direction of the raw inset as the spec writes it. *)
Definition inset_direction (s : TriangleSegment2) : Vector2 :=
  let n := normalise3
             (crossProduct (Vec3 (x (b s) - x (a s)) (y (b s) - y (a s)) sc0)
                           (Vec3 sc0 sc0 sc1)) in
  Vec2 (x3 n) (y3 n).

(** A segment moved by a vector: both endpoints translated. *)
Definition translate (v : Vector2) (s : TriangleSegment2) : TriangleSegment2 :=
  Seg (vadd (a s) v) (vadd (b s) v).

(** The adjacency test at vertex [i]: the end of the previous segment
    against the start of segment [i], within [tol]. *)
Definition adjacent (segments : list TriangleSegment2) (tol : S) (i : nat) : bool :=
  sameSame (b (segments !!! prevIndex (length segments) i))
           (a (segments !!! i)) tol.

(** The bisector at vertex [i]: the normalised sum of the inset directions
    of segment [i] and of the segment before it. *)
Definition bisector_at (segments : list TriangleSegment2) (i : nat) : Vector2 :=
  normalise (vadd (getInsetDirection (segments !!! i))
                  (getInsetDirection (segments !!! prevIndex (length segments) i))).

(** The collapse test that [removeCollapsedSegments] runs on segment [i]
    when no earlier segment has collapsed. *)
Definition collapse_test (segments : list TriangleSegment2)
    (bisectors : list Vector2) (d : S) (i : nat) : bool :=
  fst (edgeCollapse (segments !!! i)
         (bisectors !!! prevIndex (length segments) i)
         (bisectors !!! nextIndex (length segments) i) d (s_of_Z 100)).
End SpecWords.

(** ** Exact arithmetic *)

(** The real numbers as scalars: the arithmetic that double precision
    approximates. *)
#[export] Instance R_ops : ScalarOps R :=
  {| s_of_Z := IZR;
     s_half := (/ 2)%R;
     s_add := Rplus;
     s_sub := Rminus;
     s_mul := Rmult;
     s_div := Rdiv;
     s_sqrt := R_sqrt.sqrt;
     s_ltb := fun u v => if Rlt_dec u v then true else false;
     s_leb := fun u v => if Rle_dec u v then true else false |}.

(** ** Short-segment removal *)

Section ShortSegments.
Context {S : Type} `{ScalarOps S} `{Geometry S}.
Local Open Scope scalar_scope.

(** What the loop of [removeShortSegments] computes, by recursion on the
    segments still to visit: the visited segment is always emitted, and it
    takes over the end of the segment after it when that one is short, which
    is then not visited.  [first] is the first segment of the vector, the
    one after the last. *)
Fixpoint absorbShort (first : TriangleSegment2 S) (cutoffLength2 : S)
    (l : list (TriangleSegment2 S)) : list (TriangleSegment2 S) :=
  match l with
  | [] => []
  | s :: rest =>
      match rest with
      | nextSeg :: rest' =>
          if squaredLength nextSeg <? cutoffLength2
          then set_b (b nextSeg) s :: absorbShort first cutoffLength2 rest'
          else s :: absorbShort first cutoffLength2 rest
      | [] =>
          if squaredLength first <? cutoffLength2
          then [set_b (b first) s]
          else [s]
      end
  end.

(** The pass as the spec words it: a segment whose length is below the
    cutoff is merged with the following segment, whose end replaces the
    short one's end, and the walk advances past the pair. *)
Fixpoint mergeShort_spec (first : TriangleSegment2 S) (cutoffLength : S)
    (l : list (TriangleSegment2 S)) : list (TriangleSegment2 S) :=
  match l with
  | [] => []
  | s :: rest =>
      if segLength s <? cutoffLength then
        match rest with
        | nextSeg :: rest' =>
            set_b (b nextSeg) s :: mergeShort_spec first cutoffLength rest'
        | [] => [set_b (b first) s]
        end
      else s :: mergeShort_spec first cutoffLength rest
  end.

(** The pipeline as the spec words it, with the pass after the trimming. *)
Definition inset_with_short_removal (originalSegments : list (TriangleSegment2 S))
    (insetDist cutoffLength : S) : outcome (list (TriangleSegment2 S)) :=
  trimmed ← inset originalSegments insetDist cutoffLength;
  Returns (mergeShort_spec (trimmed !!! 0%nat) cutoffLength trimmed).
End ShortSegments.

(** ** Containment trees, [ContainmentTree_decl.h] *)

Section Containment.
Context {Point T : Type}.

(** A loop is its sequence of points; the default loop of a root is empty. *)
Definition Loop := list Point.

(** The winding test of the primitive library: is the point inside the
    loop? *)
Variable windingContains : Loop -> Point -> bool.

(** The data members of the class. *)
Inductive ContainmentTree :=
  MkTree (m_loop : Loop) (m_children : list ContainmentTree) (m_value : T).

Definition m_loop (t : ContainmentTree) : Loop :=
  match t with MkTree l _ _ => l end.
Definition m_children (t : ContainmentTree) : list ContainmentTree :=
  match t with MkTree _ c _ => c end.
Definition m_value (t : ContainmentTree) : T :=
  match t with MkTree _ _ v => v end.

(** Modelled from the spec: [isValid], whose body is in the implementation
    file, which is not part of the sources.  Normal trees have a loop,
    roots have none. *)
Definition isValid (t : ContainmentTree) : bool :=
  match m_loop t with [] => false | _ :: _ => true end.

(** Modelled from the spec: [contains(other)], whose body is in the
    implementation file, which is not part of the sources.  Roots return
    true for all normal trees and false for other roots; normal trees return
    false for roots and, for another normal tree, the winding test of their
    loop on a point of the other's loop. *)
Definition contains (self other : ContainmentTree) : bool :=
  match m_loop self, m_loop other with
  | [], [] => false
  | [], _ :: _ => true
  | _ :: _, [] => false
  | _ :: _, p :: _ => windingContains (m_loop self) p
  end.
End Containment.

(** ** Concrete polygons, in double precision *)

(** The closed loop through the given points, as a vector of segments. *)
Definition loop_of {S} (pts : list (Vector2 S)) : list (TriangleSegment2 S) :=
  match pts with
  | [] => []
  | p0 :: _ => zip_with Seg pts (tail pts ++ [p0])
  end.

Definition pt (px py : float) : Vector2 float := Vec2 px py.

(** The square of scenario S1, in the order the spec lists it
    (counter-clockwise), and the same square listed clockwise. *)
Definition square_ccw : list (TriangleSegment2 float) :=
  loop_of [pt 0 0; pt 10 0; pt 10 10; pt 0 10].
Definition square_cw : list (TriangleSegment2 float) :=
  loop_of [pt 0 0; pt 0 10; pt 10 10; pt 10 0].

(** The equilateral triangle of scenario S2, side 2, in both orientations. *)
Definition sqrt3 : float := PrimFloat.sqrt 3.
Definition triangle_ccw : list (TriangleSegment2 float) :=
  loop_of [pt 0 0; pt 2 0; pt 1 sqrt3].
Definition triangle_cw : list (TriangleSegment2 float) :=
  loop_of [pt 0 0; pt 1 sqrt3; pt 2 0].

(** The unit square, clockwise. *)
Definition unit_square_cw : list (TriangleSegment2 float) :=
  loop_of [pt 0 0; pt 0 1; pt 1 1; pt 1 0].

(** A 16 by 0.5 rectangle, clockwise. *)
Definition flat_rectangle : list (TriangleSegment2 float) :=
  loop_of [pt 0 0; pt 0 0.5; pt 16 0.5; pt 16 0].

(** A segment and its reverse: the smallest input that [Shrinky::inset]
    accepts as closed. *)
Definition there_and_back : list (TriangleSegment2 float) :=
  loop_of [pt 0 0; pt 1 0].

(** Is [u] within [tol] of [v]? *)
Definition near (tol u v : float) : bool :=
  PrimFloat.leb (PrimFloat.abs (PrimFloat.sub u v)) tol.
Definition near_point (tol : float) (p q : Vector2 float) : bool :=
  near tol (x p) (x q) && near tol (y p) (y q).
Definition near_segment (tol : float) (s t : TriangleSegment2 float) : bool :=
  near_point tol (a s) (a t) && near_point tol (b s) (b t).

(** Do two segment vectors have the same size and agree, segment by segment,
    within [tol] on every coordinate? *)
Fixpoint near_loop (tol : float) (l l' : list (TriangleSegment2 float)) : bool :=
  match l, l' with
  | [], [] => true
  | s :: l, t :: l' => near_segment tol s t && near_loop tol l l'
  | _, _ => false
  end.

(** The unit square, clockwise, over the reals. *)
Definition unit_square_R : list (TriangleSegment2 R) :=
  loop_of [Vec2 0%R 0%R; Vec2 0%R 1%R; Vec2 1%R 1%R; Vec2 1%R 0%R].

(** Three sides of the square of scenario S1: the loop is left open. *)
Definition open_square : list (TriangleSegment2 float) :=
  [Seg (pt 0 0) (pt 0 10); Seg (pt 0 10) (pt 10 10); Seg (pt 10 10) (pt 10 0)].

(** A thin triangle with one short side, clockwise. *)
Definition sliver : list (TriangleSegment2 float) :=
  loop_of [pt 0 0; pt 0 10; pt 0.5 10].

(** The collapse test of segment [i] on the segment's own two bisectors, the
    one at its start and the one at its end, as the spec words it. *)
Definition own_bisector_test {S} `{ScalarOps S} `{Geometry S}
    (segments : list (TriangleSegment2 S)) (bisectors : list (Vector2 S))
    (d : S) (i : nat) : bool :=
  fst (edgeCollapse (segments !!! i) (bisectors !!! i)
         (bisectors !!! nextIndex (length segments) i) d (s_of_Z 100)).

(** The collapse test as the spec words it: the rays from the start of
    segment [i] along the bisector there and from its end along the bisector
    there, both elongated, are intersected; the segment collapses when the
    altitude of the triangle on the segment with the intersection as apex is
    below [d]. *)
Definition collapse_spec {S} `{ScalarOps S} `{Geometry S}
    (segments : list (TriangleSegment2 S)) (bisectors : list (Vector2 S))
    (d : S) (i : nat) : bool :=
  let s := segments !!! i in
  let elongation := s_of_Z 100 in
  let ray0 := Seg (a s) (vadd (a s) (vscale (bisectors !!! i) elongation)) in
  let ray1 :=
    Seg (b s)
        (vadd (b s)
           (vscale (bisectors !!! nextIndex (length segments) i) elongation)) in
  match segmentSegmentIntersection ray0 ray1 with
  | Some p =>
      s_ltb (triangleAltitude (segLength s) (magnitude (vsub (a s) p))
               (magnitude (vsub (b s) p))) d
  | None => false
  end.

(** The bisectors of the concrete polygons. *)
Definition bisectors_of {S} `{ScalarOps S}
    (segments : list (TriangleSegment2 S)) : list (Vector2 S) :=
  map (bisector_at segments) (seq 0 (length segments)).

(** ** The rest of [shrinky.cc]: convexity, convex trimming, reflex bridges *)

(** How [createConvexList] ends: it has filled the vector, or it throws the
    [ShrinkyMess] whose message starts with "CONNECTIVITY ERROR" and names the
    segment [id] and the one before it. *)
Inductive ConvexListResult :=
| ConvexList (convex : list bool)
| ConnectivityError (id prevId : nat).

Section Convexity.
Context {S : Type} `{ScalarOps S} `{Geometry S}.
Local Open Scope scalar_scope.

Definition AreaSign (p q r : Vector2 S) : S :=
  (x q - x p) * (y r - y p) - (x r - x p) * (y q - y p).

Definition convexVertex (i j k : Vector2 S) : bool :=
  AreaSign i j k <? sc0.

(** The tolerance that [createConvexList] fixes for itself, the literal
    0.3. *)
Definition convexList_tol : S := s_of_Z 3 / s_of_Z 10.

(** One turn of the loop of [createConvexList]; [convex] is the output
    vector, to which the function appends. *)
Definition createConvexList_body (segments : list (TriangleSegment2 S))
    (acc : ConvexListResult) (id : nat) : ConvexListResult :=
  match acc with
  | ConnectivityError _ _ => acc
  | ConvexList convex =>
      let prevId := prevIndex (length segments) id in
      let seg := segments !!! id in
      let prevSeg := segments !!! prevId in
      let i := a prevSeg in
      let j := a seg in
      let j2 := b prevSeg in
      let k := b seg in
      let isSameSame := sameSame j j2 convexList_tol in
      if isSameSame
      then ConvexList (convex ++ [convexVertex i j k])
      else ConnectivityError id prevId
  end.

Definition createConvexList (segments : list (TriangleSegment2 S))
    (convex : list bool) : ConvexListResult :=
  fold_left (createConvexList_body segments) (seq 0 (length segments))
    (ConvexList convex).

(** One turn of the loop of [trimConvexSegments].  The two references may
    be the same element, so the writes are made in the vector, in the order
    of the code.  When the intersection fails the code builds a message and
    does not throw it. *)
Definition trimConvex_body (convex : list bool)
    (segments : list (TriangleSegment2 S)) (i : nat) : list (TriangleSegment2 S) :=
  let prevId := prevIndex (length segments) i in
  if (convex !!! i : bool) then
    match segmentSegmentIntersection (segments !!! prevId) (segments !!! i) with
    | Some intersection =>
        alter (set_a intersection) i (alter (set_b intersection) prevId segments)
    | None => segments
    end
  else segments.

(** [segments] is the output vector, asserted empty on entry and then
    assigned [rawInsets]; it is returned. *)
Definition trimConvexSegments (rawInsets : list (TriangleSegment2 S))
    (convex : list bool) : list (TriangleSegment2 S) :=
  let segments := rawInsets in
  fold_left (trimConvex_body convex) (seq 0 (length segments)) segments.

(** One turn of the loop of [AddReflexSegments]. *)
Definition AddReflex_body (segments trimmedInsets : list (TriangleSegment2 S))
    (convexVertices : list bool) (newSegments : list (TriangleSegment2 S))
    (i : nat) : list (TriangleSegment2 S) :=
  let prevId := prevIndex (length segments) i in
  let newSegments :=
    if negb (convexVertices !!! i : bool) then
      let start := b (trimmedInsets !!! prevId) in
      let end_ := a (trimmedInsets !!! i) in
      newSegments ++ [Seg start end_]
    else newSegments in
  newSegments ++ [trimmedInsets !!! i].

(** [newSegments] is the output vector, asserted empty on entry; it is
    returned. *)
Definition AddReflexSegments (segments trimmedInsets : list (TriangleSegment2 S))
    (convexVertices : list bool) : list (TriangleSegment2 S) :=
  fold_left (AddReflex_body segments trimmedInsets convexVertices)
    (seq 0 (length segments)) [].

(** Consecutive segments of the list meet: each ends where the next
    starts. *)
Fixpoint chained (l : list (TriangleSegment2 S)) : Prop :=
  match l with
  | s :: (t :: _) as rest => b s = a t /\ chained rest
  | _ => True
  end.

(** The list is a closed loop: it is chained and its last segment ends
    where its first starts. *)
Definition closed_loop (l : list (TriangleSegment2 S)) : Prop :=
  chained l /\
  forall s t, head l = Some s -> last l = Some t -> b t = a s.

(** The scalar product and the planar cross product of two vectors. *)
Definition dot (u v : Vector2 S) : S := x u * x v + y u * y v.
Definition cross2 (u v : Vector2 S) : S := x u * y v - y u * x v.
End Convexity.

(** What one turn of the loop of [AddReflexSegments] pushes. *)
Definition reflex_piece {S} `{ScalarOps S}
    (segments trimmedInsets : list (TriangleSegment2 S))
    (convexVertices : list bool) (i : nat) : list (TriangleSegment2 S) :=
  (if negb (convexVertices !!! i : bool)
   then [Seg (b (trimmedInsets !!! prevIndex (length segments) i))
             (a (trimmedInsets !!! i))]
   else []) ++ [trimmedInsets !!! i].

(** What [absorbShort] keeps of the list it is given. *)
Definition absorb_keeps {S} `{ScalarOps S} (first : TriangleSegment2 S) (c2 : S)
    (l : list (TriangleSegment2 S)) : Prop :=
  let r := absorbShort first c2 l in
  (length r <= length l)%nat /\
  (length l <= 2 * length r)%nat /\
  (forall h, head l = Some h -> exists h', head r = Some h' /\ a h' = a h) /\
  (chained l -> chained r) /\
  ((forall s, In s l -> s_ltb (squaredLength s) c2 = false) ->
   s_ltb (squaredLength first) c2 = false -> r = l).

(** More concrete inputs.  The raw insets of the clockwise square of
    scenario S1 for an inset distance of 1; the same with every vertex
    flagged convex; a path of three segments of which the middle one is
    short. *)
Definition square_cw_raw : list (TriangleSegment2 float) :=
  insetSegments square_cw 1%float.
Definition all_convex : list bool := [true; true; true; true].
Definition first_reflex : list bool := [false; true; true; true].
Definition short_middle : list (TriangleSegment2 float) :=
  [Seg (pt 0 0) (pt 0 10); Seg (pt 0 10) (pt 0.5 10); Seg (pt 0.5 10) (pt 10 10)].

(** The first side of the unit square, over the reals, and a point to its
    right. *)
Definition up_segment_R : TriangleSegment2 R := Seg (Vec2 0%R 0%R) (Vec2 0%R 1%R).
Definition right_point_R : Vector2 R := Vec2 1%R 0%R.

(** A single segment, whose end is not its start. *)
Definition one_open_segment : list (TriangleSegment2 float) :=
  [Seg (pt 0 0) (pt 1 0)].

(** A chevron, clockwise: (-1,-1), (0,0), (-1,1), (4,0).  The notch at
    (0,0) is its one reflex vertex; the other three are convex. *)
Definition chevron : list (TriangleSegment2 float) :=
  loop_of [pt (-1) (-1); pt 0 0; pt (-1) 1; pt 4 0].

(** Its raw insets for an inset distance of 0.5, and what the trimming
    makes of them (the elongation is 100 times the inset distance). *)
Definition chevron_raw : list (TriangleSegment2 float) :=
  insetSegments chevron 0.5%float.
Definition chevron_out : list (TriangleSegment2 float) :=
  elongateAndTrimSegments chevron_raw 50%float.

(** A right triangle with legs of length 2^-600, clockwise. *)
Definition tiny_triangle : list (TriangleSegment2 float) :=
  loop_of [pt 0 0; pt 0 0x1p-600; pt 0x1p-600 0].

(** A base from (0,0) to (3,0), over the reals, and two unit vectors: one
    leaves the start of the base upwards, the line of the other, through the
    end of the base, meets the first at (0,4). *)
Definition base_R : TriangleSegment2 R := Seg (Vec2 0%R 0%R) (Vec2 3%R 0%R).
Definition start_bisector_R : Vector2 R := Vec2 0%R 1%R.
Definition end_bisector_R : Vector2 R := Vec2 (3 / 5)%R (- 4 / 5)%R.

(** ** Doubles as real numbers

    The kernel specifies its primitive floats by the operations of
    [SpecFloat] on IEEE 754 binary64 numbers given as sign, mantissa and
    exponent ([spec_float], with precision 53 and largest exponent 1024).
    The definitions below are what the statements about rounding speak
    of. *)

(** The exponent of the last place of a number of [e] binary digits. *)
Definition fexp64 (e : Z) : Z := SpecFloat.fexp 53 1024 e.

(** By how many places the rounding shifts a mantissa [m] of exponent [e]
    to the right. *)
Definition shift_of (m e : Z) : Z :=
  Z.max 0 (fexp64 (SpecFloat.Zdigits2 m + e) - e)%Z.

(** The float that the rounding builds from the mantissa and the exponent
    it ends with. *)
Definition round_result (sx : bool) (m2 e2 : Z) : SpecFloat.spec_float :=
  match m2 with
  | Z0 => SpecFloat.S754_zero sx
  | Zpos m =>
      if (e2 <=? 971)%Z then SpecFloat.S754_finite sx m e2
      else SpecFloat.S754_infinity sx
  | Zneg _ => SpecFloat.S754_nan
  end.

(** 2 to the power [e], and a magnitude with a sign. *)
Definition bpow (e : Z) : R := powerRZ 2 e.
Definition signed (s : bool) (v : R) : R := if s then (- v)%R else v.

(** The real number that a float stands for (0 for the infinities and
    NaN), whether a float is zero or a finite number, and whether it is zero
    or a positive finite number. *)
Definition SF2R (f : SpecFloat.spec_float) : R :=
  match f with
  | SpecFloat.S754_finite s m e => signed s (IZR (Zpos m) * bpow e)
  | _ => 0%R
  end.
Definition finite_SF (f : SpecFloat.spec_float) : bool :=
  match f with
  | SpecFloat.S754_zero _ | SpecFloat.S754_finite _ _ _ => true
  | _ => false
  end.
Definition nonneg_SF (f : SpecFloat.spec_float) : bool :=
  match f with
  | SpecFloat.S754_zero _ | SpecFloat.S754_finite false _ _ => true
  | _ => false
  end.

(** [r] is finite and is [t] rounded: within 2^-49 of [t], relatively, up
    to 2^-1071. *)
Definition rounds_to (r : SpecFloat.spec_float) (t : R) : Prop :=
  finite_SF r = true /\
  (Rabs (SF2R r - t) <= bpow (-49) * Rabs t + bpow (-1071))%R.

(** [u] is [v] up to a relative error [eps] and an absolute error [eta]. *)
Definition near_R (eps eta u v : R) : Prop :=
  (Rabs (u - v) <= eps * Rabs v + eta)%R.

(** The same for the primitive floats. *)
Definition F2R (f : float) : R := SF2R (FloatOps.Prim2SF f).
Definition is_finite (f : float) : bool := finite_SF (FloatOps.Prim2SF f).
Definition double_eps : R := bpow (-49).
Definition double_eta : R := bpow (-1071).
Definition rounded_to (u : float) (t : R) : Prop :=
  is_finite u = true /\ near_R double_eps double_eta (F2R u) t.

(** A vector of doubles that can be normalised: both coordinates are at
    most 2^499 in absolute value, and one of them is at least 2^-500 (so
    neither is infinite or NaN, and they are not both zero). *)
Definition normalisable (v : Vector2 float) : bool :=
  let ax := PrimFloat.abs (x v) in
  let ay := PrimFloat.abs (y v) in
  (PrimFloat.leb 0x1p-500 ax || PrimFloat.leb 0x1p-500 ay)
  && PrimFloat.leb ax 0x1p499 && PrimFloat.leb ay 0x1p499.
(** ** Loops that push one element per turn *)

Section PushLoops.
Context {A B : Type} `{Inhabited A}.

Lemma fold_push_drop (f : A -> B) (l : list A) (m k : nat) (acc : list B) :
  (k + m = length l)%nat ->
  fold_left (fun acc i => acc ++ [f (l !!! i)]) (seq k m) acc
  = acc ++ map f (drop k l).
Proof.
  revert k acc. induction m as [|m IH]; intros k acc Hk; simpl.
  - rewrite drop_ge by lia. simpl. by rewrite app_nil_r.
  - rewrite IH by lia.
    assert (Hlt : (k < length l)%nat) by lia.
    destruct (lookup_lt_is_Some_2 l k Hlt) as [v Hv].
    rewrite (drop_S l v k Hv). simpl.
    rewrite (list_lookup_total_correct l k v Hv).
    by rewrite <- app_assoc.
Qed.

Lemma fold_push_map (f : A -> B) (l : list A) :
  fold_left (fun acc i => acc ++ [f (l !!! i)]) (seq 0 (length l)) []
  = map f l.
Proof. rewrite fold_push_drop by lia. by rewrite drop_0. Qed.
End PushLoops.

(** ** Facts about the inset engine that hold for every scalar arithmetic *)

Section ShrinkyFacts.
Context {S : Type} `{ScalarOps S} `{Geometry S}.
Local Open Scope scalar_scope.

Abbreviation Vector2 := (Vector2 S).
Abbreviation TriangleSegment2 := (TriangleSegment2 S).

Lemma insetSegments_map (segments : list TriangleSegment2) (d : S) :
  insetSegments segments d
  = map (fun s => translate (vscale (inset_direction s) d) s) segments.
Proof.
  unfold insetSegments.
  rewrite <- (fold_push_map
    (fun s => translate (vscale (inset_direction s) d) s) segments).
  reflexivity.
Qed.

Lemma insetSegments_length (segments : list TriangleSegment2) (d : S) :
  length (insetSegments segments d) = length segments.
Proof. rewrite insetSegments_map. apply length_map. Qed.

(** *** Elongate and trim *)

Lemma attachSegments_length mem first next e :
  length (snd (attachSegments mem first next e)) = length mem.
Proof.
  unfold attachSegments.
  destruct (segmentSegmentIntersection _ _); simpl; [|done].
  by rewrite !length_alter.
Qed.

Lemma elongateAndTrim_body_length e segments i :
  length (elongateAndTrim_body e segments i) = length segments.
Proof. apply attachSegments_length. Qed.

Lemma fold_body_length e (idx : list nat) segments :
  length (fold_left (elongateAndTrim_body e) idx segments) = length segments.
Proof.
  revert segments. induction idx as [|i idx IH]; intros segments; simpl; [done|].
  rewrite IH. apply elongateAndTrim_body_length.
Qed.

Lemma elongateAndTrim_copy (longSegments : list TriangleSegment2) :
  fold_left (fun segments i => segments ++ [longSegments !!! i])
    (seq 0 (length longSegments)) [] = longSegments.
Proof.
  rewrite (fold_push_map (fun s => s) longSegments). apply map_id.
Qed.

Lemma elongateAndTrimSegments_unfold longSegments e :
  elongateAndTrimSegments longSegments e
  = fold_left (elongateAndTrim_body e) (seq 0 (length longSegments)) longSegments.
Proof. unfold elongateAndTrimSegments. by rewrite elongateAndTrim_copy. Qed.

Lemma elongateAndTrimSegments_length longSegments e :
  length (elongateAndTrimSegments longSegments e) = length longSegments.
Proof. rewrite elongateAndTrimSegments_unfold. apply fold_body_length. Qed.

(** *** Bisector construction *)

Lemma createBisectors_fold_throws segments tol idx e :
  fold_left (createBisectors_body segments tol) idx (Throws e) = Throws e.
Proof. induction idx as [|i idx IH]; simpl; [done|]. apply IH. Qed.

Lemma createBisectors_fold segments tol idx motorCycles :
  fold_left (createBisectors_body segments tol) idx (Returns motorCycles)
  = if forallb (adjacent segments tol) idx
    then Returns (motorCycles ++ map (bisector_at segments) idx)
    else Throws NotClosedPolygon.
Proof.
  revert motorCycles. induction idx as [|i idx IH]; intros motorCycles.
  - simpl. by rewrite app_nil_r.
  - cbn [fold_left forallb map].
    assert (Hbody : createBisectors_body segments tol (Returns motorCycles) i
              = if adjacent segments tol i
                then Returns (motorCycles ++ [bisector_at segments i])
                else Throws NotClosedPolygon) by reflexivity.
    rewrite Hbody. destruct (adjacent segments tol i); cbn [andb].
    + rewrite IH. destruct (forallb _ idx); [|done].
      by rewrite <- app_assoc.
    + apply createBisectors_fold_throws.
Qed.

Lemma createBisectors_spec segments tol motorCycles :
  createBisectors segments tol motorCycles
  = if forallb (adjacent segments tol) (seq 0 (length segments))
    then Returns (motorCycles
                  ++ map (bisector_at segments) (seq 0 (length segments)))
    else Throws NotClosedPolygon.
Proof. apply createBisectors_fold. Qed.

Lemma createBisectors_length segments tol bis :
  createBisectors segments tol [] = Returns bis ->
  length bis = length segments.
Proof.
  rewrite createBisectors_spec. destruct (forallb _ _); [|done].
  intros [= <-]. simpl. by rewrite length_map, length_seq.
Qed.

(** *** Collapse removal *)

Lemma edgeCollapse_spec segment bisector0 bisector1 d e :
  edgeCollapse segment bisector0 bisector1 d e
  = match segmentSegmentIntersection
            (elongate (Seg (a segment) (vadd (a segment) bisector0)) e false true)
            (elongate (Seg (b segment) (vadd (b segment) bisector1)) e true false)
    with
    | Some p =>
        let h := triangleAltitude (segLength segment)
                   (magnitude (vsub (a segment) p))
                   (magnitude (vsub (b segment) p)) in
        (h <? d, Some h)
    | None => (false, None)
    end.
Proof.
  unfold edgeCollapse, attachSegments. simpl.
  by destruct (segmentSegmentIntersection _ _).
Qed.

Lemma removeCollapsed_fold_length segments bis d e idx st :
  (length (relevantSegments
             (fold_left (removeCollapsed_body segments bis d e) idx st))
   <= length (relevantSegments st) + length idx)%nat.
Proof.
  revert st. induction idx as [|i idx IH]; intros st; simpl; [lia|].
  etrans; [apply IH|]. unfold removeCollapsed_body at 1. simpl.
  destruct (fst _); simpl; rewrite ?length_app; simpl; lia.
Qed.

Lemma removeCollapsedSegments_length segments bis d :
  (length (removeCollapsedSegments segments bis d) <= length segments)%nat.
Proof.
  unfold removeCollapsedSegments.
  etrans; [apply removeCollapsed_fold_length|]. simpl. by rewrite length_seq.
Qed.

Lemma removeCollapsed_fold_none segments bis d m k st :
  (2 <= length segments)%nat ->
  (k + m = length segments)%nat ->
  (forall i, (k <= i < length segments)%nat ->
             collapse_test segments bis d i = false) ->
  ((k < length segments)%nat ->
     prevBisector st = prevIndex (length segments) k /\
     currId st = k /\
     nextBisector st = nextIndex (length segments) k) ->
  relevantSegments st = take k segments ->
  relevantSegments
    (fold_left (removeCollapsed_body segments bis d (s_of_Z 100)) (seq k m) st)
  = segments.
Proof.
  intros Hn. revert k st. induction m as [|m IH]; intros k st Hk Hno Hidx Hrel; simpl.
  - rewrite Hrel. apply take_ge. lia.
  - assert (Hlt : (k < length segments)%nat) by lia.
    destruct (Hidx Hlt) as (Hp & Hc & Hx).
    assert (Hcol : fst (edgeCollapse (segments !!! currId st)
              (bis !!! prevBisector st) (bis !!! nextBisector st) d (s_of_Z 100))
            = false).
    { rewrite Hp, Hc, Hx. apply (Hno k). lia. }
    apply IH; [lia| |..].
    + intros i Hi. apply Hno. lia.
    + intros Hlt'. unfold removeCollapsed_body. simpl. rewrite Hcol, Hp, Hc, Hx.
      unfold nextIndex, prevIndex. repeat case_decide; lia.
    + unfold removeCollapsed_body. simpl. rewrite Hcol, Hrel, Hc.
      destruct (lookup_lt_is_Some_2 segments k Hlt) as [v Hv].
      rewrite (list_lookup_total_correct _ _ _ Hv).
      by rewrite (take_S_r _ _ _ Hv).
Qed.

Lemma removeCollapsedSegments_none segments bis d :
  (2 <= length segments)%nat ->
  (forall i, (i < length segments)%nat -> collapse_test segments bis d i = false) ->
  removeCollapsedSegments segments bis d = segments.
Proof.
  intros Hn Hno. unfold removeCollapsedSegments.
  apply removeCollapsed_fold_none; [done|lia| | |done].
  - intros i Hi. apply Hno. lia.
  - intros _. simpl. unfold prevIndex, nextIndex.
    repeat case_decide; repeat split; lia.
Qed.

(** *** The pipeline *)

Lemma inset_locals_unfold segments d cutoff :
  (2 <= length segments)%nat ->
  inset_locals segments d cutoff
  = bis ← createBisectors segments cutoff [];
    let rel := removeCollapsedSegments segments bis d in
    let raw := insetSegments rel d in
    Returns (MkLocals bis rel raw
               (elongateAndTrimSegments raw (d * s_of_Z 100))).
Proof.
  intros Hn. unfold inset_locals.
  repeat case_decide; try lia.
  destruct (createBisectors segments cutoff []) as [bis| |]; simpl; try done.
  case_decide as Hrel; [done|].
  destruct (removeCollapsedSegments segments bis d); [done|simpl in Hrel; lia].
Qed.

Lemma inset_locals_returns_size segments d cutoff L :
  inset_locals segments d cutoff = Returns L -> (2 <= length segments)%nat.
Proof.
  unfold inset_locals. repeat case_decide; try done. lia.
Qed.

Lemma inset_unfold segments d cutoff :
  (2 <= length segments)%nat ->
  inset segments d cutoff
  = bis ← createBisectors segments cutoff [];
    let rel := removeCollapsedSegments segments bis d in
    Returns (elongateAndTrimSegments (insetSegments rel d) (d * s_of_Z 100)).
Proof.
  intros Hn. unfold inset. rewrite inset_locals_unfold by done.
  by destruct (createBisectors segments cutoff []).
Qed.

Lemma inset_returns_size segments d cutoff out :
  inset segments d cutoff = Returns out -> (2 <= length segments)%nat.
Proof.
  unfold inset.
  destruct (inset_locals segments d cutoff) as [L| |] eqn:HL; try done.
  intros _. by apply inset_locals_returns_size in HL.
Qed.

Lemma forallb_false_witness {A} (f : A -> bool) (l : list A) :
  forallb f l = false -> exists v, In v l /\ f v = false.
Proof.
  induction l as [|v l IH]; simpl; [done|].
  destruct (f v) eqn:Hv; simpl.
  - intros Hl. destruct (IH Hl) as (w & Hw & Hfw). eauto.
  - intros _. eauto.
Qed.

(** *** What one turn of the trimming loop may change *)

Lemma lookup_total_alter_keeps {T} (g : TriangleSegment2 -> T)
    (f : TriangleSegment2 -> TriangleSegment2) (l : list TriangleSegment2) k j :
  (forall s, g (f s) = g s) -> g (alter f k l !!! j) = g (l !!! j).
Proof.
  intros Hf. revert k j. induction l as [|s l IH]; intros k j; [done|].
  destruct k as [|k], j as [|j]; simpl; try done. apply IH.
Qed.

Lemma body_keeps_a e segments i j :
  j <> i ->
  a (elongateAndTrim_body e segments i !!! j) = a (segments !!! j).
Proof.
  intros Hj. unfold elongateAndTrim_body, attachSegments.
  destruct (segmentSegmentIntersection _ _); simpl; [|done].
  rewrite list_lookup_total_alter_ne by done.
  by apply lookup_total_alter_keeps.
Qed.

Lemma body_keeps_b e segments i j :
  j <> prevIndex (length segments) i ->
  b (elongateAndTrim_body e segments i !!! j) = b (segments !!! j).
Proof.
  intros Hj. unfold elongateAndTrim_body, attachSegments.
  destruct (segmentSegmentIntersection _ _); simpl; [|done].
  rewrite (lookup_total_alter_keeps b) by done.
  by rewrite list_lookup_total_alter_ne.
Qed.

Lemma fold_keeps_a e idx segments j :
  ~ In j idx ->
  a (fold_left (elongateAndTrim_body e) idx segments !!! j) = a (segments !!! j).
Proof.
  revert segments. induction idx as [|i idx IH]; intros segments Hj; simpl; [done|].
  rewrite IH by (intros ?; apply Hj; by right).
  apply body_keeps_a. intros ->. apply Hj. by left.
Qed.

Lemma fold_keeps_b e idx segments j :
  (forall i, In i idx -> j <> prevIndex (length segments) i) ->
  b (fold_left (elongateAndTrim_body e) idx segments !!! j) = b (segments !!! j).
Proof.
  revert segments. induction idx as [|i idx IH]; intros segments Hj; simpl; [done|].
  rewrite IH.
  - apply body_keeps_b. apply Hj. by left.
  - intros k Hk. rewrite elongateAndTrim_body_length. apply Hj. by right.
Qed.

Lemma prevIndex_inj size i j :
  (i < size)%nat -> (j < size)%nat ->
  prevIndex size i = prevIndex size j -> i = j.
Proof. unfold prevIndex. repeat case_decide; lia. Qed.

Lemma body_unchanged e segments i :
  segmentSegmentIntersection
    (elongate (segments !!! prevIndex (length segments) i) e false true)
    (elongate (segments !!! i) e true false) = None ->
  elongateAndTrim_body e segments i = segments.
Proof.
  intros Hnone. unfold elongateAndTrim_body, attachSegments.
  by rewrite Hnone.
Qed.

(** The vector after the first [k] turns of the trimming loop. *)
Lemma trim_split e raw i :
  (i < length raw)%nat ->
  elongateAndTrimSegments raw e
  = fold_left (elongateAndTrim_body e) (seq (Datatypes.S i) (length raw - Datatypes.S i))
      (elongateAndTrim_body e
         (fold_left (elongateAndTrim_body e) (seq 0 i) raw) i).
Proof.
  intros Hi. rewrite elongateAndTrimSegments_unfold.
  replace (length raw) with (i + Datatypes.S (length raw - Datatypes.S i))%nat at 1 by lia.
  rewrite seq_app, fold_left_app. reflexivity.
Qed.

Lemma trim_failure_endpoints e raw i :
  (i < length raw)%nat ->
  let st := fold_left (elongateAndTrim_body e) (seq 0 i) raw in
  segmentSegmentIntersection
    (elongate (st !!! prevIndex (length raw) i) e false true)
    (elongate (st !!! i) e true false) = None ->
  a (elongateAndTrimSegments raw e !!! i) = a (raw !!! i) /\
  b (elongateAndTrimSegments raw e !!! prevIndex (length raw) i)
  = b (raw !!! prevIndex (length raw) i).
Proof.
  intros Hi st Hnone.
  assert (Hlen : length st = length raw) by apply fold_body_length.
  rewrite (trim_split e raw i Hi). fold st.
  rewrite (body_unchanged e st i) by (by rewrite Hlen).
  split.
  - rewrite fold_keeps_a by (rewrite in_seq; lia).
    apply fold_keeps_a. rewrite in_seq. lia.
  - rewrite fold_keeps_b.
    + apply fold_keeps_b. intros k Hk Heq. apply in_seq in Hk.
      apply prevIndex_inj in Heq; lia.
    + intros k Hk Heq. apply in_seq in Hk. rewrite Hlen in Heq.
      apply prevIndex_inj in Heq; lia.
Qed.
End ShrinkyFacts.

(** ** The claims that hold for every scalar arithmetic *)

Section ShrinkyClaims.
Context {S : Type} `{ScalarOps S} `{Geometry S}.
Local Open Scope scalar_scope.

(** C5, as the code has it.  [Shrinky::inset] throws "This is not a
    closed polygon" exactly when the input has at least two segments and, at
    some vertex, the end of the previous segment is not the same as the start
    of the segment within the tolerance (the third argument of the call); the
    call then ends with the exception and yields no output.  An input of
    fewer than two segments never gets as far as the adjacency test. *)
Theorem inset_open_polygon_iff (segments : list (TriangleSegment2 S)) (d cutoff : S) :
  inset segments d cutoff = Throws NotClosedPolygon <->
  (2 <= length segments)%nat /\
  exists i, (i < length segments)%nat /\
    sameSame (b (segments !!! prevIndex (length segments) i))
             (a (segments !!! i)) cutoff = false.
Proof.
  destruct (decide (2 <= length segments)%nat) as [Hn|Hn].
  - rewrite inset_unfold by done. rewrite createBisectors_spec.
    destruct (forallb _ _) eqn:Hall; simpl.
    + split; [done|]. intros (_ & i & Hi & Hopen).
      rewrite forallb_forall in Hall.
      assert (Hadj : adjacent segments cutoff i = true).
      { apply Hall. apply in_seq. lia. }
      unfold adjacent in Hadj. congruence.
    + split; [|done]. intros _. split; [done|].
      destruct (forallb_false_witness _ _ Hall) as (i & Hi & Hopen).
      exists i. apply in_seq in Hi. split; [lia|exact Hopen].
  - split; [|by intros [? _]].
    unfold inset, inset_locals. repeat case_decide; simpl; try done. lia.
Qed.

(** C6.  The raw insets of the pipeline are the surviving segments, each
    with both endpoints moved by the inset direction scaled by [d], where the
    inset direction is the normalised cross product of the segment's vector
    with +z, restricted to its x and y. *)
Theorem raw_inset_translates (segments : list (TriangleSegment2 S)) (d cutoff : S)
    (L : InsetLocals) :
  inset_locals segments d cutoff = Returns L ->
  insets L
  = map (fun s => Seg (vadd (a s) (vscale (inset_direction s) d))
                      (vadd (b s) (vscale (inset_direction s) d)))
        (relevant L).
Proof.
  intros HL. pose proof (inset_locals_returns_size _ _ _ _ HL) as Hn.
  rewrite inset_locals_unfold in HL by done.
  destruct (createBisectors segments cutoff []) as [bis| |]; try done.
  simpl in HL. injection HL as <-. simpl. apply insetSegments_map.
Qed.

(** C10.  When [Shrinky::inset] returns, its output is the trimmed raw
    insets of the segments that survived collapse removal: the raw insets
    are as many as the survivors, the trimming keeps their number, so the
    output has one segment per survivor and as many segments as the input
    when no collapse test succeeds. *)
Theorem inset_one_output_per_survivor (segments : list (TriangleSegment2 S))
    (d cutoff : S) (out : list (TriangleSegment2 S)) :
  inset segments d cutoff = Returns out ->
  exists bis,
    createBisectors segments cutoff [] = Returns bis /\
    let rel := removeCollapsedSegments segments bis d in
    out = elongateAndTrimSegments (insetSegments rel d) (d * s_of_Z 100) /\
    length (insetSegments rel d) = length rel /\
    length out = length (insetSegments rel d) /\
    length out = length rel /\
    (length out <= length segments)%nat /\
    ((forall i, (i < length segments)%nat ->
                collapse_test segments bis d i = false) ->
     length out = length segments).
Proof.
  intros Hout. pose proof (inset_returns_size _ _ _ _ Hout) as Hn.
  rewrite inset_unfold in Hout by done.
  destruct (createBisectors segments cutoff []) as [bis| |]; try done.
  simpl in Hout. injection Hout as <-.
  exists bis. split; [done|]. simpl.
  rewrite elongateAndTrimSegments_length, insetSegments_length.
  repeat split; try done.
  - apply removeCollapsedSegments_length.
  - intros Hno. by rewrite removeCollapsedSegments_none.
Qed.

(** C7, as the code has it.  A failed trim is not an error.  The
    trimming works in place, so the test of a turn is made on the two
    segments as they stand at that turn, after the trims of the turns before
    it.  When their elongations do not intersect, the turn leaves the whole
    vector as it was, and the two endpoints that meet at that vertex are, in
    the output of the trimming, those of the raw insets; at the first turn
    the vector still holds the raw insets, so there the test is the one on
    the raw pair.  Whether the call returns is settled before any trim: it
    returns exactly when the input has at least two segments and passes the
    adjacency test, its only exceptions are the one for a one-segment input
    and "This is not a closed polygon", and it stops at the assert exactly
    on the empty input. *)
Theorem trim_failure_is_soft (segments : list (TriangleSegment2 S)) (d cutoff : S) :
  (forall e (v : list (TriangleSegment2 S)) i,
      segmentSegmentIntersection
        (elongate (v !!! prevIndex (length v) i) e false true)
        (elongate (v !!! i) e true false) = None ->
      attachSegments v (prevIndex (length v) i) i e = (false, v) /\
      elongateAndTrim_body e v i = v) /\
  (forall e (raw : list (TriangleSegment2 S)) i,
      (i < length raw)%nat ->
      let st := fold_left (elongateAndTrim_body e) (seq 0 i) raw in
      segmentSegmentIntersection
        (elongate (st !!! prevIndex (length raw) i) e false true)
        (elongate (st !!! i) e true false) = None ->
      a (elongateAndTrimSegments raw e !!! i) = a (raw !!! i) /\
      b (elongateAndTrimSegments raw e !!! prevIndex (length raw) i)
      = b (raw !!! prevIndex (length raw) i)) /\
  (forall e (raw : list (TriangleSegment2 S)),
      (0 < length raw)%nat ->
      segmentSegmentIntersection
        (elongate (raw !!! prevIndex (length raw) 0) e false true)
        (elongate (raw !!! 0%nat) e true false) = None ->
      a (elongateAndTrimSegments raw e !!! 0%nat) = a (raw !!! 0%nat) /\
      b (elongateAndTrimSegments raw e !!! prevIndex (length raw) 0)
      = b (raw !!! prevIndex (length raw) 0)) /\
  ((exists out, inset segments d cutoff = Returns out) <->
   (2 <= length segments)%nat /\
   forall i, (i < length segments)%nat ->
     sameSame (b (segments !!! prevIndex (length segments) i))
              (a (segments !!! i)) cutoff = true) /\
  (forall err, inset segments d cutoff = Throws err ->
     (err = NotEnoughSegments 1 /\ length segments = 1%nat) \/
     (err = NotClosedPolygon /\ (2 <= length segments)%nat)) /\
  (inset segments d cutoff = AssertFailed <-> segments = []).
Proof.
  split; [|split; [|split; [|split; [|split]]]].
  - intros e v i Hnone. split.
    + unfold attachSegments. by rewrite Hnone.
    + by apply body_unchanged.
  - intros e raw i Hi st Hnone. by apply trim_failure_endpoints.
  - intros e raw Hn Hnone. by apply (trim_failure_endpoints e raw 0 Hn).
  - split.
    + intros [out Hout]. pose proof (inset_returns_size _ _ _ _ Hout) as Hn.
      split; [done|]. rewrite inset_unfold in Hout by done.
      rewrite createBisectors_spec in Hout.
      destruct (forallb _ _) eqn:Hall; [|done].
      rewrite forallb_forall in Hall. intros i Hi.
      apply (Hall i). apply in_seq. lia.
    + intros [Hn Hadj]. rewrite inset_unfold by done.
      rewrite createBisectors_spec.
      destruct (forallb _ _) eqn:Hall; simpl; [eauto|].
      destruct (forallb_false_witness _ _ Hall) as (i & Hi & Hopen).
      apply in_seq in Hi. unfold adjacent in Hopen.
      rewrite Hadj in Hopen by lia. done.
  - intros err. unfold inset, inset_locals.
    repeat case_decide; simpl; try done.
    + intros [= <-]. left. split; [f_equal|]; lia.
    + rewrite createBisectors_spec. destruct (forallb _ _); simpl.
      * by case_decide.
      * intros [= <-]. right. split; [done|lia].
  - unfold inset, inset_locals. destruct segments as [|s0 segments'].
    + by case_decide.
    + split; [|done]. cbn [length]. repeat case_decide; simpl; try done; try lia.
      rewrite createBisectors_spec. destruct (forallb _ _); simpl; [|done].
      by case_decide.
Qed.

(** C1, as the code has it.  [Shrinky::inset] has no error for a collapsed
    polygon.  The only exceptions are the one for an input of fewer than two
    segments and "This is not a closed polygon"; an input of at least two
    segments that passes the adjacency test makes the call return, with one
    output segment per segment that survived collapse removal, and with no
    segment at all when none survived. *)
Theorem inset_returns_after_collapse (segments : list (TriangleSegment2 S))
    (d cutoff : S) (bis : list (Vector2 S)) :
  (2 <= length segments)%nat ->
  createBisectors segments cutoff [] = Returns bis ->
  (exists out, inset segments d cutoff = Returns out /\
     length out = length (removeCollapsedSegments segments bis d)) /\
  (removeCollapsedSegments segments bis d = [] ->
     inset segments d cutoff = Returns []) /\
  (forall segments' d' cutoff' e,
     inset segments' d' cutoff' = Throws e ->
     e = NotEnoughSegments (length segments') \/ e = NotClosedPolygon).
Proof.
  intros Hn Hbis. rewrite inset_unfold by done. rewrite Hbis. simpl.
  split; [|split].
  - eexists. split; [done|].
    by rewrite elongateAndTrimSegments_length, insetSegments_length.
  - by intros ->.
  - intros segments' d' cutoff' e. unfold inset, inset_locals.
    repeat case_decide; simpl; try done.
    + intros [= <-]. by left.
    + rewrite createBisectors_spec. destruct (forallb _ _); simpl.
      * by case_decide.
      * intros [= <-]. by right.
Qed.
End ShrinkyClaims.

(** ** Short-segment removal *)

Section ShortSegmentFacts.
Context {S : Type} `{ScalarOps S} `{Geometry S}.
Local Open Scope scalar_scope.

Lemma removeShortSegments_loop_spec (segments : list (TriangleSegment2 S))
    (cutoffLength2 : S) (fuel i : nat) (shorts : list (TriangleSegment2 S)) :
  (length segments - i <= fuel)%nat ->
  removeShortSegments_loop fuel segments cutoffLength2 i shorts
  = shorts ++ absorbShort (segments !!! 0%nat) cutoffLength2 (drop i segments).
Proof.
  revert i shorts. induction fuel as [|fuel IH]; intros i shorts Hfuel.
  - simpl. rewrite drop_ge by lia. simpl. by rewrite app_nil_r.
  - simpl. case_decide as Hi.
    + destruct (lookup_lt_is_Some_2 segments i Hi) as [seg Hseg].
      rewrite (drop_S _ _ _ Hseg), (list_lookup_total_correct _ _ _ Hseg).
      unfold nextIndex. case_decide as Hlast.
      * rewrite (drop_ge segments (Datatypes.S i)) by lia. simpl.
        destruct (squaredLength _ <? cutoffLength2).
        -- rewrite IH by lia. rewrite drop_ge by lia. simpl.
           by rewrite app_nil_r.
        -- rewrite IH by lia. rewrite drop_ge by lia. simpl.
           by rewrite app_nil_r.
      * assert (Hi' : (i + 1 < length segments)%nat) by lia.
        destruct (lookup_lt_is_Some_2 segments (i + 1) Hi') as [nextSeg Hnext].
        rewrite (list_lookup_total_correct _ _ _ Hnext).
        replace (Datatypes.S i) with (i + 1)%nat by lia.
        rewrite (drop_S _ _ _ Hnext). simpl.
        destruct (squaredLength nextSeg <? cutoffLength2).
        -- rewrite IH by lia. rewrite <- app_assoc.
           by replace (Datatypes.S (i + 1)) with (i + 2)%nat by lia.
        -- rewrite IH by lia. rewrite <- app_assoc.
           by rewrite (drop_S _ _ _ Hnext).
    + rewrite drop_ge by lia. simpl. by rewrite app_nil_r.
Qed.

(** C4, as the code has it.  The output of [Shrinky::inset] is the result
    of the trimming as it is: no pass over it removes short segments, and the
    cutoff serves only as the tolerance of the adjacency test.  The separate
    routine [removeShortSegments] visits the segments in turn; the visited
    segment is always emitted, and when the segment after it is shorter than
    the cutoff the visited one takes over that segment's end and the walk
    skips it. *)
Theorem no_short_segment_pass (segments : list (TriangleSegment2 S)) (d cutoff : S) :
  (forall out, inset segments d cutoff = Returns out ->
     exists bis,
       createBisectors segments cutoff [] = Returns bis /\
       out = elongateAndTrimSegments
               (insetSegments (removeCollapsedSegments segments bis d) d)
               (d * s_of_Z 100)) /\
  (forall (l shorts : list (TriangleSegment2 S)) (cutoffLength : S),
     removeShortSegments l cutoffLength shorts
     = if sc0 <? cutoffLength
       then Returns (shorts ++ absorbShort (l !!! 0%nat)
                                 (cutoffLength * cutoffLength) l)
       else AssertFailed).
Proof.
  split.
  - intros out Hout. pose proof (inset_returns_size _ _ _ _ Hout) as Hn.
    rewrite inset_unfold in Hout by done.
    destruct (createBisectors segments cutoff []) as [bis| |]; try done.
    simpl in Hout. injection Hout as <-. by exists bis.
  - intros l shorts cutoffLength. unfold removeShortSegments.
    destruct (sc0 <? cutoffLength); [|done].
    rewrite removeShortSegments_loop_spec by lia. by rewrite drop_0.
Qed.
End ShortSegmentFacts.

(** ** Containment *)

Section ContainmentFacts.
Context {Point T : Type} (windingContains : @Loop Point -> Point -> bool).

Abbreviation Tree := (@ContainmentTree Point T).

(** C9.  A root contains every normal tree and no root; a normal tree
    contains no root; a normal tree contains another normal tree exactly when
    the winding test of its loop holds at a point of the other's loop, and at
    any point of it when the test does not tell the points of that loop
    apart (the loops are disjoint). *)
Theorem contains_cases (self other : Tree) :
  (isValid self = false -> isValid other = true ->
     contains windingContains self other = true) /\
  (isValid self = false -> isValid other = false ->
     contains windingContains self other = false) /\
  (isValid self = true -> isValid other = false ->
     contains windingContains self other = false) /\
  (isValid self = true -> isValid other = true ->
     (exists p, In p (m_loop other) /\
        contains windingContains self other = windingContains (m_loop self) p) /\
     ((forall p q, In p (m_loop other) -> In q (m_loop other) ->
          windingContains (m_loop self) p = windingContains (m_loop self) q) ->
      forall p, In p (m_loop other) ->
        contains windingContains self other = windingContains (m_loop self) p)).
Proof.
  unfold isValid, contains.
  destruct (m_loop self) as [|p0 l], (m_loop other) as [|q0 l'];
    repeat split; try done.
  - exists q0. split; [by left|done].
  - intros Hsame p Hp. apply Hsame; [by left|done].
Qed.
End ContainmentFacts.

(** ** Exact geometry of the bisectors *)

Section BisectorFacts.
Context {G : Geometry R}.
Local Open Scope R_scope.

Lemma sum_sqr_pos (u v : R) : Vec2 u v <> Vec2 0 0 -> 0 < u * u + v * v.
Proof.
  intros Hne.
  destruct (Req_dec u 0) as [->|Hu].
  - destruct (Req_dec v 0) as [->|Hv]; [done|]. nra.
  - nra.
Qed.

Lemma magnitude_normalise_R (v : Vector2 R) :
  v <> Vec2 0 0 -> magnitude (normalise v) = 1.
Proof.
  destruct v as [u w]. intros Hne.
  pose proof (sum_sqr_pos u w Hne) as Hpos.
  unfold magnitude, normalise, vscale, magnitude, sc1. simpl.
  set (m := R_sqrt.sqrt (u * u + w * w)).
  assert (Hm : 0 < m) by (by apply sqrt_lt_R0).
  assert (Hmm : m * m = u * u + w * w) by (apply sqrt_sqrt; lra).
  replace (u * (1 / m) * (u * (1 / m)) + w * (1 / m) * (w * (1 / m)))
    with ((u * u + w * w) / (m * m)) by (field; lra).
  rewrite <- Hmm.
  replace (m * m / (m * m)) with 1 by (field; lra).
  apply sqrt_1.
Qed.

End BisectorFacts.

(** ** The pipeline run in double precision *)

(** C2, as the code has it.  The square listed counter-clockwise, as in
    scenario S1, comes out moved outwards by 1: the inset direction is to the
    right of the direction of travel.  The same square listed clockwise comes
    out as the loop (1,1), (1,9), (9,9), (9,1).  Both results are exact. *)
Theorem square_inset_offsets_right :
  inset square_ccw 1%float 0.01%float
  = Returns (loop_of [pt (-1) (-1); pt 11 (-1); pt 11 11; pt (-1) 11]) /\
  inset square_cw 1%float 0.01%float
  = Returns (loop_of [pt 1 1; pt 1 9; pt 9 9; pt 9 1]).
Proof. split; vm_compute; reflexivity. Qed.

(** C2 fails as stated: the output for the square of scenario S1 is not
    within 10^-6 of the loop (1,1), (9,1), (9,9), (1,9). *)
Lemma square_inset_not_inward :
  ~ (exists out,
       inset square_ccw 1%float 0.01%float = Returns out /\
       near_loop 1e-6%float out (loop_of [pt 1 1; pt 9 1; pt 9 9; pt 1 9]) = true).
Proof.
  intros (out & Hout & Hnear). vm_compute in Hout. injection Hout as <-.
  vm_compute in Hnear. discriminate Hnear.
Qed.

(** C1 fails as stated: insetting the equilateral triangle of side 2 by 2
    throws nothing, in either orientation. *)
Lemma triangle_inset_returns :
  ~ (exists e, inset triangle_ccw 2%float 0.01%float = Throws e) /\
  ~ (exists e, inset triangle_cw 2%float 0.01%float = Throws e).
Proof.
  split; intros (e & He); vm_compute in He; discriminate He.
Qed.

Example triangle_inset_sizes :
  (exists out, inset triangle_ccw 2%float 0.01%float = Returns out /\ length out = 2%nat) /\
  (exists out, inset triangle_cw 2%float 0.01%float = Returns out /\ length out = 3%nat).
Proof. split; eexists; (split; [vm_compute; reflexivity|reflexivity]). Qed.

Lemma inset_returns_after_collapse_witness :
  (exists out, inset triangle_ccw 2%float 0.01%float = Returns out /\
     length out
     = length (removeCollapsedSegments triangle_ccw (bisectors_of triangle_ccw) 2%float)) /\
  (removeCollapsedSegments triangle_ccw (bisectors_of triangle_ccw) 2%float = [] ->
     inset triangle_ccw 2%float 0.01%float = Returns []) /\
  (forall segments' d' cutoff' e,
     inset segments' d' cutoff' = Throws e ->
     e = NotEnoughSegments (length segments') \/ e = NotClosedPolygon).
Proof.
  apply (inset_returns_after_collapse triangle_ccw 2%float 0.01%float
           (bisectors_of triangle_ccw)).
  - vm_compute. lia.
  - vm_compute. reflexivity.
Defined.

(** C3 on the unit square listed clockwise, inset by 1.  On each side's own
    two bisectors the collapse test succeeds (they meet at the centre, at
    altitude 0.5); the code runs the test on the bisector of the vertex
    before the side's start instead, finds no intersection, and keeps all four
    sides. *)
Lemma unit_square_collapse_missed :
  createBisectors unit_square_cw 0.01%float [] = Returns (bisectors_of unit_square_cw) /\
  map (collapse_spec unit_square_cw (bisectors_of unit_square_cw) 1%float) (seq 0 4)
  = [true; true; true; true] /\
  map (own_bisector_test unit_square_cw (bisectors_of unit_square_cw) 1%float) (seq 0 4)
  = [true; true; true; true] /\
  near 1e-9%float 0.5%float
    (default 0%float
       (snd (edgeCollapse (unit_square_cw !!! 0%nat)
               (bisectors_of unit_square_cw !!! 0%nat)
               (bisectors_of unit_square_cw !!! 1%nat) 1%float 100%float))) = true /\
  map (collapse_test unit_square_cw (bisectors_of unit_square_cw) 1%float) (seq 0 4)
  = [false; false; false; false] /\
  removeCollapsedSegments unit_square_cw (bisectors_of unit_square_cw) 1%float
  = unit_square_cw.
Proof. repeat split; vm_compute; reflexivity. Qed.

(** The triangle of scenario S2, clockwise, inset by 2.  The bisector rays
    of each side meet at the incentre, at altitude 1/sqrt 3 < 2, so every side
    collapses as the spec words the test.  The code keeps all three sides: it
    tests the wrong start bisector, and even on a side's own bisectors
    [attachSegments] elongates the one at the end backwards, so that an
    intersection more than one unit ahead of the end is not found. *)
Example triangle_collapse_missed :
  map (collapse_spec triangle_cw (bisectors_of triangle_cw) 2%float) (seq 0 3)
  = [true; true; true] /\
  map (own_bisector_test triangle_cw (bisectors_of triangle_cw) 2%float) (seq 0 3)
  = [false; false; false] /\
  map (collapse_test triangle_cw (bisectors_of triangle_cw) 2%float) (seq 0 3)
  = [false; false; false] /\
  removeCollapsedSegments triangle_cw (bisectors_of triangle_cw) 2%float
  = triangle_cw.
Proof. repeat split; vm_compute; reflexivity. Qed.

(** C4 fails as stated.  The 16 by 0.5 rectangle inset by 0.125 with cutoff
    1 comes out with its two short sides, of length 0.25, which the pass
    would have merged away; and on the sliver the routine
    [removeShortSegments] lets the long first side swallow the short second
    one, where the spec's pass merges the short side into the third. *)
Lemma short_segments_survive :
  inset flat_rectangle 0.125%float 1%float
  <> inset_with_short_removal flat_rectangle 0.125%float 1%float /\
  removeShortSegments sliver 1%float []
  <> Returns (mergeShort_spec (sliver !!! 0%nat) 1%float sliver).
Proof.
  split; intros Heq; vm_compute in Heq; discriminate Heq.
Qed.

Example flat_rectangle_inset :
  exists out,
    inset flat_rectangle 0.125%float 1%float = Returns out /\
    near_loop 1e-9%float out
      (loop_of [pt 0.125 0.125; pt 0.125 0.375; pt 15.875 0.375; pt 15.875 0.125])
    = true /\
    inset_with_short_removal flat_rectangle 0.125%float 1%float
    = Returns (mergeShort_spec (out !!! 0%nat) 1%float out) /\
    length (mergeShort_spec (out !!! 0%nat) 1%float out) = 2%nat.
Proof.
  eexists. split; [vm_compute; reflexivity|].
  repeat split; vm_compute; reflexivity.
Qed.

Example sliver_removeShortSegments :
  removeShortSegments sliver 1%float []
  = Returns [Seg (pt 0 0) (pt 0.5 10); Seg (pt 0.5 10) (pt 0 0)] /\
  mergeShort_spec (sliver !!! 0%nat) 1%float sliver
  = [Seg (pt 0 0) (pt 0 10); Seg (pt 0 10) (pt 0 0)].
Proof. split; vm_compute; reflexivity. Qed.

(** C8 fails as stated.  A segment followed by its reverse passes the
    adjacency test and is accepted by [Shrinky::inset]; the inset directions
    at each vertex cancel, the sum is normalised all the same, and the
    bisectors are not within 10^-9 of unit length (in double precision they
    are not numbers). *)
Lemma reversal_bisector_not_unit :
  ~ (forall bis,
       createBisectors there_and_back 0.01%float [] = Returns bis ->
       forall v, In v bis -> near 1e-9%float (magnitude v) 1%float = true).
Proof.
  intros Hall.
  specialize (Hall (bisectors_of there_and_back)).
  assert (Hbis : createBisectors there_and_back 0.01%float []
                 = Returns (bisectors_of there_and_back))
    by (vm_compute; reflexivity).
  specialize (Hall Hbis (bisectors_of there_and_back !!! 0%nat)).
  assert (Hin : In (bisectors_of there_and_back !!! 0%nat)
                   (bisectors_of there_and_back)) by (by left).
  specialize (Hall Hin). vm_compute in Hall. discriminate Hall.
Qed.

Example reversal_is_accepted :
  exists out, inset there_and_back 1%float 0.01%float = Returns out.
Proof. eexists. vm_compute. reflexivity. Qed.

(** The same on a right triangle with legs of length 2^-600: its sides have
    distinct endpoints and no two consecutive inset directions cancel, but
    the squares of the coordinates underflow to 0. *)
Example tiny_triangle_bisectors_not_unit :
  createBisectors tiny_triangle 0.01%float [] = Returns (bisectors_of tiny_triangle) /\
  forallb (fun v => near 1e-9%float (magnitude v) 1%float)
    (bisectors_of tiny_triangle) = false /\
  exists out, inset tiny_triangle 1%float 0.01%float = Returns out.
Proof.
  split; [vm_compute; reflexivity|]. split; [vm_compute; reflexivity|].
  eexists. vm_compute. reflexivity.
Qed.

Lemma inset_open_polygon_iff_witness :
  inset open_square 1%float 0.01%float = Throws NotClosedPolygon.
Proof.
  apply (proj2 (inset_open_polygon_iff open_square 1%float 0.01%float)).
  split; [vm_compute; lia|].
  exists 0%nat. split; [vm_compute; lia|vm_compute; reflexivity].
Defined.

(** C5 fails as stated.  On a single segment whose end is not its start
    the adjacency test fails at the only vertex, yet the call throws the
    exception for too few segments, not "This is not a closed polygon". *)
Lemma one_open_segment_too_few :
  inset one_open_segment 1%float 0.01%float = Throws (NotEnoughSegments 1) /\
  (exists i, (i < length one_open_segment)%nat /\
     sameSame (b (one_open_segment !!! prevIndex (length one_open_segment) i))
              (a (one_open_segment !!! i)) 0.01%float = false) /\
  ~ (inset one_open_segment 1%float 0.01%float = Throws NotClosedPolygon <->
     exists i, (i < length one_open_segment)%nat /\
       sameSame (b (one_open_segment !!! prevIndex (length one_open_segment) i))
                (a (one_open_segment !!! i)) 0.01%float = false).
Proof.
  assert (Hopen : exists i, (i < length one_open_segment)%nat /\
     sameSame (b (one_open_segment !!! prevIndex (length one_open_segment) i))
              (a (one_open_segment !!! i)) 0.01%float = false).
  { exists 0%nat. split; [vm_compute; lia|vm_compute; reflexivity]. }
  split; [vm_compute; reflexivity|]. split; [exact Hopen|].
  intros [_ Hthrow]. specialize (Hthrow Hopen).
  vm_compute in Hthrow. discriminate Hthrow.
Qed.

Example open_square_throws :
  inset open_square 1%float 0.01%float = Throws NotClosedPolygon.
Proof. vm_compute. reflexivity. Qed.

Lemma raw_inset_translates_witness :
  exists L,
    inset_locals square_cw 1%float 0.01%float = Returns L /\
    insets L
    = map (fun s => Seg (vadd (a s) (vscale (inset_direction s) 1%float))
                        (vadd (b s) (vscale (inset_direction s) 1%float)))
          (relevant L).
Proof.
  eexists. split; [vm_compute; reflexivity|].
  apply (raw_inset_translates square_cw 1%float 0.01%float).
  vm_compute. reflexivity.
Defined.

Lemma inset_one_output_per_survivor_witness :
  exists out,
    inset square_cw 1%float 0.01%float = Returns out /\
    exists bis,
      createBisectors square_cw 0.01%float [] = Returns bis /\
      let rel := removeCollapsedSegments square_cw bis 1%float in
      out = elongateAndTrimSegments (insetSegments rel 1%float)
              (s_mul 1%float (s_of_Z 100)) /\
      length (insetSegments rel 1%float) = length rel /\
      length out = length (insetSegments rel 1%float) /\
      length out = length rel /\
      (length out <= length square_cw)%nat /\
      ((forall i, (i < length square_cw)%nat ->
                  collapse_test square_cw bis 1%float i = false) ->
       length out = length square_cw).
Proof.
  eexists. split; [vm_compute; reflexivity|].
  apply (inset_one_output_per_survivor square_cw 1%float 0.01%float).
  vm_compute. reflexivity.
Defined.

(** The first turn of the trimming on the raw insets of the chevron: at the
    convex vertex (-1,-1) the elongated last and first raw insets do not
    intersect, and the output keeps their two endpoints. *)
Lemma trim_failure_is_soft_witness :
  segmentSegmentIntersection
    (elongate (chevron_raw !!! prevIndex (length chevron_raw) 0) 50%float false true)
    (elongate (chevron_raw !!! 0%nat) 50%float true false) = None /\
  a (elongateAndTrimSegments chevron_raw 50%float !!! 0%nat)
  = a (chevron_raw !!! 0%nat) /\
  b (elongateAndTrimSegments chevron_raw 50%float !!! prevIndex (length chevron_raw) 0)
  = b (chevron_raw !!! prevIndex (length chevron_raw) 0).
Proof.
  split; [vm_compute; reflexivity|].
  apply (proj1 (proj2 (proj2 (trim_failure_is_soft chevron 0.5%float 0.01%float)))).
  - vm_compute. lia.
  - vm_compute. reflexivity.
Defined.

(** C7 fails as stated.  On the chevron with an inset distance of 0.5 no
    segment collapses, the vertex (-1,1) between segments 1 and 2 is convex
    and the elongations of the raw insets 1 and 2 do not intersect: their
    lines cross behind the start of raw inset 1.  But the turn before has
    moved that start back, to where raw inset 1 meets raw inset 0, so at its
    turn the test succeeds and both segments are trimmed to the crossing
    point, more than 0.1 away from the raw endpoints.  And a one-segment
    input makes the call throw an exception that is not the one for an open
    polygon. *)
Lemma chevron_trimmed_after_raw_miss :
  inset chevron 0.5%float 0.01%float = Returns chevron_out /\
  (exists L, inset_locals chevron 0.5%float 0.01%float = Returns L /\
     relevant L = chevron /\ insets L = chevron_raw /\
     finalInsets L = chevron_out) /\
  convexVertex (a (chevron !!! 1%nat)) (a (chevron !!! 2%nat))
    (b (chevron !!! 2%nat)) = true /\
  segmentSegmentIntersection
    (elongate (chevron_raw !!! 1%nat) 50%float false true)
    (elongate (chevron_raw !!! 2%nat) 50%float true false) = None /\
  b (chevron_out !!! 1%nat) = a (chevron_out !!! 2%nat) /\
  near_point 0.1%float (a (chevron_out !!! 2%nat)) (a (chevron_raw !!! 2%nat))
  = false /\
  near_point 0.1%float (b (chevron_out !!! 1%nat)) (b (chevron_raw !!! 1%nat))
  = false /\
  a (chevron_out !!! 2%nat) <> a (chevron_raw !!! 2%nat) /\
  b (chevron_out !!! 1%nat) <> b (chevron_raw !!! 1%nat) /\
  inset one_open_segment 0.5%float 0.01%float = Throws (NotEnoughSegments 1).
Proof.
  assert (Ha : near_point 0.1%float (a (chevron_out !!! 2%nat))
                 (a (chevron_raw !!! 2%nat)) = false) by (vm_compute; reflexivity).
  assert (Hb : near_point 0.1%float (b (chevron_out !!! 1%nat))
                 (b (chevron_raw !!! 1%nat)) = false) by (vm_compute; reflexivity).
  split; [vm_compute; reflexivity|].
  split; [eexists; split; [vm_compute; reflexivity|
            split; [vm_compute; reflexivity|split; vm_compute; reflexivity]]|].
  split; [vm_compute; reflexivity|].
  split; [vm_compute; reflexivity|].
  split; [vm_compute; reflexivity|].
  split; [exact Ha|]. split; [exact Hb|].
  split; [|split].
  - intros Heq. rewrite Heq in Ha. vm_compute in Ha. discriminate Ha.
  - intros Heq. rewrite Heq in Hb. vm_compute in Hb. discriminate Hb.
  - vm_compute. reflexivity.
Qed.

(** The turns of the trimming on the raw insets of the chevron: the first
    fails, the next three succeed, and the second is the one that moves the
    start of raw inset 1. *)
Example chevron_turns :
  map (fun i =>
         fst (attachSegments
                (fold_left (elongateAndTrim_body 50%float) (seq 0 i) chevron_raw)
                (prevIndex (length chevron_raw) i) i 50%float))
      (seq 0 (length chevron_raw))
  = [false; true; true; true] /\
  near_point 1e-9%float
    (a (fold_left (elongateAndTrim_body 50%float) (seq 0 2) chevron_raw !!! 1%nat))
    (pt 0.7071067811865508 0) = true /\
  near_point 1e-9%float (a (chevron_out !!! 2%nat))
    (pt 0.5212609156822889 0.18584586550426435) = true.
Proof. repeat split; vm_compute; reflexivity. Qed.

(** A trim that fails in double precision: two raw insets that are parallel
    cannot be attached, and the trimming returns them as they are. *)
Example parallel_insets_stay_untrimmed :
  let raw := [Seg (pt 0 0) (pt 1 0); Seg (pt 1 1) (pt 0 1)] in
  elongateAndTrimSegments raw 100%float = raw.
Proof. vm_compute. reflexivity. Qed.

(** ** The unit square in exact arithmetic *)

Section UnitSquareR.
Local Open Scope R_scope.

Let G : Geometry R := Geometry_model.
Existing Instance G.

Ltac unfold_R :=
  cbv beta iota zeta delta
    [s_add s_sub s_mul s_div s_sqrt s_of_Z s_ltb s_leb R_ops sc0 sc1
     vadd vsub vscale magnitude3 normalise3 crossProduct getInsetDirection
     sameSame G Geometry_model sameSame_model
     x y a b x3 y3 z3].

Lemma sameSame_R_refl (p : Vector2 R) (tol : R) :
  0 < tol -> sameSame p p tol = true.
Proof.
  intros Htol. unfold_R.
  destruct (Rlt_dec _ _) as [_|Hn]; [done|]. exfalso. apply Hn. nra.
Qed.

Lemma unit_square_R_segments :
  unit_square_R
  = [Seg (Vec2 0 0) (Vec2 0 1); Seg (Vec2 0 1) (Vec2 1 1);
     Seg (Vec2 1 1) (Vec2 1 0); Seg (Vec2 1 0) (Vec2 0 0)].
Proof. reflexivity. Qed.

Lemma unit_square_R_adjacent :
  forallb (adjacent unit_square_R (1 / 100)) (seq 0 (length unit_square_R)) = true.
Proof.
  apply forallb_forall. intros i Hi. apply in_seq in Hi.
  rewrite unit_square_R_segments in *. unfold adjacent.
  destruct i as [|[|[|[|i]]]]; simpl in Hi; try lia;
    apply sameSame_R_refl; lra.
Qed.

Lemma unit_square_R_bisectors :
  createBisectors unit_square_R (1 / 100) [] = Returns (bisectors_of unit_square_R).
Proof.
  rewrite createBisectors_spec, unit_square_R_adjacent. reflexivity.
Qed.

Lemma unit_square_R_sides i :
  (i < length unit_square_R)%nat ->
  a (unit_square_R !!! i) <> b (unit_square_R !!! i).
Proof.
  rewrite unit_square_R_segments. intros Hi.
  destruct i as [|[|[|[|i]]]]; simpl in Hi; try lia;
    intros [= Hx]; lra.
Qed.

(** The inset direction of a segment of length 1 along an axis. *)
Lemma getInsetDirection_R (p q : Vector2 R) :
  (x q - x p) * (x q - x p) + (y q - y p) * (y q - y p) = 1 ->
  getInsetDirection (Seg p q) = Vec2 (y q - y p) (- (x q - x p)).
Proof.
  destruct p as [px py], q as [qx qy]. cbn [x y]. intros Hlen. unfold_R.
  match goal with
  | |- context [R_sqrt.sqrt ?t] =>
      replace t with 1 by (symmetry; etrans; [|exact Hlen]; ring)
  end.
  rewrite sqrt_1. f_equal; field.
Qed.

Lemma unit_square_R_turns i :
  (i < length unit_square_R)%nat ->
  vadd (getInsetDirection (unit_square_R !!! i))
       (getInsetDirection (unit_square_R !!! prevIndex (length unit_square_R) i))
  <> Vec2 0 0.
Proof.
  rewrite unit_square_R_segments. intros Hi.
  destruct i as [|[|[|[|i]]]]; simpl in Hi; try lia;
    match goal with
    | |- vadd (getInsetDirection (_ !!! ?i)) (getInsetDirection (_ !!! ?j)) <> _ =>
        let j' := eval vm_compute in j in change j with j'
    end;
    cbn [lookup_total list_lookup_total];
    rewrite !getInsetDirection_R by (cbn [x y]; ring);
    unfold_R; intros [= Hx Hy]; lra.
Qed.
End UnitSquareR.



(** * Further properties of the inset engine *)

Section PipelineExtras.
Context {S : Type} `{ScalarOps S} `{Geometry S}.
Local Open Scope scalar_scope.

(** X1.  How a call of [Shrinky::inset] ends is decided by the number of
    input segments and by the adjacency test alone: the assert stops it
    exactly on the empty input, the exception for too few segments is thrown
    exactly on an input of one segment, "This is not a closed polygon" exactly
    when there are at least two segments and the test fails at some vertex,
    and it returns exactly when there are at least two segments and the test
    passes at every vertex; the inset distance plays no part. *)
Theorem inset_outcome (segments : list (TriangleSegment2 S)) (d cutoff : S) :
  (inset segments d cutoff = AssertFailed <-> segments = []) /\
  (forall n, inset segments d cutoff = Throws (NotEnoughSegments n) <->
             length segments = 1%nat /\ n = 1%nat) /\
  (inset segments d cutoff = Throws NotClosedPolygon <->
   (2 <= length segments)%nat /\
   exists i, (i < length segments)%nat /\
     sameSame (b (segments !!! prevIndex (length segments) i))
              (a (segments !!! i)) cutoff = false) /\
  ((exists out, inset segments d cutoff = Returns out) <->
   (2 <= length segments)%nat /\
   forall i, (i < length segments)%nat ->
     sameSame (b (segments !!! prevIndex (length segments) i))
              (a (segments !!! i)) cutoff = true).
Proof.
  destruct (decide (2 <= length segments)%nat) as [Hn|Hn].
  - assert (Hne : segments <> []) by (intros ->; simpl in Hn; lia).
    rewrite inset_unfold by done. rewrite createBisectors_spec.
    destruct (forallb _ _) eqn:Hall; simpl.
    + rewrite forallb_forall in Hall.
      assert (Hadj : forall i, (i < length segments)%nat ->
                adjacent segments cutoff i = true).
      { intros i Hi. apply Hall. apply in_seq. lia. }
      split; [|split; [|split]].
      * split; [done|]. intros ?. done.
      * intros n. split; [done|]. intros [? _]. lia.
      * split; [done|]. intros (_ & i & Hi & Hopen). specialize (Hadj i Hi).
        unfold adjacent in Hadj. congruence.
      * split; [|eauto]. intros _. split; [done|exact Hadj].
    + destruct (forallb_false_witness _ _ Hall) as (i & Hi & Hopen).
      apply in_seq in Hi.
      split; [|split; [|split]].
      * split; [done|]. intros ?. done.
      * intros n. split; [done|]. intros [? _]. lia.
      * split; [|done]. intros _. split; [done|].
        exists i. split; [lia|exact Hopen].
      * split; [by intros []|]. intros [_ Hadj].
        specialize (Hadj i ltac:(lia)). unfold adjacent in Hopen. congruence.
  - unfold inset, inset_locals.
    destruct segments as [|s [|s' rest]]; simpl in *; try lia.
    + split; [|split; [|split]].
      * done.
      * intros n. split; [done|]. intros [? _]. done.
      * split; [done|]. intros [? _]. lia.
      * split; [by intros []|]. intros [? _]. lia.
    + split; [|split; [|split]].
      * done.
      * intros n. split; [by intros [= <-]|]. by intros [_ ->].
      * split; [done|]. intros [? _]. lia.
      * split; [by intros []|]. intros [? _]. lia.
Qed.

Lemma removeCollapsed_fold_sublist (segments : list (TriangleSegment2 S))
    (bis : list (Vector2 S)) (d e : S) m k st :
  (k + m = length segments)%nat ->
  ((k < length segments)%nat -> currId st = k) ->
  sublist (relevantSegments st) (take k segments) ->
  sublist (relevantSegments
             (fold_left (removeCollapsed_body segments bis d e) (seq k m) st))
          segments.
Proof.
  revert k st. induction m as [|m IH]; intros k st Hk Hcur Hsub; simpl.
  - by rewrite take_ge in Hsub by lia.
  - assert (Hlt : (k < length segments)%nat) by lia.
    destruct (lookup_lt_is_Some_2 segments k Hlt) as [v Hv].
    apply IH; [lia| |].
    + intros Hlt'. unfold removeCollapsed_body. simpl. rewrite (Hcur Hlt).
      unfold nextIndex. case_decide; lia.
    + unfold removeCollapsed_body. simpl. rewrite (Hcur Hlt).
      rewrite (list_lookup_total_correct _ _ _ Hv), (take_S_r _ _ _ Hv).
      destruct (fst _).
      * by apply sublist_inserts_r.
      * by apply sublist_app.
Qed.

(** X2.  Collapse removal only drops segments: what it returns is the
    input with some segments left out, the others unchanged and in their
    order. *)
Theorem removeCollapsedSegments_sublist (segments : list (TriangleSegment2 S))
    (bis : list (Vector2 S)) (d : S) :
  sublist (removeCollapsedSegments segments bis d) segments.
Proof.
  unfold removeCollapsedSegments.
  apply removeCollapsed_fold_sublist; [lia|done|].
  simpl. rewrite take_0. constructor.
Qed.

Lemma removeCollapsed_fold_indices (segments : list (TriangleSegment2 S))
    (bis : list (Vector2 S)) (d e : S) m k st :
  (k + m = length segments)%nat ->
  (length (relevantSegments st) <= k)%nat ->
  ((k < length segments)%nat ->
     prevBisector st = prevIndex (length segments) (length (relevantSegments st)) /\
     currId st = k /\
     nextBisector st = nextIndex (length segments) k) ->
  relevantSegments
    (fold_left (removeCollapsed_body segments bis d e) (seq k m) st)
  = fold_left
      (fun rel i =>
         if fst (edgeCollapse (segments !!! i)
                   (bis !!! prevIndex (length segments) (length rel))
                   (bis !!! nextIndex (length segments) i) d e)
         then rel else rel ++ [segments !!! i])
      (seq k m) (relevantSegments st).
Proof.
  revert k st. induction m as [|m IH]; intros k st Hk Hrel Hidx; simpl; [done|].
  assert (Hlt : (k < length segments)%nat) by lia.
  destruct (Hidx Hlt) as (Hp & Hc & Hx).
  rewrite IH; [| lia | |].
  - f_equal. unfold removeCollapsed_body. simpl. by rewrite Hp, Hc, Hx.
  - unfold removeCollapsed_body. simpl.
    destruct (fst _); simpl; rewrite ?length_app; simpl; lia.
  - intros Hlt'. unfold removeCollapsed_body. simpl. rewrite Hp, Hc, Hx.
    destruct (fst _); simpl; rewrite ?length_app; simpl;
      unfold nextIndex, prevIndex; repeat case_decide; repeat split; lia.
Qed.

(** X3.  Which bisectors the collapse test of a segment is run on.  On an
    input of at least two segments, segment [i] is tested on the bisector
    stored after its own, [bisectors[i+1]] cyclically, and on the bisector
    whose index is one less than the number of segments kept so far (the last
    bisector while none is kept); a segment is kept exactly when its test
    fails. *)
Theorem removeCollapsedSegments_indices (segments : list (TriangleSegment2 S))
    (bis : list (Vector2 S)) (d : S) :
  (2 <= length segments)%nat ->
  removeCollapsedSegments segments bis d
  = fold_left
      (fun rel i =>
         if fst (edgeCollapse (segments !!! i)
                   (bis !!! prevIndex (length segments) (length rel))
                   (bis !!! nextIndex (length segments) i) d (s_of_Z 100))
         then rel else rel ++ [segments !!! i])
      (seq 0 (length segments)) [].
Proof.
  intros Hn. unfold removeCollapsedSegments.
  rewrite removeCollapsed_fold_indices; [done|lia|simpl; lia|].
  intros _. simpl. unfold prevIndex, nextIndex.
  repeat case_decide; repeat split; lia.
Qed.
End PipelineExtras.

(** ** Loops, index by index *)

Section ClosedLoops.
Context {S : Type} `{ScalarOps S}.

Lemma chained_lookup (l : list (TriangleSegment2 S)) :
  chained l <->
  forall i, (Datatypes.S i < length l)%nat -> b (l !!! i) = a (l !!! Datatypes.S i).
Proof.
  induction l as [|s [|t l] IH].
  - simpl. split; [intros _ i Hi; lia|done].
  - simpl. split; [intros _ i Hi; lia|done].
  - change (chained (s :: t :: l)) with (b s = a t /\ chained (t :: l)).
    rewrite IH. split.
    + intros [Hst Hrest] [|i] Hi; [done|]. apply Hrest. simpl in *. lia.
    + intros Hall. split.
      * apply (Hall 0%nat). simpl. lia.
      * intros i Hi. apply (Hall (Datatypes.S i)). simpl in *. lia.
Qed.

Lemma closed_loop_lookup (l : list (TriangleSegment2 S)) :
  closed_loop l <->
  forall i, (i < length l)%nat ->
    b (l !!! prevIndex (length l) i) = a (l !!! i).
Proof.
  unfold closed_loop. rewrite chained_lookup. split.
  - intros [Hch Hends] i Hi. unfold prevIndex. case_decide as Hi0.
    + subst i. destruct (lookup_lt_is_Some_2 l 0 Hi) as [s Hs].
      assert (Hlast : (length l - 1 < length l)%nat) by lia.
      destruct (lookup_lt_is_Some_2 l _ Hlast) as [t Ht].
      rewrite (list_lookup_total_correct _ _ _ Hs),
        (list_lookup_total_correct _ _ _ Ht).
      apply Hends.
      * by rewrite head_lookup.
      * rewrite last_lookup. by replace (pred (length l)) with (length l - 1)%nat by lia.
    + replace i with (Datatypes.S (i - 1)) at 2 by lia. apply Hch. lia.
  - intros Hall. split.
    + intros i Hi. specialize (Hall (Datatypes.S i) Hi).
      unfold prevIndex in Hall. case_decide; [lia|].
      by replace (Datatypes.S i - 1)%nat with i in Hall by lia.
    + intros s t Hs Ht. rewrite head_lookup in Hs. rewrite last_lookup in Ht.
      assert (Hi : (0 < length l)%nat) by (by apply lookup_lt_Some in Hs).
      specialize (Hall 0%nat Hi). unfold prevIndex in Hall.
      case_decide; [|lia].
      replace (pred (length l)) with (length l - 1)%nat in Ht by lia.
      by rewrite (list_lookup_total_correct _ _ _ Hs),
        (list_lookup_total_correct _ _ _ Ht) in Hall.
Qed.

(** The two writes of a successful trim at vertex [i]. *)
Lemma join_a (p : Vector2 S) (l : list (TriangleSegment2 S)) i k :
  (i < length l)%nat ->
  a (alter (set_a p) i (alter (set_b p) k l) !!! i) = p.
Proof.
  intros Hi. rewrite list_lookup_total_alter_eq by (by rewrite length_alter).
  done.
Qed.

Lemma join_b (p : Vector2 S) (l : list (TriangleSegment2 S)) i k :
  (k < length l)%nat ->
  b (alter (set_a p) i (alter (set_b p) k l) !!! k) = p.
Proof.
  intros Hk. rewrite (lookup_total_alter_keeps b) by done.
  by rewrite list_lookup_total_alter_eq.
Qed.
End ClosedLoops.

(** ** A loop of trims, whatever decides each trim *)

Section TrimLoops.
Context {S : Type} `{ScalarOps S}.
Variable body : list (TriangleSegment2 S) -> nat -> list (TriangleSegment2 S).
Hypothesis body_length : forall l i, length (body l i) = length l.
Hypothesis body_a : forall l i j, j <> i -> a (body l i !!! j) = a (l !!! j).
Hypothesis body_b : forall l i j,
  j <> prevIndex (length l) i -> b (body l i !!! j) = b (l !!! j).

Lemma loop_length idx l : length (fold_left body idx l) = length l.
Proof using body_length.
  revert l. induction idx as [|i idx IH]; intros l; simpl; [done|].
  by rewrite IH.
Qed.

Lemma loop_a idx l j :
  ~ In j idx -> a (fold_left body idx l !!! j) = a (l !!! j).
Proof using body_a.
  revert l. induction idx as [|i idx IH]; intros l Hj; simpl; [done|].
  rewrite IH by (intros ?; apply Hj; by right).
  apply body_a. intros ->. apply Hj. by left.
Qed.

Lemma loop_b idx l j :
  (forall i, In i idx -> j <> prevIndex (length l) i) ->
  b (fold_left body idx l !!! j) = b (l !!! j).
Proof using body_length body_b.
  revert l. induction idx as [|i idx IH]; intros l Hj; simpl; [done|].
  rewrite IH.
  - apply body_b. apply Hj. by left.
  - intros k Hk. rewrite body_length. apply Hj. by right.
Qed.

(** The endpoints that meet at vertex [i] are, after the whole loop, what
    turn [i] left there. *)
Lemma loop_vertex raw i :
  (i < length raw)%nat ->
  let st := fold_left body (seq 0 i) raw in
  let out := fold_left body (seq 0 (length raw)) raw in
  a (out !!! i) = a (body st i !!! i) /\
  b (out !!! prevIndex (length raw) i) = b (body st i !!! prevIndex (length raw) i) /\
  a (st !!! i) = a (raw !!! i) /\
  b (st !!! prevIndex (length raw) i) = b (raw !!! prevIndex (length raw) i) /\
  length st = length raw.
Proof using All.
  intros Hi st out.
  assert (Hlen : length st = length raw) by apply loop_length.
  assert (Hout : out = fold_left body
                         (seq (Datatypes.S i) (length raw - Datatypes.S i)) (body st i)).
  { unfold out, st.
    replace (length raw) with (i + Datatypes.S (length raw - Datatypes.S i))%nat at 1 by lia.
    rewrite seq_app, fold_left_app. reflexivity. }
  rewrite Hout. repeat split.
  - apply loop_a. rewrite in_seq. lia.
  - apply loop_b. intros k Hk Heq. apply in_seq in Hk.
    rewrite body_length, Hlen in Heq. apply prevIndex_inj in Heq; lia.
  - apply loop_a. rewrite in_seq. lia.
  - apply loop_b. intros k Hk Heq. apply in_seq in Hk.
    apply prevIndex_inj in Heq; lia.
  - done.
Qed.
End TrimLoops.

(** ** Trimming and bridging *)

Section TrimExtras.
Context {S : Type} `{ScalarOps S} `{Geometry S}.
Local Open Scope scalar_scope.

Lemma elongateAndTrim_vertex (e : S) (raw : list (TriangleSegment2 S)) (i : nat) :
  (i < length raw)%nat ->
  let st := fold_left (elongateAndTrim_body e) (seq 0 i) raw in
  let q := segmentSegmentIntersection
             (elongate (st !!! prevIndex (length raw) i) e false true)
             (elongate (st !!! i) e true false) in
  let out := elongateAndTrimSegments raw e in
  a (out !!! i) = default (a (raw !!! i)) q /\
  b (out !!! prevIndex (length raw) i)
  = default (b (raw !!! prevIndex (length raw) i)) q.
Proof.
  intros Hi st q out. unfold out. rewrite elongateAndTrimSegments_unfold.
  destruct (loop_vertex (elongateAndTrim_body e)
              (elongateAndTrim_body_length e) (body_keeps_a e) (body_keeps_b e)
              raw i Hi) as (Ha & Hb & Ha0 & Hb0 & Hlen).
  rewrite Ha, Hb. clear Ha Hb. fold st in Ha0, Hb0, Hlen |- *.
  assert (Hprev : (prevIndex (length raw) i < length st)%nat).
  { rewrite Hlen. unfold prevIndex. case_decide; lia. }
  unfold q, elongateAndTrim_body, attachSegments. rewrite Hlen.
  destruct (segmentSegmentIntersection _ _) as [p|]; simpl; [|done].
  split; [apply join_a; lia|by apply join_b].
Qed.

(** X4.  A trim that succeeds joins the two segments: when, at its turn,
    the elongated previous and current segments intersect at [p], the output
    of [elongateAndTrimSegments] has the previous segment end at [p] and the
    current one start at [p]; no later turn moves these two endpoints. *)
Theorem trim_success_joins (e : S) (raw : list (TriangleSegment2 S)) (i : nat)
    (p : Vector2 S) :
  (i < length raw)%nat ->
  (let st := fold_left (elongateAndTrim_body e) (seq 0 i) raw in
   segmentSegmentIntersection
     (elongate (st !!! prevIndex (length raw) i) e false true)
     (elongate (st !!! i) e true false) = Some p) ->
  a (elongateAndTrimSegments raw e !!! i) = p /\
  b (elongateAndTrimSegments raw e !!! prevIndex (length raw) i) = p.
Proof.
  intros Hi Hsome. cbv zeta in Hsome.
  destruct (elongateAndTrim_vertex e raw i Hi) as [Ha Hb].
  rewrite Ha, Hb, Hsome. done.
Qed.

(** X5.  When every trim succeeds the output of [elongateAndTrimSegments]
    is a closed loop: each segment ends exactly where the next one starts, the
    last where the first starts. *)
Theorem trim_all_success_closes (e : S) (raw : list (TriangleSegment2 S)) :
  (forall i, (i < length raw)%nat ->
     let st := fold_left (elongateAndTrim_body e) (seq 0 i) raw in
     segmentSegmentIntersection
       (elongate (st !!! prevIndex (length raw) i) e false true)
       (elongate (st !!! i) e true false) <> None) ->
  closed_loop (elongateAndTrimSegments raw e).
Proof.
  intros Hall. apply closed_loop_lookup.
  rewrite elongateAndTrimSegments_length. intros i Hi.
  specialize (Hall i Hi). cbv zeta in Hall.
  destruct (elongateAndTrim_vertex e raw i Hi) as [Ha Hb].
  rewrite Ha, Hb.
  by destruct (segmentSegmentIntersection _ _).
Qed.

(** X6.  The local vectors of a call of [Shrinky::inset] that returns:
    there is one bisector per input segment; the relevant segments are input
    segments, in their order; and the output is a closed loop as soon as every
    trim of the raw insets succeeds. *)
Theorem inset_locals_invariants (segments : list (TriangleSegment2 S))
    (d cutoff : S) (L : InsetLocals) :
  inset_locals segments d cutoff = Returns L ->
  length (bisectors L) = length segments /\
  sublist (relevant L) segments /\
  ((forall i, (i < length (insets L))%nat ->
      let st := fold_left (elongateAndTrim_body (d * s_of_Z 100)) (seq 0 i)
                  (insets L) in
      segmentSegmentIntersection
        (elongate (st !!! prevIndex (length (insets L)) i) (d * s_of_Z 100)
           false true)
        (elongate (st !!! i) (d * s_of_Z 100) true false) <> None) ->
   closed_loop (finalInsets L)).
Proof.
  intros HL. pose proof (inset_locals_returns_size _ _ _ _ HL) as Hn.
  rewrite inset_locals_unfold in HL by done.
  destruct (createBisectors segments cutoff []) as [bis| |] eqn:Hbis; try done.
  simpl in HL. injection HL as <-. simpl.
  split; [by apply (createBisectors_length segments cutoff)|]. split.
  - unfold removeCollapsedSegments.
    apply removeCollapsed_fold_sublist; [lia|done|].
    simpl. rewrite take_0. constructor.
  - set (raw := insetSegments (removeCollapsedSegments segments bis d) d).
    intros Hall. apply closed_loop_lookup.
    rewrite elongateAndTrimSegments_length. intros i Hi.
    specialize (Hall i Hi). cbv zeta in Hall.
    destruct (elongateAndTrim_vertex (d * s_of_Z 100) raw i Hi) as [Ha Hb].
    rewrite Ha, Hb.
    by destruct (segmentSegmentIntersection _ _).
Qed.

(** *** [trimConvexSegments] *)

Lemma trimConvex_body_length convex (l : list (TriangleSegment2 S)) i :
  length (trimConvex_body convex l i) = length l.
Proof.
  unfold trimConvex_body. destruct (convex !!! i : bool); [|done].
  destruct (segmentSegmentIntersection _ _); [|done].
  by rewrite !length_alter.
Qed.

Lemma trimConvex_body_a convex (l : list (TriangleSegment2 S)) i j :
  j <> i -> a (trimConvex_body convex l i !!! j) = a (l !!! j).
Proof.
  intros Hj. unfold trimConvex_body. destruct (convex !!! i : bool); [|done].
  destruct (segmentSegmentIntersection _ _); [|done].
  rewrite list_lookup_total_alter_ne by done.
  by apply lookup_total_alter_keeps.
Qed.

Lemma trimConvex_body_b convex (l : list (TriangleSegment2 S)) i j :
  j <> prevIndex (length l) i ->
  b (trimConvex_body convex l i !!! j) = b (l !!! j).
Proof.
  intros Hj. unfold trimConvex_body. destruct (convex !!! i : bool); [|done].
  destruct (segmentSegmentIntersection _ _); [|done].
  rewrite (lookup_total_alter_keeps b) by done.
  by rewrite list_lookup_total_alter_ne.
Qed.

Lemma trimConvex_vertex_gen (raw : list (TriangleSegment2 S)) (convex : list bool) i :
  (i < length raw)%nat ->
  let st := fold_left (trimConvex_body convex) (seq 0 i) raw in
  let q := if (convex !!! i : bool)
           then segmentSegmentIntersection
                  (st !!! prevIndex (length raw) i) (st !!! i)
           else None in
  let out := trimConvexSegments raw convex in
  a (out !!! i) = default (a (raw !!! i)) q /\
  b (out !!! prevIndex (length raw) i)
  = default (b (raw !!! prevIndex (length raw) i)) q.
Proof.
  intros Hi st q out. unfold out, trimConvexSegments.
  destruct (loop_vertex (trimConvex_body convex)
              (trimConvex_body_length convex) (trimConvex_body_a convex)
              (trimConvex_body_b convex) raw i Hi) as (Ha & Hb & Ha0 & Hb0 & Hlen).
  rewrite Ha, Hb. clear Ha Hb. fold st in Ha0, Hb0, Hlen |- *.
  assert (Hprev : (prevIndex (length raw) i < length st)%nat).
  { rewrite Hlen. unfold prevIndex. case_decide; lia. }
  unfold q, trimConvex_body. rewrite Hlen.
  destruct (convex !!! i : bool); simpl; [|done].
  destruct (segmentSegmentIntersection _ _) as [p|]; simpl; [|done].
  split; [apply join_a; lia|by apply join_b].
Qed.

(** X7.  [trimConvexSegments] keeps the number of segments and touches the
    two endpoints that meet at a vertex only at that vertex's turn: they
    become the intersection of the two segments, as they stand at that turn,
    when the vertex is flagged convex and the segments intersect, and they
    stay those of the raw insets otherwise (the trim error is built and not
    thrown). *)
Theorem trimConvexSegments_vertex (raw : list (TriangleSegment2 S))
    (convex : list bool) (i : nat) :
  (i < length raw)%nat ->
  let st := fold_left (trimConvex_body convex) (seq 0 i) raw in
  let q := if (convex !!! i : bool)
           then segmentSegmentIntersection
                  (st !!! prevIndex (length raw) i) (st !!! i)
           else None in
  let out := trimConvexSegments raw convex in
  length out = length raw /\
  a (out !!! i) = default (a (raw !!! i)) q /\
  b (out !!! prevIndex (length raw) i)
  = default (b (raw !!! prevIndex (length raw) i)) q.
Proof.
  intros Hi st q out. split.
  - unfold out, trimConvexSegments.
    apply (loop_length (trimConvex_body convex) (trimConvex_body_length convex)).
  - by apply trimConvex_vertex_gen.
Qed.
End TrimExtras.

(** *** [AddReflexSegments] *)

Section ReflexExtras.
Context {S : Type} `{ScalarOps S} `{Geometry S}.
Local Open Scope scalar_scope.

Lemma AddReflex_fold segments trimmed convex idx acc :
  fold_left (AddReflex_body segments trimmed convex) idx acc
  = acc ++ flat_map (reflex_piece segments trimmed convex) idx.
Proof.
  revert acc. induction idx as [|i idx IH]; intros acc; simpl.
  - by rewrite app_nil_r.
  - rewrite IH. unfold AddReflex_body, reflex_piece.
    destruct (negb _); simpl; by rewrite <- !app_assoc.
Qed.

Lemma reflex_pieces_length segments trimmed convex idx :
  length (flat_map (reflex_piece segments trimmed convex) idx)
  = (length idx
     + length (List.filter (fun i => negb (convex !!! i : bool)) idx))%nat.
Proof.
  induction idx as [|i idx IH]; simpl; [done|].
  rewrite length_app, IH. unfold reflex_piece.
  destruct (negb _); simpl; lia.
Qed.

Lemma chained_snoc (l : list (TriangleSegment2 S)) (s : TriangleSegment2 S) :
  chained (l ++ [s]) <-> chained l /\ (forall t, last l = Some t -> b t = a s).
Proof.
  induction l as [|u [|v l] IH].
  - simpl. split; [|done]. intros _. split; [done|]. by intros t [=].
  - simpl. split.
    + intros [Hus _]. split; [done|]. by intros t [= <-].
    + intros [_ Hlast]. split; [|done]. by apply Hlast.
  - change (chained ((u :: v :: l) ++ [s]))
      with (b u = a v /\ chained ((v :: l) ++ [s])).
    change (chained (u :: v :: l)) with (b u = a v /\ chained (v :: l)).
    rewrite IH. change (last (u :: v :: l)) with (last (v :: l)). tauto.
Qed.

Lemma reflex_chained segments trimmed convex m k acc :
  (k + m = length segments)%nat ->
  (forall i, (i < length segments)%nat -> convex !!! i = true ->
     b (trimmed !!! prevIndex (length segments) i) = a (trimmed !!! i)) ->
  chained acc ->
  (forall t, last acc = Some t ->
     b t = b (trimmed !!! prevIndex (length segments) k)) ->
  chained (fold_left (AddReflex_body segments trimmed convex) (seq k m) acc).
Proof.
  intros Hk Hjoin. revert k acc Hk.
  induction m as [|m IH]; intros k acc Hk Hch Hlast; simpl; [done|].
  assert (Hnext : prevIndex (length segments) (Datatypes.S k) = k).
  { unfold prevIndex. case_decide; lia. }
  apply IH; [lia| |].
  - unfold AddReflex_body. destruct (convex !!! k : bool) eqn:Hc; simpl.
    + apply chained_snoc. split; [done|]. intros t Ht.
      rewrite (Hlast t Ht). apply Hjoin; [lia|done].
    + apply chained_snoc. split.
      * apply chained_snoc. split; [done|]. intros t Ht. by rewrite (Hlast t Ht).
      * intros t. rewrite last_snoc. by intros [= <-].
  - intros t. unfold AddReflex_body. rewrite last_snoc. intros [= <-].
    by rewrite Hnext.
Qed.

Lemma reflex_ends segments trimmed convex :
  (forall i, (i < length segments)%nat -> convex !!! i = true ->
     b (trimmed !!! prevIndex (length segments) i) = a (trimmed !!! i)) ->
  forall s t,
    head (AddReflexSegments segments trimmed convex) = Some s ->
    last (AddReflexSegments segments trimmed convex) = Some t ->
    b t = a s.
Proof.
  intros Hjoin. unfold AddReflexSegments. rewrite AddReflex_fold. simpl.
  destruct (length segments) as [|n] eqn:Hn; [by intros s t [=]|].
  intros s t Hs Ht.
  assert (Hlast : t = trimmed !!! n).
  { revert Ht. replace (Datatypes.S n) with (n + 1)%nat by lia.
    rewrite seq_app, flat_map_app. simpl. rewrite app_nil_r.
    unfold reflex_piece at 2. rewrite !app_assoc, last_snoc. by intros [= <-]. }
  subst t. revert Hs. simpl. unfold reflex_piece at 1.
  assert (Hprev : prevIndex (Datatypes.S n) 0 = n).
  { unfold prevIndex. case_decide; lia. }
  destruct (convex !!! 0%nat : bool) eqn:Hc; simpl; intros [= <-].
  - rewrite <- Hprev at 1. apply Hjoin; [lia|done].
  - simpl. by rewrite Hn, Hprev.
Qed.

(** X8.  [AddReflexSegments] emits every trimmed inset, in order, and
    before each one whose vertex is not flagged convex one bridging segment:
    the output has as many segments as the input plus the number of such
    vertices. *)
Theorem AddReflexSegments_length (segments trimmed : list (TriangleSegment2 S))
    (convex : list bool) :
  length (AddReflexSegments segments trimmed convex)
  = (length segments
     + length (List.filter (fun i => negb (convex !!! i : bool))
                 (seq 0 (length segments))))%nat /\
  AddReflexSegments segments trimmed convex
  = flat_map (fun i =>
      (if negb (convex !!! i : bool)
       then [Seg (b (trimmed !!! prevIndex (length segments) i))
                 (a (trimmed !!! i))]
       else []) ++ [trimmed !!! i]) (seq 0 (length segments)).
Proof.
  unfold AddReflexSegments. rewrite AddReflex_fold. simpl. split; [|done].
  by rewrite reflex_pieces_length, length_seq.
Qed.

(** X9.  The bridges close the loop: if the trimmed insets already meet at
    every vertex flagged convex, the output of [AddReflexSegments] is a closed
    loop, whatever the gaps at the other vertices were. *)
Theorem AddReflexSegments_closes (segments trimmed : list (TriangleSegment2 S))
    (convex : list bool) :
  (forall i, (i < length segments)%nat -> convex !!! i = true ->
     b (trimmed !!! prevIndex (length segments) i) = a (trimmed !!! i)) ->
  closed_loop (AddReflexSegments segments trimmed convex).
Proof.
  intros Hjoin. split.
  - unfold AddReflexSegments. apply reflex_chained; [lia|done|done|].
    by intros t [=].
  - by apply reflex_ends.
Qed.

(** X10.  Convex trimming followed by reflex bridging gives a closed loop as
    soon as the trim succeeds at every vertex flagged convex: there the two
    raw insets are cut at their intersection, elsewhere a bridge is put
    in. *)
Theorem trim_then_bridge_closes (segments raw : list (TriangleSegment2 S))
    (convex : list bool) :
  length raw = length segments ->
  (forall i, (i < length raw)%nat -> convex !!! i = true ->
     let st := fold_left (trimConvex_body convex) (seq 0 i) raw in
     segmentSegmentIntersection (st !!! prevIndex (length raw) i) (st !!! i)
     <> None) ->
  closed_loop (AddReflexSegments segments (trimConvexSegments raw convex) convex).
Proof.
  intros Hlen Hall.
  assert (Hjoin : forall i, (i < length segments)%nat -> convex !!! i = true ->
            b (trimConvexSegments raw convex !!! prevIndex (length segments) i)
            = a (trimConvexSegments raw convex !!! i)).
  { rewrite <- Hlen. intros i Hi Hc.
    destruct (trimConvex_vertex_gen raw convex i Hi) as [Ha Hb].
    rewrite Ha, Hb. rewrite Hc.
    specialize (Hall i Hi Hc). cbv zeta in Hall.
    by destruct (segmentSegmentIntersection _ _). }
  split.
  - unfold AddReflexSegments. apply reflex_chained; [lia|done|done|].
    by intros t [=].
  - by apply reflex_ends.
Qed.
End ReflexExtras.

(** *** [removeShortSegments] and [createConvexList] *)

Section ShortAndConvexExtras.
Context {S : Type} `{ScalarOps S} `{Geometry S}.
Local Open Scope scalar_scope.

Lemma absorbShort_keeps first c2 l :
  absorb_keeps first c2 l /\ forall s, absorb_keeps first c2 (s :: l).
Proof.
  induction l as [|t l [IHl IHtl]].
  - split.
    + unfold absorb_keeps. simpl. repeat split; try done; try lia.
    + intros s. unfold absorb_keeps. simpl.
      destruct (squaredLength first <? c2) eqn:Hf; simpl;
        repeat split; try done; try lia.
      * intros h [= <-]. eauto.
      * intros h [= <-]. eauto.
  - split; [apply IHtl|]. intros s.
    specialize (IHtl t). unfold absorb_keeps in *.
    change (absorbShort first c2 (s :: t :: l))
      with (if squaredLength t <? c2
            then set_b (b t) s :: absorbShort first c2 l
            else s :: absorbShort first c2 (t :: l)).
    destruct IHl as (L1 & L2 & L3 & L4 & L5).
    destruct IHtl as (T1 & T2 & T3 & T4 & T5).
    destruct (squaredLength t <? c2) eqn:Ht.
    + repeat split.
      * simpl in *. lia.
      * simpl in *. lia.
      * intros h [= <-]. eauto.
      * intros [Hst Hch].
        assert (Hl : chained l) by (by destruct l as [|u l]; [|destruct Hch]).
        specialize (L4 Hl).
        destruct l as [|u l]; [done|]. destruct Hch as [Htu _].
        destruct (L3 u eq_refl) as (h' & Hh' & Hah').
        destruct (absorbShort first c2 (u :: l)) as [|r0 r]; [done|].
        injection Hh' as ->. split; [|done]. simpl. congruence.
      * intros Hno _. exfalso.
        assert ((squaredLength t <? c2) = false) by (apply Hno; right; by left).
        congruence.
    + repeat split.
      * simpl in *. lia.
      * simpl in *. lia.
      * intros h [= <-]. eauto.
      * intros [Hst Hch]. specialize (T4 Hch).
        destruct (T3 t eq_refl) as (h' & Hh' & Hah').
        destruct (absorbShort first c2 (t :: l)) as [|r0 r]; [done|].
        injection Hh' as ->. split; [|done]. congruence.
      * intros Hno Hfirst. f_equal. apply T5; [|done].
        intros u Hu. apply Hno. by right.
Qed.

(** X11.  What [removeShortSegments] keeps, when its assert passes and the
    output vector starts empty: it returns at most as many segments as it was
    given and at least half as many; the first output segment starts where the
    first input segment starts; if consecutive input segments meet, so do
    consecutive output segments; and when no input segment is shorter than the
    cutoff the input is returned unchanged. *)
Theorem removeShortSegments_keeps (l out : list (TriangleSegment2 S)) (cutoff : S) :
  removeShortSegments l cutoff [] = Returns out ->
  (length out <= length l)%nat /\
  (length l <= 2 * length out)%nat /\
  (forall h, head l = Some h -> exists h', head out = Some h' /\ a h' = a h) /\
  (chained l -> chained out) /\
  ((forall s, In s l -> (squaredLength s <? cutoff * cutoff) = false) -> out = l).
Proof.
  unfold removeShortSegments. destruct (sc0 <? cutoff); [|done].
  rewrite removeShortSegments_loop_spec by lia. rewrite drop_0. simpl.
  intros [= <-].
  destruct (absorbShort_keeps (l !!! 0%nat) (cutoff * cutoff) l)
    as [(K1 & K2 & K3 & K4 & K5) _].
  split; [done|]. split; [done|]. split; [done|]. split; [done|].
  intros Hno. destruct l as [|s l]; [done|].
  apply K5; [done|]. apply Hno. by left.
Qed.

(** *** [createConvexList] *)

Lemma createConvexList_fold_error (segments : list (TriangleSegment2 S)) idx id prevId :
  fold_left (createConvexList_body segments) idx (ConnectivityError id prevId)
  = ConnectivityError id prevId.
Proof. induction idx as [|i idx IH]; simpl; [done|]. apply IH. Qed.

(** X12.  [createConvexList] checks every vertex with its own tolerance,
    0.3: it throws the connectivity error for the first vertex, in index
    order, at which the start of the segment is not the same as the end of the
    previous one, and otherwise appends one flag per segment, the flag of
    segment [i] being [convexVertex] of the previous start, the segment's
    start and its end. *)
Theorem createConvexList_spec (segments : list (TriangleSegment2 S))
    (convex : list bool) :
  createConvexList segments convex
  = match List.find
            (fun id => negb (sameSame (a (segments !!! id))
                               (b (segments !!! prevIndex (length segments) id))
                               (s_of_Z 3 / s_of_Z 10)))
            (seq 0 (length segments))
    with
    | Some id => ConnectivityError id (prevIndex (length segments) id)
    | None =>
        ConvexList
          (convex
           ++ map (fun id =>
                     convexVertex
                       (a (segments !!! prevIndex (length segments) id))
                       (a (segments !!! id)) (b (segments !!! id)))
                (seq 0 (length segments)))
    end.
Proof.
  unfold createConvexList. generalize (seq 0 (length segments)) as idx.
  intros idx. revert convex.
  induction idx as [|i idx IH]; intros convex.
  - simpl. by rewrite app_nil_r.
  - cbn [fold_left List.find map]. unfold createConvexList_body at 2.
    cbv zeta. unfold convexList_tol.
    destruct (sameSame _ _ _); cbn [negb].
    + rewrite IH. destruct (List.find _ idx); [done|].
      by rewrite <- app_assoc.
    + apply createConvexList_fold_error.
Qed.
End ShortAndConvexExtras.

(** ** Exact geometry of the primitives of the inset engine *)

Section ExactGeometry.
Local Open Scope R_scope.

Ltac unfold_geom :=
  cbv beta iota zeta delta
    [s_add s_sub s_mul s_div s_sqrt s_of_Z s_ltb s_leb s_half R_ops sc0 sc1
     vadd vsub vscale magnitude normalise magnitude3 normalise3 crossProduct
     getInsetDirection AreaSign convexVertex dot cross2 squaredLength segLength
     elongate set_a set_b triangleAltitude translate inset_direction
     x y a b x3 y3 z3].

Lemma segLength_pos (s : TriangleSegment2 R) :
  a s <> b s -> 0 < segLength s /\ segLength s * segLength s = squaredLength s.
Proof.
  destruct s as [[ax ay] [bx by_]]. intros Hne. cbn [a b] in Hne. unfold_geom.
  assert (Hpos : 0 < (bx - ax) * (bx - ax) + (by_ - ay) * (by_ - ay)).
  { apply sum_sqr_pos. intros [= Hx Hy]. apply Hne. f_equal; lra. }
  split; [by apply sqrt_lt_R0|apply sqrt_sqrt; lra].
Qed.

Lemma getInsetDirection_formula (s : TriangleSegment2 R) :
  getInsetDirection s
  = Vec2 ((y (b s) - y (a s)) / segLength s) (- (x (b s) - x (a s)) / segLength s).
Proof.
  destruct s as [[ax ay] [bx by_]]. unfold_geom.
  match goal with
  | |- context [R_sqrt.sqrt ?t] =>
      replace t with ((bx - ax) * (bx - ax) + (by_ - ay) * (by_ - ay)) by ring
  end.
  unfold Rdiv. f_equal; ring.
Qed.




Lemma sum_sqr_nonneg (u v : R) : 0 <= u * u + v * v.
Proof. nra. Qed.

Lemma lookup_total_map {A B} `{Inhabited A} `{Inhabited B} (f : A -> B)
    (l : list A) (i : nat) :
  (i < length l)%nat -> map f l !!! i = f (l !!! i).
Proof.
  revert i. induction l as [|v l IH]; intros i Hi; simpl in *; [lia|].
  destruct i as [|i]; [done|]. apply IH. lia.
Qed.




End ExactGeometry.

(** ** The properties above on concrete inputs *)

Lemma trim_success_joins_witness :
  a (elongateAndTrimSegments square_cw_raw 100%float !!! 1%nat) = pt 1 9 /\
  b (elongateAndTrimSegments square_cw_raw 100%float
       !!! prevIndex (length square_cw_raw) 1) = pt 1 9.
Proof.
  apply (trim_success_joins 100%float square_cw_raw 1 (pt 1 9)).
  - vm_compute. lia.
  - vm_compute. reflexivity.
Defined.

Lemma trim_all_success_closes_witness :
  closed_loop (elongateAndTrimSegments square_cw_raw 100%float).
Proof.
  apply (trim_all_success_closes 100%float square_cw_raw).
  intros i Hi. destruct i as [|[|[|[|i]]]];
    [vm_compute; discriminate ..|exfalso; vm_compute in Hi; lia].
Defined.

Lemma trimConvexSegments_vertex_witness :
  let st := fold_left (trimConvex_body first_reflex) (seq 0 1) square_cw_raw in
  let q := if (first_reflex !!! 1%nat : bool)
           then segmentSegmentIntersection
                  (st !!! prevIndex (length square_cw_raw) 1) (st !!! 1%nat)
           else None in
  let out := trimConvexSegments square_cw_raw first_reflex in
  length out = length square_cw_raw /\
  a (out !!! 1%nat) = default (a (square_cw_raw !!! 1%nat)) q /\
  b (out !!! prevIndex (length square_cw_raw) 1)
  = default (b (square_cw_raw !!! prevIndex (length square_cw_raw) 1)) q.
Proof.
  apply (trimConvexSegments_vertex square_cw_raw first_reflex 1).
  vm_compute. lia.
Defined.

Example trimConvexSegments_square :
  trimConvexSegments square_cw_raw first_reflex
  = [Seg (pt 1 0) (pt 1 9); Seg (pt 1 9) (pt 9 9);
     Seg (pt 9 9) (pt 9 1); Seg (pt 9 1) (pt 0 1)] /\
  AddReflexSegments square_cw (trimConvexSegments square_cw_raw first_reflex)
    first_reflex
  = [Seg (pt 0 1) (pt 1 0); Seg (pt 1 0) (pt 1 9); Seg (pt 1 9) (pt 9 9);
     Seg (pt 9 9) (pt 9 1); Seg (pt 9 1) (pt 0 1)].
Proof. split; vm_compute; reflexivity. Qed.

Lemma AddReflexSegments_closes_witness :
  closed_loop
    (AddReflexSegments square_cw
       (trimConvexSegments square_cw_raw first_reflex) first_reflex).
Proof.
  apply (AddReflexSegments_closes square_cw
           (trimConvexSegments square_cw_raw first_reflex) first_reflex).
  intros i Hi Hc. destruct i as [|[|[|[|i]]]];
    [vm_compute in Hc; discriminate Hc|vm_compute; reflexivity ..
    |exfalso; vm_compute in Hi; lia].
Defined.

Lemma trim_then_bridge_closes_witness :
  closed_loop
    (AddReflexSegments square_cw
       (trimConvexSegments square_cw_raw first_reflex) first_reflex).
Proof.
  apply (trim_then_bridge_closes square_cw square_cw_raw first_reflex).
  - vm_compute. reflexivity.
  - intros i Hi Hc. destruct i as [|[|[|[|i]]]];
      [vm_compute in Hc; discriminate Hc|vm_compute; discriminate ..
      |exfalso; vm_compute in Hi; lia].
Defined.

Lemma removeShortSegments_keeps_witness :
  let out := [Seg (pt 0 0) (pt 0.5 10); Seg (pt 0.5 10) (pt 10 10)] in
  (length out <= length short_middle)%nat /\
  (length short_middle <= 2 * length out)%nat /\
  (forall h, head short_middle = Some h ->
     exists h', head out = Some h' /\ a h' = a h) /\
  (chained short_middle -> chained out) /\
  ((forall s, In s short_middle ->
      s_ltb (squaredLength s) (s_mul 1%float 1%float) = false) ->
   out = short_middle).
Proof.
  apply (removeShortSegments_keeps short_middle
           [Seg (pt 0 0) (pt 0.5 10); Seg (pt 0.5 10) (pt 10 10)] 1%float).
  vm_compute. reflexivity.
Defined.

Lemma removeCollapsedSegments_indices_witness :
  removeCollapsedSegments triangle_ccw (bisectors_of triangle_ccw) 2%float
  = fold_left
      (fun rel i =>
         if fst (edgeCollapse (triangle_ccw !!! i)
                   (bisectors_of triangle_ccw
                      !!! prevIndex (length triangle_ccw) (length rel))
                   (bisectors_of triangle_ccw
                      !!! nextIndex (length triangle_ccw) i) 2%float (s_of_Z 100))
         then rel else rel ++ [triangle_ccw !!! i])
      (seq 0 (length triangle_ccw)) [].
Proof.
  apply (removeCollapsedSegments_indices triangle_ccw (bisectors_of triangle_ccw)
           2%float).
  vm_compute. lia.
Defined.

Section ExactWitnesses.
Local Open Scope R_scope.

Lemma up_segment_R_distinct : a up_segment_R <> b up_segment_R.
Proof. unfold up_segment_R. cbn [a b]. intros [= Hy]. lra. Qed.



Lemma unit_square_R_length : (0 < length unit_square_R)%nat.
Proof. rewrite unit_square_R_segments. simpl. lia. Qed.


Lemma hundred_nonneg : 0 <= 100.
Proof. lra. Qed.



Lemma base_R_distinct : a base_R <> b base_R.
Proof. unfold base_R. cbn [a b]. intros [= Hx]. lra. Qed.

Lemma Rltb_true (u v : R) : u < v -> (if Rlt_dec u v then true else false) = true.
Proof. intros Huv. by destruct (Rlt_dec u v). Qed.

Lemma Rltb_false (u v : R) : v <= u -> (if Rlt_dec u v then true else false) = false.
Proof. intros Huv. destruct (Rlt_dec u v); [lra|done]. Qed.

Lemma Rleb_true (u v : R) : u <= v -> (if Rle_dec u v then true else false) = true.
Proof. intros Huv. by destruct (Rle_dec u v). Qed.

(** The two bisector segments on [base_R], elongated as [edgeCollapse]
    elongates them, meet at (0,4): the first runs from (0,0) up to (0,101),
    the second from (-57,80) to (18/5,-4/5). *)
Lemma base_R_bisectors_meet :
  @segmentSegmentIntersection R Geometry_model
    (elongate (Seg (a base_R) (vadd (a base_R) start_bisector_R)) 100 false true)
    (elongate (Seg (b base_R) (vadd (b base_R) end_bisector_R)) 100 true false)
  = Some (Vec2 0 4).
Proof.
  assert (H0 : elongate (Seg (a base_R) (vadd (a base_R) start_bisector_R))
                 100 false true
               = Seg (Vec2 0 0) (Vec2 0 101)).
  { cbv beta iota zeta delta
      [s_add s_sub s_mul s_div s_sqrt s_of_Z R_ops sc0 sc1 vadd vsub vscale
       magnitude normalise elongate set_a set_b base_R start_bisector_R
       x y a b].
    replace ((0 + 0 - 0) * (0 + 0 - 0) + (0 + 1 - 0) * (0 + 1 - 0)) with 1 by ring.
    rewrite sqrt_1. f_equal. f_equal; simpl; field. }
  assert (H1 : elongate (Seg (b base_R) (vadd (b base_R) end_bisector_R))
                 100 true false
               = Seg (Vec2 (-57) 80) (Vec2 (18 / 5) (- 4 / 5))).
  { cbv beta iota zeta delta
      [s_add s_sub s_mul s_div s_sqrt s_of_Z R_ops sc0 sc1 vadd vsub vscale
       magnitude normalise elongate set_a set_b base_R end_bisector_R
       x y a b].
    replace ((3 + 3 / 5 - 3) * (3 + 3 / 5 - 3)
             + (0 + - 4 / 5 - 0) * (0 + - 4 / 5 - 0)) with 1 by field.
    rewrite sqrt_1. f_equal; f_equal; simpl; field. }
  rewrite H0, H1.
  cbv beta iota zeta delta
    [segmentSegmentIntersection Geometry_model segmentSegmentIntersection_model
     s_add s_sub s_mul s_div s_of_Z s_ltb s_leb R_ops sc0 sc1 vsub x y a b].
  set (den := (0 - 0) * (-4 / 5 - 80) - (18 / 5 - -57) * (101 - 0)).
  assert (Hden : den = - (30603 / 5)) by (unfold den; field).
  set (s := ((0 - 0) * (0 - 80) - (101 - 0) * (0 - -57)) / den).
  assert (Hs : s = 9595 / 10201) by (unfold s; rewrite Hden; field).
  set (t := ((18 / 5 - -57) * (0 - 80) - (-4 / 5 - 80) * (0 - -57)) / den).
  assert (Ht : t = 4 / 101) by (unfold t; rewrite Hden; field).
  rewrite Hden, Hs, Ht.
  rewrite (Rltb_true (- (30603 / 5)) 0) by lra. cbn [orb].
  rewrite !Rleb_true by lra. cbn [andb].
  f_equal. f_equal; field.
Qed.

(** The distance from (0,4) to the line of [base_R]. *)
Lemma base_R_altitude :
  Rabs (cross2 (vsub (b base_R) (a base_R)) (vsub (Vec2 0 4) (a base_R)))
  / segLength base_R = 4.
Proof.
  cbv beta iota zeta delta
    [s_add s_sub s_mul s_div s_sqrt s_of_Z R_ops vsub cross2 squaredLength
     segLength base_R x y a b].
  replace ((3 - 0) * (3 - 0) + (0 - 0) * (0 - 0)) with (3 * 3) by ring.
  rewrite sqrt_square by lra.
  replace ((3 - 0) * (4 - 0) - (0 - 0) * (0 - 0)) with 12 by ring.
  rewrite Rabs_right by lra. field.
Qed.

End ExactWitnesses.

Lemma inset_locals_invariants_witness :
  exists L,
    inset_locals square_cw 1%float 0.01%float = Returns L /\
    length (bisectors L) = length square_cw /\
    sublist (relevant L) square_cw /\
    ((forall i, (i < length (insets L))%nat ->
        let st := fold_left (elongateAndTrim_body (s_mul 1%float (s_of_Z 100)))
                    (seq 0 i) (insets L) in
        segmentSegmentIntersection
          (elongate (st !!! prevIndex (length (insets L)) i)
             (s_mul 1%float (s_of_Z 100)) false true)
          (elongate (st !!! i) (s_mul 1%float (s_of_Z 100)) true false) <> None) ->
     closed_loop (finalInsets L)).
Proof.
  eexists. split; [vm_compute; reflexivity|].
  apply (inset_locals_invariants square_cw 1%float 0.01%float).
  vm_compute. reflexivity.
Defined.

Example convexList_tol_double : convexList_tol = 0.3%float.
Proof. vm_compute. reflexivity. Qed.

Example createConvexList_squares :
  createConvexList square_cw [] = ConvexList [true; true; true; true] /\
  createConvexList square_ccw [] = ConvexList [false; false; false; false] /\
  createConvexList open_square [] = ConnectivityError 0 2.
Proof. repeat split; vm_compute; reflexivity. Qed.
(** ** The rounding of the double-precision operations

    The kernel specifies the operations on its primitive floats by those of
    [SpecFloat] on sign, mantissa and exponent.  From that specification:
    every operation that [normalise] and [magnitude] use returns, on finite
    arguments and away from overflow, a finite double within 2^-49 of the
    exact result, relatively, up to 2^-1071. *)

Section RoundingIntegers.
Import SpecFloat.
Local Open Scope Z_scope.

Lemma fexp64_eq e : fexp64 e = Z.max (e - 53) (-1074).
Proof. reflexivity. Qed.

(** [shr_1] halves the mantissa. *)
Lemma shr_1_m (r : shr_record) :
  0 <= shr_m r -> shr_m (shr_1 r) = shr_m r / 2 /\ 0 <= shr_m (shr_1 r).
Proof.
  destruct r as [m rb sb]. cbn [shr_m]. intros Hm.
  destruct m as [|p|p]; [| |lia].
  - cbn. split; [reflexivity|lia].
  - destruct p as [p|p|]; cbn [shr_1 shr_m].
    + split; [|lia]. apply (Z.div_unique (Zpos p~1) 2 (Zpos p) 1); lia.
    + split; [|lia]. apply (Z.div_unique (Zpos p~0) 2 (Zpos p) 0); lia.
    + split; [reflexivity|lia].
Qed.

Lemma pow2_xO (p : positive) : 2 ^ Zpos p~0 = 2 ^ Zpos p * 2 ^ Zpos p.
Proof.
  replace (Zpos p~0) with (Zpos p + Zpos p) by lia.
  apply Z.pow_add_r; lia.
Qed.

Lemma pow2_xI (p : positive) : 2 ^ Zpos p~1 = 2 * (2 ^ Zpos p * 2 ^ Zpos p).
Proof.
  replace (Zpos p~1) with (1 + (Zpos p + Zpos p)) by lia.
  rewrite Z.pow_add_r by lia. rewrite (Z.pow_add_r 2 (Zpos p)) by lia. reflexivity.
Qed.

Lemma pow2_pos (n : Z) : 0 <= n -> 0 < 2 ^ n.
Proof. intros Hn. apply Z.pow_pos_nonneg; lia. Qed.

(** [p] halvings divide the mantissa by 2^p. *)
Lemma iter_shr_1_m (p : positive) (r : shr_record) :
  0 <= shr_m r ->
  shr_m (iter_pos shr_1 p r) = shr_m r / 2 ^ Zpos p /\
  0 <= shr_m (iter_pos shr_1 p r).
Proof.
  revert r. induction p as [p IH|p IH|]; intros r Hr; cbn [iter_pos].
  - destruct (shr_1_m r Hr) as [H1 H1'].
    destruct (IH _ H1') as [H2 H2'].
    destruct (IH _ H2') as [H3 H3'].
    split; [|done]. rewrite H3, H2, H1.
    pose proof (pow2_pos (Zpos p) ltac:(lia)) as Hp.
    rewrite !Z.div_div by lia. rewrite pow2_xI. f_equal; lia.
  - destruct (IH _ Hr) as [H2 H2'].
    destruct (IH _ H2') as [H3 H3'].
    split; [|done]. rewrite H3, H2.
    pose proof (pow2_pos (Zpos p) ltac:(lia)) as Hp.
    rewrite !Z.div_div by lia. by rewrite pow2_xO.
  - destruct (shr_1_m r Hr) as [H1 H1']. split; [|done].
    by rewrite H1.
Qed.

(** What [shr_fexp] does to the mantissa and the exponent. *)
Lemma shr_fexp_spec (m e : Z) (l : location) :
  0 <= m ->
  let '(mrs, e') := shr_fexp 53 1024 m e l in
  shr_m mrs = m / 2 ^ shift_of m e /\ e' = e + shift_of m e /\
  (shift_of m e = 0 -> mrs = shr_record_of_loc m l).
Proof.
  intros Hm. unfold shr_fexp, shr, shift_of. fold (fexp64 (Zdigits2 m + e)).
  assert (Hrec : shr_m (shr_record_of_loc m l) = m).
  { by destruct l as [|[]]. }
  destruct (fexp64 _ - e) as [|p|p] eqn:Hn.
  - rewrite Hrec. cbn. rewrite Z.div_1_r. repeat split; lia.
  - destruct (iter_shr_1_m p (shr_record_of_loc m l)) as [H1 _]; [lia|].
    rewrite H1, Hrec. rewrite Z.max_r by lia. repeat split; lia.
  - rewrite Hrec. rewrite Z.max_l by lia. cbn. rewrite Z.div_1_r.
    repeat split; lia.
Qed.

Lemma loc_of_shr_record_of_loc (m : Z) (l : location) :
  loc_of_shr_record (shr_record_of_loc m l) = l.
Proof. by destruct l as [|[]]. Qed.

Lemma round_nearest_even_range (m : Z) (l : location) :
  m <= round_nearest_even m l <= m + 1.
Proof. destruct l as [|[]]; cbn; try lia. destruct (Z.even m); lia. Qed.

(** A positive [m] of [d] binary digits lies between 2^(d-1) and 2^d. *)
Lemma Zdigits2_bounds (m : Z) :
  0 < m -> 2 ^ (Zdigits2 m - 1) <= m < 2 ^ Zdigits2 m /\ 1 <= Zdigits2 m.
Proof.
  destruct m as [|p|p]; try lia. intros _. cbn [Zdigits2].
  induction p as [p IH|p IH|]; cbn [digits2_pos].
  - rewrite Pos2Z.inj_succ.
    replace (Z.succ (Zpos (digits2_pos p)) - 1) with (1 + (Zpos (digits2_pos p) - 1)) by lia.
    unfold Z.succ. rewrite (Z.add_comm _ 1) at 2.
    rewrite !Z.pow_add_r by lia. change (2 ^ 1) with 2. lia.
  - rewrite Pos2Z.inj_succ.
    replace (Z.succ (Zpos (digits2_pos p)) - 1) with (1 + (Zpos (digits2_pos p) - 1)) by lia.
    unfold Z.succ. rewrite (Z.add_comm _ 1) at 2.
    rewrite !Z.pow_add_r by lia. change (2 ^ 1) with 2. lia.
  - cbn. lia.
Qed.

Lemma Zdigits2_nonneg (m : Z) : 0 <= Zdigits2 m.
Proof. destruct m; cbn; lia. Qed.

(** [binary_round_aux] is two shifts to the right with, between them, a
    rounding that adds at most one unit to the mantissa. *)
Lemma binary_round_aux_spec (sx : bool) (mx ex : Z) (lx : location) :
  0 <= mx ->
  exists m1 : Z,
    let k := shift_of mx ex in
    let k1 := shift_of m1 (ex + k) in
    mx / 2 ^ k <= m1 <= mx / 2 ^ k + 1 /\
    (lx = loc_Exact -> k = 0 -> m1 = mx) /\
    binary_round_aux 53 1024 sx mx ex lx
    = round_result sx (m1 / 2 ^ k1) (ex + k + k1).
Proof.
  intros Hmx. unfold binary_round_aux.
  pose proof (shr_fexp_spec mx ex lx Hmx) as H1.
  destruct (shr_fexp 53 1024 mx ex lx) as [mrs' e'].
  destruct H1 as (Hm' & He' & Hrec').
  set (m1 := round_nearest_even (shr_m mrs') (loc_of_shr_record mrs')).
  exists m1. cbv zeta.
  pose proof (round_nearest_even_range (shr_m mrs') (loc_of_shr_record mrs')) as Hr.
  fold m1 in Hr.
  assert (Hq : 0 <= mx / 2 ^ shift_of mx ex).
  { apply Z.div_pos; [lia|]. apply pow2_pos. unfold shift_of. lia. }
  assert (Hm1 : 0 <= m1) by lia.
  pose proof (shr_fexp_spec m1 e' loc_Exact Hm1) as H2.
  destruct (shr_fexp 53 1024 m1 e' loc_Exact) as [mrs'' e''].
  destruct H2 as (Hm'' & He'' & _).
  split; [lia|]. split.
  - intros -> Hk. unfold m1. rewrite (Hrec' Hk).
    rewrite loc_of_shr_record_of_loc. cbn [round_nearest_even].
    by destruct mx.
  - rewrite Hm'', He'', He'. reflexivity.
Qed.
End RoundingIntegers.

Section RoundingBounds.
Import SpecFloat.
Local Open Scope R_scope.

(** Powers of 2. *)
Lemma bpow_pos (e : Z) : 0 < bpow e.
Proof. apply powerRZ_lt. lra. Qed.

Lemma bpow_add (e1 e2 : Z) : bpow (e1 + e2) = bpow e1 * bpow e2.
Proof. apply powerRZ_add. lra. Qed.

Lemma bpow_0 : bpow 0 = 1.
Proof. reflexivity. Qed.

Lemma bpow_1 : bpow 1 = 2.
Proof. unfold bpow. simpl. lra. Qed.

Lemma bpow_succ (e : Z) : bpow (e + 1) = 2 * bpow e.
Proof. rewrite bpow_add, bpow_1. ring. Qed.

Lemma bpow_IZR (n : Z) : (0 <= n)%Z -> bpow n = IZR (2 ^ n).
Proof.
  intros Hn. unfold bpow. destruct n as [|p|p]; [reflexivity| |lia].
  cbn [powerRZ]. rewrite pow_IZR. by rewrite positive_nat_Z.
Qed.

Lemma bpow_ge_1 (n : Z) : (0 <= n)%Z -> 1 <= bpow n.
Proof.
  intros Hn. rewrite bpow_IZR by done. apply IZR_le.
  pose proof (pow2_pos n Hn). lia.
Qed.

Lemma bpow_le (e1 e2 : Z) : (e1 <= e2)%Z -> bpow e1 <= bpow e2.
Proof.
  intros He. replace e2 with (e1 + (e2 - e1))%Z by lia.
  rewrite bpow_add. pose proof (bpow_pos e1).
  pose proof (bpow_ge_1 (e2 - e1) ltac:(lia)). nra.
Qed.

Lemma bpow_lt (e1 e2 : Z) : (e1 < e2)%Z -> bpow e1 < bpow e2.
Proof.
  intros He. replace e2 with (e1 + 1 + (e2 - e1 - 1))%Z by lia.
  rewrite bpow_add, bpow_succ. pose proof (bpow_pos e1).
  pose proof (bpow_ge_1 (e2 - e1 - 1) ltac:(lia)). nra.
Qed.

Lemma bpow_lt_inv (e1 e2 : Z) : bpow e1 < bpow e2 -> (e1 < e2)%Z.
Proof.
  intros Hlt. destruct (Z_lt_le_dec e1 e2) as [|Hle]; [done|].
  apply bpow_le in Hle. lra.
Qed.

Lemma bpow_max (e1 e2 : Z) : bpow (Z.max e1 e2) <= bpow e1 + bpow e2.
Proof.
  pose proof (bpow_pos e1). pose proof (bpow_pos e2).
  destruct (Z.max_spec e1 e2) as [[_ ->]|[_ ->]]; lra.
Qed.

(** Shifting a mantissa to the right loses less than one unit. *)
Lemma shift_bracket (m k : Z) :
  (0 <= m)%Z -> (0 <= k)%Z ->
  IZR (m / 2 ^ k) * bpow k <= IZR m < (IZR (m / 2 ^ k) + 1) * bpow k.
Proof.
  intros Hm Hk. rewrite (bpow_IZR k Hk).
  pose proof (pow2_pos k Hk) as Hp.
  pose proof (Z.div_mod m (2 ^ k) ltac:(lia)) as Hdm.
  pose proof (Z.mod_pos_bound m (2 ^ k) Hp) as Hmod.
  rewrite <- (plus_IZR _ 1), <- !mult_IZR. split.
  - apply IZR_le. lia.
  - apply IZR_lt. lia.
Qed.

Lemma digits_bpow (m : Z) : (0 < m)%Z -> bpow (Zdigits2 m - 1) <= IZR m.
Proof.
  intros Hm. destruct (Zdigits2_bounds m Hm) as [[Hlo _] Hd].
  rewrite bpow_IZR by lia. by apply IZR_le.
Qed.

(** The unit in the last place is small against the number, or the least
    one there is. *)
Lemma bpow_fexp (m e : Z) :
  (0 < m)%Z ->
  bpow (fexp64 (Zdigits2 m + e)) <= bpow (-52) * (IZR m * bpow e) + bpow (-1074).
Proof.
  intros Hm. rewrite fexp64_eq.
  pose proof (digits_bpow m Hm) as Hd.
  pose proof (bpow_pos e). pose proof (bpow_pos (-52)). pose proof (bpow_pos (-1074)).
  assert (H52 : bpow (Zdigits2 m + e - 53) <= bpow (-52) * (IZR m * bpow e)).
  { replace (Zdigits2 m + e - 53)%Z with (-52 + ((Zdigits2 m - 1) + e))%Z by lia.
    rewrite !bpow_add. apply Rmult_le_compat_l; [lra|].
    apply Rmult_le_compat_r; [lra|done]. }
  pose proof (bpow_max (Zdigits2 m + e - 53) (-1074)).
  assert (0 <= bpow (-52) * (IZR m * bpow e)).
  { apply Rmult_le_pos; [lra|]. apply Rmult_le_pos; [|lra]. apply IZR_le. lia. }
  destruct (Z.max_spec (Zdigits2 m + e - 53) (-1074)) as [[_ ->]|[_ ->]]; lra.
Qed.

Lemma shift_of_nonneg (m e : Z) : (0 <= shift_of m e)%Z.
Proof. unfold shift_of. lia. Qed.

Lemma shift_of_zero_mantissa (e : Z) :
  bpow (e + shift_of 0 e) <= bpow e + bpow (-1074).
Proof.
  unfold shift_of. cbn [Zdigits2]. rewrite fexp64_eq.
  replace (e + Z.max 0 (Z.max (0 + e - 53) (-1074) - e))%Z
    with (Z.max e (-1074)) by lia.
  apply bpow_max.
Qed.

Lemma shift_of_bound (m e : Z) :
  (0 <= m)%Z ->
  bpow (e + shift_of m e)
  <= bpow e + bpow (-52) * (IZR m * bpow e) + bpow (-1074).
Proof.
  intros Hm. pose proof (bpow_pos e). pose proof (bpow_pos (-52)).
  destruct (Z.eq_dec m 0%Z) as [->|Hne].
  - pose proof (shift_of_zero_mantissa e). lra.
  - pose proof (bpow_fexp m e ltac:(lia)) as Hf.
    unfold shift_of.
    replace (e + Z.max 0 (fexp64 (Zdigits2 m + e) - e))%Z
      with (Z.max e (fexp64 (Zdigits2 m + e))) by lia.
    pose proof (bpow_max e (fexp64 (Zdigits2 m + e))). lra.
Qed.

(** The value of the float that the rounding builds. *)
Lemma round_result_value (sx : bool) (m2 e2 : Z) :
  (0 <= m2)%Z -> (e2 <= 971)%Z ->
  finite_SF (round_result sx m2 e2) = true /\
  SF2R (round_result sx m2 e2) = signed sx (IZR m2 * bpow e2).
Proof.
  intros Hm He. destruct m2 as [|p|p]; [| |lia]; cbn [round_result].
  - split; [done|]. cbn [SF2R]. destruct sx; cbn [signed]; lra.
  - destruct (Z.leb_spec e2 971) as [_|]; [|lia]. done.
Qed.

Lemma bpow_m52_1000 : bpow (-49) * bpow 1000 + bpow (-1071) <= bpow 952.
Proof.
  rewrite <- bpow_add. change (-49 + 1000)%Z with 951%Z.
  change 952%Z with (951 + 1)%Z. rewrite bpow_succ.
  pose proof (bpow_le (-1071) 951 ltac:(lia)). lra.
Qed.

(** The rounding of a nonnegative number located at [mx * 2^ex]: as long as
    [2^ex] is small against the number and the number is well below the
    largest double, the result is finite and within 2^-49 of the number,
    relatively, up to 2^-1071. *)
Lemma binary_round_aux_bound (sx : bool) (mx ex : Z) (lx : location) (x : R) :
  (0 <= mx)%Z ->
  IZR mx * bpow ex <= x < (IZR mx + 1) * bpow ex ->
  x < bpow 1000 ->
  bpow ex <= bpow (-52) * x + bpow (-1074) ->
  let r := binary_round_aux 53 1024 sx mx ex lx in
  finite_SF r = true /\
  exists v, 0 <= v /\ SF2R r = signed sx v /\
    Rabs (v - x) <= bpow (-49) * x + bpow (-1071).
Proof.
  intros Hmx [Hlo Hhi] Hmax Hb r.
  destruct (binary_round_aux_spec sx mx ex lx Hmx) as (m1 & Hm1 & _ & Hr).
  cbv zeta in Hm1, Hr. fold r in Hr.
  set (k := shift_of mx ex) in *. set (k1 := shift_of m1 (ex + k)) in *.
  pose proof (shift_of_nonneg mx ex) as Hk. fold k in Hk.
  pose proof (shift_of_nonneg m1 (ex + k)) as Hk1. fold k1 in Hk1.
  assert (Hq : (0 <= mx / 2 ^ k)%Z).
  { apply Z.div_pos; [lia|]. by apply pow2_pos. }
  assert (Hm1' : (0 <= m1)%Z) by lia.
  assert (Hq2 : (0 <= m1 / 2 ^ k1)%Z).
  { apply Z.div_pos; [lia|]. by apply pow2_pos. }
  pose proof (shift_bracket mx k Hmx Hk) as [Hs1 Hs1'].
  pose proof (shift_bracket m1 k1 Hm1' Hk1) as [Hs2 Hs2'].
  set (a := IZR mx) in *. set (a' := IZR (mx / 2 ^ k)) in *.
  set (a1 := IZR m1) in *. set (a2 := IZR (m1 / 2 ^ k1)) in *.
  assert (Ha : 0 <= a) by (apply IZR_le; lia).
  assert (Ha' : 0 <= a') by (apply IZR_le; lia).
  assert (Ha2 : 0 <= a2) by (apply IZR_le; lia).
  assert (Ha1 : a' <= a1 <= a' + 1).
  { unfold a1, a'. rewrite <- (plus_IZR _ 1). split; apply IZR_le; lia. }
  set (P := bpow ex) in *. set (K := bpow k) in *. set (K1 := bpow k1) in *.
  assert (HP : 0 < P) by apply bpow_pos.
  assert (HK : 1 <= K) by (by apply bpow_ge_1).
  assert (HK1 : 1 <= K1) by (by apply bpow_ge_1).
  assert (Hx : 0 <= x) by nra.
  (* the exponents *)
  assert (He' : bpow (ex + k) = K * P) by (rewrite bpow_add; unfold K, P; ring).
  assert (He2 : bpow (ex + k + k1) = K1 * (K * P)).
  { rewrite bpow_add, He'. unfold K1. ring. }
  (* the value *)
  set (v := a2 * bpow (ex + k + k1)).
  assert (Hup : v <= x + K * P).
  { unfold v. rewrite He2.
    assert (a2 * K1 * (K * P) <= a1 * (K * P)) by (apply Rmult_le_compat_r; nra).
    assert (a1 * (K * P) <= (a' + 1) * (K * P)) by (apply Rmult_le_compat_r; nra).
    assert (a' * K * P <= a * P) by (apply Rmult_le_compat_r; lra).
    nra. }
  assert (Hdown : x - P - K * P - K1 * (K * P) <= v).
  { unfold v. rewrite He2.
    assert ((a1 - K1) * (K * P) <= a2 * K1 * (K * P)).
    { apply Rmult_le_compat_r; [nra|lra]. }
    assert ((a' - K1) * (K * P) <= (a1 - K1) * (K * P)).
    { apply Rmult_le_compat_r; [nra|lra]. }
    assert ((a - K) * P <= a' * K * P).
    { apply Rmult_le_compat_r; [lra|lra]. }
    nra. }
  (* the sizes of the two units *)
  pose proof (bpow_pos (-52)) as H52. pose proof (bpow_pos (-1074)) as H1074.
  assert (HU : K * P <= 2 * bpow (-52) * x + 2 * bpow (-1074)).
  { rewrite <- He'. pose proof (shift_of_bound mx ex Hmx) as Hsb. fold k a P in Hsb.
    assert (bpow (-52) * (a * P) <= bpow (-52) * x)
      by (apply Rmult_le_compat_l; lra).
    lra. }
  assert (Hm1x : a1 * (K * P) <= x + K * P).
  { assert (a1 * (K * P) <= (a' + 1) * (K * P)) by (apply Rmult_le_compat_r; nra).
    assert (a' * K * P <= a * P) by (apply Rmult_le_compat_r; lra).
    nra. }
  assert (HU2 : K1 * (K * P)
                <= K * P + bpow (-52) * (x + K * P) + bpow (-1074)).
  { rewrite <- He2. pose proof (shift_of_bound m1 (ex + k) Hm1') as Hsb.
    fold k1 a1 in Hsb. rewrite He' in Hsb.
    assert (bpow (-52) * (a1 * (K * P)) <= bpow (-52) * (x + K * P))
      by (apply Rmult_le_compat_l; lra).
    lra. }
  assert (H52' : bpow (-52) <= 1 / 2).
  { pose proof (bpow_le (-52) (-1) ltac:(lia)) as Hle.
    replace (bpow (-1)) with (1 / 2) in Hle; [done|].
    unfold bpow. simpl. lra. }
  assert (H49 : bpow (-49) = 8 * bpow (-52)).
  { change (-49)%Z with (-52 + 1 + 1 + 1)%Z. rewrite !bpow_succ. ring. }
  assert (H1071 : bpow (-1071) = 8 * bpow (-1074)).
  { change (-1071)%Z with (-1074 + 1 + 1 + 1)%Z. rewrite !bpow_succ. ring. }
  assert (Hbx : 0 <= bpow (-52) * x) by (apply Rmult_le_pos; lra).
  assert (Hbu : bpow (-52) * (K * P) <= 1 / 2 * (K * P)).
  { apply Rmult_le_compat_r; [nra|done]. }
  assert (Herr : Rabs (v - x) <= bpow (-49) * x + bpow (-1071)).
  { rewrite H49, H1071. apply Rabs_le. split; nra. }
  assert (He2b : bpow (ex + k + k1) < bpow 972).
  { rewrite He2.
    assert (bpow (-49) * x <= bpow (-49) * bpow 1000).
    { apply Rmult_le_compat_l; [|lra]. pose proof (bpow_pos (-49)). lra. }
    pose proof bpow_m52_1000. pose proof (bpow_lt 952 972 ltac:(lia)).
    rewrite H49, H1071 in *. nra. }
  apply bpow_lt_inv in He2b.
  destruct (round_result_value sx (m1 / 2 ^ k1) (ex + k + k1) Hq2 ltac:(lia))
    as [Hfin Hval].
  rewrite Hr. split; [done|]. exists v. split; [|split; [done|done]].
  unfold v. apply Rmult_le_pos; [done|]. pose proof (bpow_pos (ex + k + k1)). lra.
Qed.
End RoundingBounds.

Section Operations.
Import SpecFloat.
Local Open Scope R_scope.

Lemma signed_sub (s : bool) (u v : R) : signed s u - signed s v = signed s (u - v).
Proof. destruct s; cbn [signed]; ring. Qed.

Lemma signed_mul (s t : bool) (u v : R) :
  signed s u * signed t v = signed (xorb s t) (u * v).
Proof. destruct s, t; cbn [signed xorb]; ring. Qed.

Lemma Rabs_signed (s : bool) (v : R) : Rabs (signed s v) = Rabs v.
Proof. destruct s; cbn [signed]; [apply Rabs_Ropp|done]. Qed.

Lemma rounds_to_exact (r : spec_float) (x : R) :
  finite_SF r = true -> SF2R r = x -> rounds_to r x.
Proof.
  intros Hfin <-. split; [done|].
  replace (SF2R r - SF2R r) with 0 by ring. rewrite Rabs_R0.
  pose proof (bpow_pos (-49)). pose proof (bpow_pos (-1071)).
  pose proof (Rabs_pos (SF2R r)). nra.
Qed.

(** From the bound on a rounded magnitude to [rounds_to]. *)
Lemma rounds_to_signed (s : bool) (r : spec_float) (x : R) :
  0 <= x ->
  finite_SF r = true ->
  (exists v, 0 <= v /\ SF2R r = signed s v /\
     Rabs (v - x) <= bpow (-49) * x + bpow (-1071)) ->
  rounds_to r (signed s x).
Proof.
  intros Hx Hfin (v & Hv & Hr & Herr). split; [done|].
  rewrite Hr, signed_sub, Rabs_signed, Rabs_signed, (Rabs_pos_eq x Hx). done.
Qed.

Lemma valid_canonical (s : bool) (m : positive) (e : Z) :
  valid_binary 53 1024 (S754_finite s m e) = true ->
  fexp64 (Zdigits2 (Zpos m) + e) = e.
Proof.
  cbn [valid_binary]. unfold bounded, canonical_mantissa.
  intros Hb. apply andb_true_iff in Hb as [Hc _].
  apply Z.eqb_eq in Hc. exact Hc.
Qed.

Lemma Zdigits2_mul (mx my : positive) :
  (Zdigits2 (Zpos mx) + Zdigits2 (Zpos my) - 1 <= Zdigits2 (Zpos (mx * my)))%Z.
Proof.
  destruct (Zdigits2_bounds (Zpos mx) ltac:(lia)) as [[Hx _] Hdx].
  destruct (Zdigits2_bounds (Zpos my) ltac:(lia)) as [[Hy _] Hdy].
  destruct (Zdigits2_bounds (Zpos (mx * my)) ltac:(lia)) as [[_ Hxy] _].
  assert (Hlt : (2 ^ (Zdigits2 (Zpos mx) - 1 + (Zdigits2 (Zpos my) - 1))
                 < 2 ^ Zdigits2 (Zpos (mx * my)))%Z).
  { rewrite Z.pow_add_r by lia. rewrite Pos2Z.inj_mul in Hxy.
    pose proof (pow2_pos (Zdigits2 (Zpos mx) - 1) ltac:(lia)).
    pose proof (pow2_pos (Zdigits2 (Zpos my) - 1) ltac:(lia)).
    eapply Z.le_lt_trans; [|exact Hxy].
    apply Z.mul_le_mono_nonneg; lia. }
  apply Z.pow_lt_mono_r_iff in Hlt; [lia|lia|].
  apply Zdigits2_nonneg.
Qed.

(** Multiplication.  The mantissas of valid floats are as long as their
    exponents allow, so the exponent of the exact product is never above the
    one the rounding aims at. *)
Lemma SFmul_bound (x y : spec_float) :
  finite_SF x = true -> finite_SF y = true ->
  valid_binary 53 1024 x = true -> valid_binary 53 1024 y = true ->
  Rabs (SF2R x * SF2R y) < bpow 1000 ->
  rounds_to (SFmul 53 1024 x y) (SF2R x * SF2R y).
Proof.
  intros Hfx Hfy Hvx Hvy Hmax.
  destruct x as [sx|sx| |sx mx ex], y as [sy|sy| |sy my ey]; try done;
    cbn [SFmul].
  - apply rounds_to_exact; [done|]. cbn [SF2R]. ring.
  - apply rounds_to_exact; [done|]. cbn [SF2R]. ring.
  - apply rounds_to_exact; [done|]. cbn [SF2R]. ring.
  - cbn [SF2R] in *. rewrite signed_mul in *.
    set (X := IZR (Zpos mx) * bpow ex * (IZR (Zpos my) * bpow ey)) in *.
    assert (HX : X = IZR (Zpos (mx * my)) * bpow (ex + ey)).
    { unfold X. rewrite Pos2Z.inj_mul, mult_IZR, bpow_add. ring. }
    assert (HX0 : 0 <= X).
    { rewrite HX. apply Rmult_le_pos; [apply IZR_le; lia|].
      pose proof (bpow_pos (ex + ey)). lra. }
    rewrite Rabs_signed, (Rabs_pos_eq X HX0) in Hmax.
    pose proof (valid_canonical _ _ _ Hvx) as Hcx.
    pose proof (valid_canonical _ _ _ Hvy) as Hcy.
    pose proof (Zdigits2_mul mx my) as Hd.
    destruct (Zdigits2_bounds (Zpos mx) ltac:(lia)) as [_ Hdx].
    destruct (Zdigits2_bounds (Zpos my) ltac:(lia)) as [_ Hdy].
    assert (Hn : (ex + ey <= fexp64 (Zdigits2 (Zpos (mx * my)) + (ex + ey)))%Z).
    { rewrite fexp64_eq in *. lia. }
    pose proof (bpow_fexp (Zpos (mx * my)) (ex + ey) ltac:(lia)) as Hf.
    rewrite <- HX in Hf. apply bpow_le in Hn.
    pose proof (bpow_pos (ex + ey)) as Hp.
    destruct (binary_round_aux_bound (xorb sx sy) (Zpos (mx * my)) (ex + ey)
                loc_Exact X) as [Hfin Hv]; [lia| |done|lra|].
    { rewrite <- HX. split; [lra|]. rewrite HX. nra. }
    by apply rounds_to_signed.
Qed.
Lemma pos_iter_xO (m d : positive) :
  Zpos (Pos.iter xO m d) = (Zpos m * 2 ^ Zpos d)%Z.
Proof.
  induction d as [|d IH] using Pos.peano_ind.
  - cbn. lia.
  - rewrite Pos.iter_succ, Pos2Z.inj_xO, IH, Pos2Z.inj_succ.
    rewrite Z.pow_succ_r by lia. lia.
Qed.

Lemma shl_align_spec (mx : positive) (ex ex' : Z) :
  let '(mz, ez) := shl_align mx ex ex' in
  ez = Z.min ex ex' /\ Zpos mz = (Zpos mx * 2 ^ (ex - ez))%Z.
Proof.
  unfold shl_align. destruct (ex' - ex)%Z as [|d|d] eqn:Hd.
  - split; [lia|]. replace (ex - ex)%Z with 0%Z by lia. lia.
  - split; [lia|]. replace (ex - ex)%Z with 0%Z by lia. lia.
  - split; [lia|]. rewrite pos_iter_xO. f_equal. f_equal. lia.
Qed.

Lemma shl_align_value (mx : positive) (ex ex' : Z) :
  let '(mz, ez) := shl_align mx ex ex' in
  ez = Z.min ex ex' /\ IZR (Zpos mz) * bpow ez = IZR (Zpos mx) * bpow ex.
Proof.
  pose proof (shl_align_spec mx ex ex') as Hs.
  destruct (shl_align mx ex ex') as [mz ez]. destruct Hs as [He Hm].
  split; [done|]. rewrite Hm, mult_IZR.
  rewrite <- (bpow_IZR (ex - ez)) by lia.
  rewrite Rmult_assoc, <- bpow_add. f_equal. f_equal. lia.
Qed.

(** Addition and subtraction go through [binary_normalize]. *)
Lemma binary_round_bound (sx : bool) (mx : positive) (ex : Z) :
  IZR (Zpos mx) * bpow ex < bpow 1000 ->
  rounds_to (binary_round 53 1024 sx mx ex) (signed sx (IZR (Zpos mx) * bpow ex)).
Proof.
  intros Hmax. unfold binary_round.
  fold (Zdigits2 (Zpos mx)). fold (fexp64 (Zdigits2 (Zpos mx) + ex)).
  pose proof (shl_align_value mx ex (fexp64 (Zdigits2 (Zpos mx) + ex))) as Hs.
  destruct (shl_align mx ex _) as [mz ez]. destruct Hs as [He Hv].
  set (X := IZR (Zpos mx) * bpow ex) in *.
  assert (HX0 : 0 <= X).
  { unfold X. apply Rmult_le_pos; [apply IZR_le; lia|].
    pose proof (bpow_pos ex). lra. }
  pose proof (bpow_fexp (Zpos mx) ex ltac:(lia)) as Hf. fold X in Hf.
  assert (Hle : bpow ez <= bpow (fexp64 (Zdigits2 (Zpos mx) + ex))).
  { apply bpow_le. lia. }
  pose proof (bpow_pos ez) as Hp.
  destruct (binary_round_aux_bound sx (Zpos mz) ez loc_Exact X)
    as [Hfin Hval]; [lia| |done|lra|].
  { rewrite Hv. split; [lra|]. rewrite <- Hv. nra. }
  by apply rounds_to_signed.
Qed.

Lemma binary_normalize_bound (m e : Z) (szero : bool) :
  Rabs (IZR m * bpow e) < bpow 1000 ->
  rounds_to (binary_normalize 53 1024 m e szero) (IZR m * bpow e).
Proof.
  intros Hmax. pose proof (bpow_pos e) as Hp.
  destruct m as [|p|p]; cbn [binary_normalize].
  - apply rounds_to_exact; [done|]. cbn [SF2R]. ring.
  - rewrite Rabs_pos_eq in Hmax.
    + apply (binary_round_bound false p e Hmax).
    + apply Rmult_le_pos; [apply IZR_le; lia|lra].
  - replace (IZR (Zneg p) * bpow e) with (signed true (IZR (Zpos p) * bpow e)) in *.
    + rewrite Rabs_signed, Rabs_pos_eq in Hmax.
      * by apply binary_round_bound.
      * apply Rmult_le_pos; [apply IZR_le; lia|lra].
    + cbn [signed]. change (Zneg p) with (- Zpos p)%Z. rewrite opp_IZR. ring.
Qed.

Lemma aligned_value (s : bool) (m : positive) (e ez : Z) :
  (ez <= e)%Z ->
  IZR (cond_Zopp s (Zpos (fst (shl_align m e ez)))) * bpow ez
  = signed s (IZR (Zpos m) * bpow e).
Proof.
  intros He. pose proof (shl_align_value m e ez) as Hs.
  destruct (shl_align m e ez) as [mz ez']. destruct Hs as [He' Hv].
  cbn [fst]. assert (ez' = ez) as -> by lia.
  destruct s; cbn [cond_Zopp signed].
  - rewrite opp_IZR. lra.
  - done.
Qed.

(** Addition. *)
Lemma SFadd_bound (x y : spec_float) :
  finite_SF x = true -> finite_SF y = true ->
  Rabs (SF2R x + SF2R y) < bpow 1000 ->
  rounds_to (SFadd 53 1024 x y) (SF2R x + SF2R y).
Proof.
  intros Hfx Hfy Hmax.
  destruct x as [sx|sx| |sx mx ex], y as [sy|sy| |sy my ey]; try done;
    cbn [SFadd].
  - apply rounds_to_exact; [by destruct sx, sy|]. destruct sx, sy; cbn [SF2R]; ring.
  - apply rounds_to_exact; [done|]. cbn [SF2R]. ring.
  - apply rounds_to_exact; [done|]. cbn [SF2R]. ring.
  - cbv zeta.
    assert (Hv : IZR (cond_Zopp sx (Zpos (fst (shl_align mx ex (Z.min ex ey))))
                      + cond_Zopp sy (Zpos (fst (shl_align my ey (Z.min ex ey)))))
                 * bpow (Z.min ex ey)
                 = SF2R (S754_finite sx mx ex) + SF2R (S754_finite sy my ey)).
    { rewrite plus_IZR, Rmult_plus_distr_r.
      rewrite !aligned_value by lia. reflexivity. }
    rewrite <- Hv in *. by apply binary_normalize_bound.
Qed.

(** Subtraction. *)
Lemma SFsub_bound (x y : spec_float) :
  finite_SF x = true -> finite_SF y = true ->
  Rabs (SF2R x - SF2R y) < bpow 1000 ->
  rounds_to (SFsub 53 1024 x y) (SF2R x - SF2R y).
Proof.
  intros Hfx Hfy Hmax.
  destruct x as [sx|sx| |sx mx ex], y as [sy|sy| |sy my ey]; try done;
    cbn [SFsub].
  - apply rounds_to_exact; [by destruct sx, sy|]. destruct sx, sy; cbn [SF2R]; ring.
  - apply rounds_to_exact; [done|]. cbn [SF2R]. destruct sy; cbn [negb signed]; ring.
  - apply rounds_to_exact; [done|]. cbn [SF2R]. ring.
  - cbv zeta.
    assert (Hv : IZR (cond_Zopp sx (Zpos (fst (shl_align mx ex (Z.min ex ey))))
                      - cond_Zopp sy (Zpos (fst (shl_align my ey (Z.min ex ey)))))
                 * bpow (Z.min ex ey)
                 = SF2R (S754_finite sx mx ex) - SF2R (S754_finite sy my ey)).
    { rewrite minus_IZR, Rmult_minus_distr_r.
      rewrite !aligned_value by lia. reflexivity. }
    rewrite <- Hv in *. by apply binary_normalize_bound.
Qed.
Lemma signed_div (s t : bool) (u v : R) :
  v <> 0 -> signed s u / signed t v = signed (xorb s t) (u / v).
Proof. intros Hv. destruct s, t; cbn [signed xorb]; field; lra. Qed.

Lemma digits_bpow_upper (m : Z) : (0 < m)%Z -> IZR m < bpow (Zdigits2 m).
Proof.
  intros Hm. destruct (Zdigits2_bounds m Hm) as [[_ Hhi] Hd].
  rewrite bpow_IZR by lia. by apply IZR_lt.
Qed.

Lemma bpow_opp (e : Z) : bpow (- e) = / bpow e.
Proof.
  pose proof (bpow_pos e). pose proof (bpow_add e (- e)) as Ha.
  replace (e + - e)%Z with 0%Z in Ha by lia. rewrite bpow_0 in Ha.
  apply Rmult_eq_reg_l with (bpow e); [|lra]. rewrite <- Ha. field. lra.
Qed.

Lemma bpow_sub (e1 e2 : Z) : bpow (e1 - e2) = bpow e1 / bpow e2.
Proof.
  replace (e1 - e2)%Z with (e1 + - e2)%Z by lia.
  rewrite bpow_add, bpow_opp. reflexivity.
Qed.

Lemma bpow_fexp_le (D : Z) (X : R) :
  bpow (D - 1) <= X ->
  bpow (fexp64 D) <= bpow (-52) * X + bpow (-1074).
Proof.
  intros HX. rewrite fexp64_eq.
  pose proof (bpow_pos (-52)). pose proof (bpow_pos (-1074)).
  assert (H52 : bpow (D - 53) <= bpow (-52) * X).
  { replace (D - 53)%Z with (-52 + (D - 1))%Z by lia. rewrite bpow_add.
    apply Rmult_le_compat_l; lra. }
  assert (0 <= bpow (-52) * X).
  { pose proof (bpow_pos (D - 53)). lra. }
  destruct (Z.max_spec (D - 53) (-1074)) as [[_ ->]|[_ ->]]; lra.
Qed.

(** Division.  The quotient of the mantissas, taken after a shift of the
    dividend, locates the exact quotient within one unit. *)
Lemma SFdiv_core_bound (mx my : positive) (ex ey : Z) :
  let X := IZR (Zpos mx) * bpow ex / (IZR (Zpos my) * bpow ey) in
  let '(q, e', l) := SFdiv_core_binary 53 1024 (Zpos mx) ex (Zpos my) ey in
  (0 <= q)%Z /\
  IZR q * bpow e' <= X < (IZR q + 1) * bpow e' /\
  bpow e' <= bpow (-52) * X + bpow (-1074).
Proof.
  intros X. unfold SFdiv_core_binary.
  fold (fexp64 (Zdigits2 (Zpos mx) + ex - (Zdigits2 (Zpos my) + ey))).
  set (D := (Zdigits2 (Zpos mx) + ex - (Zdigits2 (Zpos my) + ey))%Z).
  set (e' := Z.min (fexp64 D) (ex - ey)).
  set (s := (ex - ey - e')%Z).
  assert (Hs : (0 <= s)%Z) by (unfold s, e'; lia).
  set (m' := match s with
             | Zpos _ => Z.shiftl (Zpos mx) s
             | Z0 => Zpos mx
             | Zneg _ => 0%Z
             end).
  assert (Hm' : m' = (Zpos mx * 2 ^ s)%Z).
  { unfold m'. destruct s as [|p|p]; [lia| |lia].
    rewrite Z.shiftl_mul_pow2 by lia. reflexivity. }
  pose proof (Z_div_mod m' (Zpos my) ltac:(lia)) as Hdm.
  destruct (Z.div_eucl m' (Zpos my)) as [q r]. destruct Hdm as [Hq Hr].
  pose proof (pow2_pos s Hs) as Hps.
  assert (Hq0 : (0 <= q)%Z) by nia.
  set (A := IZR (Zpos mx)) in *. set (B := IZR (Zpos my)) in *.
  assert (HA : 0 < A) by (apply IZR_lt; lia).
  assert (HB : 0 < B) by (apply IZR_lt; lia).
  pose proof (bpow_pos ex) as Hpx. pose proof (bpow_pos ey) as Hpy.
  pose proof (bpow_pos e') as Hpe. pose proof (bpow_pos s) as Hpb.
  assert (HIm : IZR m' = A * bpow s).
  { rewrite Hm', mult_IZR, <- bpow_IZR by lia. reflexivity. }
  assert (HX : X = IZR m' / B * bpow e').
  { unfold X. rewrite HIm.
    replace ex with (s + e' + ey)%Z at 1 by (unfold s; lia).
    rewrite !bpow_add. field. lra. }
  assert (Hqr : IZR q * B <= IZR m' < (IZR q + 1) * B).
  { unfold B. rewrite <- (plus_IZR _ 1), <- !mult_IZR.
    split; [apply IZR_le|apply IZR_lt]; lia. }
  assert (Hquot : IZR q <= IZR m' / B < IZR q + 1).
  { split.
    - apply Rmult_le_reg_r with B; [lra|]. 
      replace (IZR m' / B * B) with (IZR m') by (field; lra). lra.
    - apply Rmult_lt_reg_r with B; [lra|].
      replace (IZR m' / B * B) with (IZR m') by (field; lra). lra. }
  split; [done|]. split.
  - rewrite HX. split.
    + apply Rmult_le_compat_r; lra.
    + apply Rmult_lt_compat_r; lra.
  - assert (Hle : bpow e' <= bpow (fexp64 D)) by (apply bpow_le; unfold e'; lia).
    assert (HD : bpow (D - 1) <= X).
    { unfold X, D.
      replace (Zdigits2 (Zpos mx) + ex - (Zdigits2 (Zpos my) + ey) - 1)%Z
        with ((Zdigits2 (Zpos mx) - 1) + ex - (Zdigits2 (Zpos my) + ey))%Z by lia.
      rewrite bpow_sub, !bpow_add.
      pose proof (digits_bpow (Zpos mx) ltac:(lia)) as Hdx. fold A in Hdx.
      pose proof (digits_bpow_upper (Zpos my) ltac:(lia)) as Hdy. fold B in Hdy.
      pose proof (bpow_pos (Zdigits2 (Zpos mx) - 1)).
      pose proof (bpow_pos (Zdigits2 (Zpos my))).
      apply Rle_trans with (A * bpow ex / (bpow (Zdigits2 (Zpos my)) * bpow ey)).
      - apply Rmult_le_compat_r.
        + apply Rlt_le, Rinv_0_lt_compat. nra.
        + apply Rmult_le_compat_r; lra.
      - apply Rmult_le_compat_l; [nra|].
        apply Rinv_le_contravar; [nra|].
        apply Rmult_le_compat_r; lra. }
    pose proof (bpow_fexp_le D X HD). lra.
Qed.

Lemma SFdiv_bound (x y : spec_float) :
  finite_SF x = true -> finite_SF y = true ->
  SF2R y <> 0 ->
  Rabs (SF2R x / SF2R y) < bpow 1000 ->
  rounds_to (SFdiv 53 1024 x y) (SF2R x / SF2R y).
Proof.
  intros Hfx Hfy Hy Hmax.
  destruct x as [sx|sx| |sx mx ex], y as [sy|sy| |sy my ey]; try done;
    cbn [SFdiv].
  - apply rounds_to_exact; [done|]. cbn [SF2R]. unfold Rdiv. ring.
  - pose proof (bpow_pos ex) as Hpx. pose proof (bpow_pos ey) as Hpy.
    assert (HA : 0 < IZR (Zpos mx)) by (apply IZR_lt; lia).
    assert (HB : 0 < IZR (Zpos my)) by (apply IZR_lt; lia).
    assert (HBy : 0 < IZR (Zpos my) * bpow ey) by nra.
    cbn [SF2R] in *. rewrite signed_div in * by lra.
    pose proof (SFdiv_core_bound mx my ex ey) as Hcore. cbv zeta in Hcore.
    destruct (SFdiv_core_binary 53 1024 (Zpos mx) ex (Zpos my) ey) as [[q e'] l].
    destruct Hcore as (Hq & Hbr & Hb).
    set (X := IZR (Zpos mx) * bpow ex / (IZR (Zpos my) * bpow ey)) in *.
    assert (HX0 : 0 <= X).
    { unfold X. apply Rlt_le, Rdiv_lt_0_compat; nra. }
    rewrite Rabs_signed, (Rabs_pos_eq X HX0) in Hmax.
    destruct (binary_round_aux_bound (xorb sx sy) q e' l X)
      as [Hfin Hval]; [done|done|done|done|].
    by apply rounds_to_signed.
Qed.
(** Square root.  The integer square root of the shifted mantissa locates
    the exact root within one unit. *)
Lemma SFsqrt_core_bound (mx : positive) (ex : Z) :
  let X := R_sqrt.sqrt (IZR (Zpos mx) * bpow ex) in
  let '(q, e', l) := SFsqrt_core_binary 53 1024 (Zpos mx) ex in
  (0 <= q)%Z /\
  IZR q * bpow e' <= X < (IZR q + 1) * bpow e' /\
  bpow e' <= bpow (-52) * X + bpow (-1074).
Proof.
  intros X. unfold SFsqrt_core_binary.
  fold (fexp64 (Z.div2 (Zdigits2 (Zpos mx) + ex + 1))).
  set (D := Z.div2 (Zdigits2 (Zpos mx) + ex + 1)).
  set (e' := Z.min (fexp64 D) (Z.div2 ex)).
  set (s := (ex - 2 * e')%Z).
  assert (HD2 : (2 * D <= Zdigits2 (Zpos mx) + ex + 1)%Z).
  { unfold D. rewrite Z.div2_div.
    pose proof (Z.mul_div_le (Zdigits2 (Zpos mx) + ex + 1) 2 ltac:(lia)). lia. }
  assert (He2 : (2 * Z.div2 ex <= ex)%Z).
  { rewrite Z.div2_div. apply Z.mul_div_le. lia. }
  assert (Hs : (0 <= s)%Z) by (unfold s, e'; lia).
  set (m' := match s with
             | Zpos _ => Z.shiftl (Zpos mx) s
             | Z0 => Zpos mx
             | Zneg _ => 0%Z
             end).
  assert (Hm' : m' = (Zpos mx * 2 ^ s)%Z).
  { unfold m'. destruct s as [|p|p]; [lia| |lia].
    rewrite Z.shiftl_mul_pow2 by lia. reflexivity. }
  pose proof (pow2_pos s Hs) as Hps.
  assert (Hm0 : (0 <= m')%Z) by nia.
  pose proof (Z.sqrtrem_spec m' Hm0) as Hsq.
  destruct (Z.sqrtrem m') as [q r]. destruct Hsq as [Hq Hr].
  assert (Hq0 : (0 <= q)%Z) by lia.
  set (A := IZR (Zpos mx)) in *.
  assert (HA : 0 < A) by (apply IZR_lt; lia).
  pose proof (bpow_pos ex) as Hpx. pose proof (bpow_pos e') as Hpe.
  pose proof (bpow_pos s) as Hpb.
  assert (HIm : IZR m' = A * bpow s).
  { rewrite Hm', mult_IZR, <- bpow_IZR by lia. reflexivity. }
  assert (HX2 : A * bpow ex = IZR m' * (bpow e' * bpow e')).
  { rewrite HIm. replace ex with (s + (e' + e'))%Z at 1 by (unfold s; lia).
    rewrite !bpow_add. ring. }
  assert (HX : X = R_sqrt.sqrt (IZR m') * bpow e').
  { unfold X. rewrite HX2. rewrite sqrt_mult_alt by (apply IZR_le; lia).
    f_equal. rewrite sqrt_square; lra. }
  assert (Hqr : IZR q * IZR q <= IZR m' < (IZR q + 1) * (IZR q + 1)).
  { rewrite <- (plus_IZR _ 1), <- !mult_IZR.
    split; [apply IZR_le|apply IZR_lt]; lia. }
  assert (HIq : 0 <= IZR q) by (apply IZR_le; lia).
  assert (Hroot : IZR q <= R_sqrt.sqrt (IZR m') < IZR q + 1).
  { split.
    - apply Rle_trans with (R_sqrt.sqrt (IZR q * IZR q)).
      + rewrite sqrt_square; lra.
      + apply sqrt_le_1_alt. lra.
    - apply Rlt_le_trans with (R_sqrt.sqrt ((IZR q + 1) * (IZR q + 1))).
      + apply sqrt_lt_1_alt. split; [apply IZR_le; lia|lra].
      + rewrite sqrt_square; lra. }
  split; [done|]. split.
  - rewrite HX. split.
    + apply Rmult_le_compat_r; lra.
    + apply Rmult_lt_compat_r; lra.
  - assert (Hle : bpow e' <= bpow (fexp64 D)) by (apply bpow_le; unfold e'; lia).
    assert (HD : bpow (D - 1) <= X).
    { unfold X. rewrite <- (sqrt_square (bpow (D - 1)))
        by (pose proof (bpow_pos (D - 1)); lra).
      apply sqrt_le_1_alt. rewrite <- bpow_add.
      pose proof (digits_bpow (Zpos mx) ltac:(lia)) as Hdx. fold A in Hdx.
      apply Rle_trans with (bpow (Zdigits2 (Zpos mx) - 1 + ex)).
      - apply bpow_le. lia.
      - rewrite bpow_add. apply Rmult_le_compat_r; lra. }
    pose proof (bpow_fexp_le D X HD). lra.
Qed.

Lemma SFsqrt_bound (x : spec_float) :
  finite_SF x = true ->
  0 <= SF2R x ->
  SF2R x < bpow 1000 ->
  rounds_to (SFsqrt 53 1024 x) (R_sqrt.sqrt (SF2R x)).
Proof.
  intros Hfx Hx0 Hmax.
  destruct x as [sx|sx| |sx mx ex]; try done; cbn [SFsqrt].
  - apply rounds_to_exact; [done|]. cbn [SF2R]. by rewrite sqrt_0.
  - pose proof (bpow_pos ex) as Hpx.
    assert (HA : 0 < IZR (Zpos mx)) by (apply IZR_lt; lia).
    destruct sx; cbn [SF2R signed] in *; [nra|].
    pose proof (SFsqrt_core_bound mx ex) as Hcore. cbv zeta in Hcore.
    destruct (SFsqrt_core_binary 53 1024 (Zpos mx) ex) as [[q e'] l].
    destruct Hcore as (Hq & Hbr & Hb).
    set (X := R_sqrt.sqrt (IZR (Zpos mx) * bpow ex)) in *.
    assert (HX1 : X < bpow 1000).
    { destruct (Rle_lt_dec (IZR (Zpos mx) * bpow ex) 1) as [Hle|Hgt].
      - apply Rle_lt_trans with 1.
        + unfold X. rewrite <- sqrt_1. by apply sqrt_le_1_alt.
        + pose proof (bpow_lt 0 1000 ltac:(lia)) as H0. rewrite bpow_0 in H0. done.
      - apply Rle_lt_trans with (IZR (Zpos mx) * bpow ex); [|done].
        unfold X. rewrite <- (sqrt_square (IZR (Zpos mx) * bpow ex)) at 2 by lra.
        apply sqrt_le_1_alt. nra. }
    destruct (binary_round_aux_bound false q e' l X)
      as [Hfin Hval]; [done|done|done|done|].
    assert (HX0 : 0 <= X) by apply sqrt_pos.
    apply (rounds_to_signed false); done.
Qed.
(** The absolute value is exact. *)
Lemma SFabs_value (x : spec_float) :
  finite_SF (SFabs x) = finite_SF x /\
  SF2R (SFabs x) = Rabs (SF2R x) /\
  (finite_SF x = true -> nonneg_SF (SFabs x) = true) /\
  (valid_binary 53 1024 x = true -> valid_binary 53 1024 (SFabs x) = true).
Proof.
  destruct x as [sx|sx| |sx mx ex]; cbn [SFabs finite_SF SF2R nonneg_SF];
    try (by rewrite Rabs_R0).
  repeat split; try done.
  rewrite Rabs_signed. cbn [signed]. symmetry. apply Rabs_pos_eq.
  apply Rmult_le_pos; [apply IZR_le; lia|]. pose proof (bpow_pos ex). lra.
Qed.

(** Of two valid positive floats the one of smaller exponent is smaller. *)
Lemma canonical_lt (m1 m2 : positive) (e1 e2 : Z) :
  fexp64 (Zdigits2 (Zpos m1) + e1) = e1 ->
  fexp64 (Zdigits2 (Zpos m2) + e2) = e2 ->
  (e1 < e2)%Z ->
  IZR (Zpos m1) * bpow e1 < IZR (Zpos m2) * bpow e2.
Proof.
  rewrite !fexp64_eq. intros Hc1 Hc2 He.
  pose proof (digits_bpow_upper (Zpos m1) ltac:(lia)) as H1.
  pose proof (digits_bpow (Zpos m2) ltac:(lia)) as H2.
  pose proof (bpow_pos e1) as Hp1. pose proof (bpow_pos e2) as Hp2.
  apply Rlt_le_trans with (bpow (Zdigits2 (Zpos m1)) * bpow e1).
  - apply Rmult_lt_compat_r; lra.
  - apply Rle_trans with (bpow (Zdigits2 (Zpos m2) - 1) * bpow e2).
    + rewrite <- !bpow_add. apply bpow_le. lia.
    + apply Rmult_le_compat_r; lra.
Qed.

(** On valid floats that are zero or positive, [SFleb] is the order of the
    real numbers. *)
Lemma SFleb_nonneg (x y : spec_float) :
  valid_binary 53 1024 x = true -> valid_binary 53 1024 y = true ->
  nonneg_SF x = true -> nonneg_SF y = true ->
  SFleb x y = true <-> SF2R x <= SF2R y.
Proof.
  intros Hvx Hvy Hx Hy.
  destruct x as [sx|sx| |[] mx ex], y as [sy|sy| |[] my ey]; try done;
    unfold SFleb; cbn [SFcompare SF2R signed].
  - pose proof (bpow_pos ey). assert (0 < IZR (Zpos my)) by (apply IZR_lt; lia).
    split; [intros _; nra|done].
  - pose proof (bpow_pos ex). assert (0 < IZR (Zpos mx)) by (apply IZR_lt; lia).
    split; [done|intros Hle; exfalso; nra].
  - pose proof (valid_canonical _ _ _ Hvx) as Hcx.
    pose proof (valid_canonical _ _ _ Hvy) as Hcy.
    destruct (Z.compare_spec ex ey) as [->|Hlt|Hgt].
    + pose proof (bpow_pos ey) as Hp.
      rewrite Pos.compare_cont_spec. cbn [Pos.switch_Eq].
      destruct (Pos.compare_spec mx my) as [->|Hm|Hm].
      * split; [intros _; lra|done].
      * split; [|done]. intros _. apply Rmult_le_compat_r; [lra|].
        apply IZR_le. lia.
      * split; [done|]. intros Hle. exfalso.
        assert (IZR (Zpos my) < IZR (Zpos mx)) by (apply IZR_lt; lia). nra.
    + pose proof (canonical_lt mx my ex ey Hcx Hcy Hlt).
      split; [intros _; lra|done].
    + pose proof (canonical_lt my mx ey ex Hcy Hcx ltac:(lia)).
      split; [done|intros Hle; exfalso; lra].
Qed.

(** A bound from above by a finite float on an absolute value makes the
    argument finite. *)
Lemma SFleb_abs_finite (x y : spec_float) :
  finite_SF y = true ->
  SFleb (SFabs x) y = true -> finite_SF x = true.
Proof.
  destruct x as [sx|sx| |sx mx ex], y as [sy|sy| |sy my ey]; try done.
Qed.
End Operations.

(** ** The error analysis of [normalise] followed by [magnitude] *)

Lemma Rabs_bound (u a : R) : (Rabs u <= a -> - a <= u <= a)%R.
Proof. unfold Rabs. destruct (Rcase_abs u); lra. Qed.

Section ErrorAnalysis.
Local Open Scope R_scope.
Variables eps eta : R.
Hypothesis eps_pos : 0 < eps.
Hypothesis eps_small : eps <= 1 / 1000.
Hypothesis eta_pos : 0 <= eta.

(** A rounded nonnegative number, as two inequalities. *)
Lemma near_R_nonneg (u v : R) :
  0 <= v -> near_R eps eta u v -> (1 - eps) * v - eta <= u <= (1 + eps) * v + eta.
Proof using Type.
  unfold near_R. intros Hv Hn. rewrite (Rabs_pos_eq v Hv) in Hn.
  apply Rabs_bound in Hn. lra.
Qed.

Lemma sqrt_between (lo hi t : R) :
  0 <= lo -> lo * lo <= t -> t <= hi * hi -> 0 <= hi ->
  lo <= R_sqrt.sqrt t <= hi.
Proof using Type.
  intros Hlo Hl Hh Hhi. split.
  - rewrite <- (sqrt_square lo Hlo). apply sqrt_le_1_alt. lra.
  - rewrite <- (sqrt_square hi Hhi). apply sqrt_le_1_alt. lra.
Qed.

Section Steps.
Variables X Y : R.
Let s := X * X + Y * Y.
Let r := R_sqrt.sqrt s.
Hypothesis s_pos : 0 < s.
Hypothesis eta_s : eta <= eps * s / 4.
Hypothesis eta_r : eta <= eps * r / 4.
Hypothesis eta_r' : eta * r <= eps / 4.
Hypothesis eta_1 : eta <= eps / 4.

Lemma radius_pos : 0 < r.
Proof using All.
  apply sqrt_lt_R0. exact s_pos.
Qed.

Lemma radius_sqr : r * r = s.
Proof using All.
  apply sqrt_sqrt. lra.
Qed.

(** The steps of [magnitude (normalise v)] on a vector of coordinates [X]
    and [Y], with [s] the exact sum of their squares and [r] its root.
    Each lemma bounds the exact result of one operation, so that the
    operation does not overflow, and then what the operation returns. *)
Lemma sum_of_squares (xx yy ss : R) :
  near_R eps eta xx (X * X) -> near_R eps eta yy (Y * Y) ->
  0 <= xx + yy <= 3 / 2 * s /\
  (near_R eps eta ss (xx + yy) -> (1 - 4 * eps) * s <= ss <= (1 + 4 * eps) * s).
Proof using All.
  intros Hxx Hyy.
  apply near_R_nonneg in Hxx; [|nra]. apply near_R_nonneg in Hyy; [|nra].
  assert (Hsum : (1 - eps) * s - 2 * eta <= xx + yy <= (1 + eps) * s + 2 * eta).
  { unfold s. lra. }
  assert (H0 : 0 <= xx + yy) by nra.
  assert (0 <= eps * s) by nra.
  assert (eps * (eps * s) <= eps * s / 1000) by nra.
  split; [nra|]. intros Hss.
  apply near_R_nonneg in Hss; [|done].
  split; nra.
Qed.

Lemma root_rounded (ss m : R) :
  (1 - 4 * eps) * s <= ss <= (1 + 4 * eps) * s ->
  0 <= ss <= 3 / 2 * s /\
  (near_R eps eta m (R_sqrt.sqrt ss) -> (1 - 6 * eps) * r <= m <= (1 + 6 * eps) * r).
Proof using All.
  intros Hss. pose proof radius_pos as Hr. pose proof radius_sqr as Hr2.
  split; [nra|]. intros Hm.
  assert (Hsq : (1 - 4 * eps) * r <= R_sqrt.sqrt ss <= (1 + 4 * eps) * r).
  { apply sqrt_between; [nra| | |nra].
    - apply Rle_trans with ((1 - 4 * eps) * s); [|lra].
      replace ((1 - 4 * eps) * r * ((1 - 4 * eps) * r))
        with ((1 - 4 * eps) * (1 - 4 * eps) * s) by (rewrite <- Hr2; ring).
      nra.
    - apply Rle_trans with ((1 + 4 * eps) * s); [lra|].
      replace ((1 + 4 * eps) * r * ((1 + 4 * eps) * r))
        with ((1 + 4 * eps) * (1 + 4 * eps) * s) by (rewrite <- Hr2; ring).
      nra. }
  apply near_R_nonneg in Hm; [|nra].
  assert (0 <= eps * r) by nra.
  assert (eps * (eps * r) <= eps * r / 1000) by nra.
  split; nra.
Qed.

Lemma inverse_rounded (m inv : R) :
  (1 - 6 * eps) * r <= m <= (1 + 6 * eps) * r ->
  0 < m /\ 0 < 1 / m <= 2 / r /\
  (near_R eps eta inv (1 / m) -> 1 - 9 * eps <= inv * r <= 1 + 9 * eps).
Proof using All.
  intros Hm. pose proof radius_pos as Hr.
  assert (Hm0 : 0 < m) by nra.
  set (u := 1 / m) in *.
  assert (Hu : u * m = 1) by (unfold u; field; lra).
  assert (Hu0 : 0 < u) by (unfold u; apply Rdiv_lt_0_compat; lra).
  set (w := u * r).
  assert (Hw : 1 - 6 * eps <= w <= 1 + 7 * eps).
  { unfold w. split.
    - assert (u * m <= u * ((1 + 6 * eps) * r)) by (apply Rmult_le_compat_l; lra).
      nra.
    - assert (u * ((1 - 6 * eps) * r) <= u * m) by (apply Rmult_le_compat_l; lra).
      nra. }
  split; [done|]. split.
  - split; [done|]. apply Rmult_le_reg_r with r; [done|].
    replace (2 / r * r) with 2 by (field; lra). fold w. lra.
  - intros Hinv. apply near_R_nonneg in Hinv; [|lra].
    assert (Hir : ((1 - eps) * u - eta) * r <= inv * r <= ((1 + eps) * u + eta) * r).
    { split; apply Rmult_le_compat_r; lra. }
    replace (((1 - eps) * u - eta) * r) with ((1 - eps) * w - eta * r) in Hir
      by (unfold w; ring).
    replace (((1 + eps) * u + eta) * r) with ((1 + eps) * w + eta * r) in Hir
      by (unfold w; ring).
    split; nra.
Qed.

Lemma component_rounded (W inv bz : R) :
  W * W <= s ->
  1 - 9 * eps <= inv * r <= 1 + 9 * eps ->
  Rabs (W * inv) <= 2 /\ Rabs (W / r) <= 1 /\
  (near_R eps eta bz (W * inv) -> Rabs (bz - W / r) <= 11 * eps).
Proof using All.
  intros HZ Hinv. pose proof radius_pos as Hr. pose proof radius_sqr as Hr2.
  set (c := W / r).
  assert (Hc : W = c * r) by (unfold c; field; lra).
  assert (Hc1 : c * c <= 1).
  { assert (c * c * s <= 1 * s); [|nra].
    rewrite <- Hr2 at 1. replace (c * c * (r * r)) with (W * W) by (rewrite Hc; ring).
    lra. }
  assert (Hc2 : -1 <= c <= 1) by nra.
  set (i := inv * r) in *.
  assert (HZi : W * inv = c * i) by (rewrite Hc; unfold i; ring).
  rewrite HZi in *.
  assert (Hci : Rabs (c * i) <= 1 + 9 * eps).
  { rewrite Rabs_mult. rewrite (Rabs_pos_eq i) by lra.
    assert (Rabs c <= 1) by (apply Rabs_le; lra).
    pose proof (Rabs_pos c). nra. }
  split; [lra|]. split; [apply Rabs_le; lra|]. intros Hbz.
  unfold near_R in Hbz.
  assert (Hd : Rabs (c * i - c) <= 9 * eps).
  { replace (c * i - c) with (c * (i - 1)) by ring. rewrite Rabs_mult.
    assert (Rabs c <= 1) by (apply Rabs_le; lra).
    assert (Rabs (i - 1) <= 9 * eps) by (apply Rabs_le; lra).
    pose proof (Rabs_pos c). pose proof (Rabs_pos (i - 1)). nra. }
  replace (bz - c) with ((bz - c * i) + (c * i - c)) by ring.
  eapply Rle_trans; [apply Rabs_triang|]. nra.
Qed.

Lemma square_rounded (c bz bzz : R) :
  Rabs c <= 1 -> Rabs (bz - c) <= 11 * eps ->
  Rabs (bz * bz) <= 2 /\
  (near_R eps eta bzz (bz * bz) -> Rabs (bzz - c * c) <= 25 * eps).
Proof using All.
  intros Hc Hbz. apply Rabs_bound in Hc. apply Rabs_bound in Hbz.
  assert (H0 : 0 <= bz * bz) by nra.
  assert (Hsq : Rabs (bz * bz - c * c) <= 23 * eps).
  { apply Rabs_le.
    replace (bz * bz - c * c) with ((bz - c) * (bz - c) + 2 * c * (bz - c)) by ring.
    split; nra. }
  apply Rabs_bound in Hsq.
  assert (Hcc : c * c <= 1) by nra.
  assert (Hb2 : bz * bz <= 1 + 23 * eps) by lra.
  assert (Heb : eps * (bz * bz) <= eps * (1 + 23 * eps)).
  { apply Rmult_le_compat_l; lra. }
  assert (Hee : eps * eps <= eps / 1000) by nra.
  split; [rewrite Rabs_pos_eq by done; lra|]. intros Hbzz.
  apply near_R_nonneg in Hbzz; [|done].
  apply Rabs_le. split; nra.
Qed.

Lemma unit_sum (cx cy bxx byy tt : R) :
  cx * cx + cy * cy = 1 ->
  Rabs (bxx - cx * cx) <= 25 * eps -> Rabs (byy - cy * cy) <= 25 * eps ->
  Rabs (bxx + byy) <= 2 /\
  (near_R eps eta tt (bxx + byy) -> Rabs (tt - 1) <= 52 * eps).
Proof using All.
  intros Hc Hx Hy. apply Rabs_bound in Hx. apply Rabs_bound in Hy.
  assert (H0 : 0 <= bxx + byy) by lra.
  split; [rewrite Rabs_pos_eq by done; lra|]. intros Htt.
  apply near_R_nonneg in Htt; [|done].
  apply Rabs_le. split; nra.
Qed.

Lemma unit_root (tt M : R) :
  Rabs (tt - 1) <= 52 * eps ->
  0 <= tt <= 2 /\
  (near_R eps eta M (R_sqrt.sqrt tt) -> Rabs (M - 1) <= 54 * eps).
Proof using All.
  intros Htt. apply Rabs_bound in Htt.
  split; [lra|]. intros HM.
  assert (Hsq : 1 - 52 * eps <= R_sqrt.sqrt tt <= 1 + 52 * eps).
  { apply sqrt_between; nra. }
  apply near_R_nonneg in HM; [|lra].
  apply Rabs_le. split; nra.
Qed.

Lemma unit_difference (M D : R) :
  Rabs (M - 1) <= 54 * eps ->
  Rabs (M - 1) <= 1 /\
  (near_R eps eta D (M - 1) -> Rabs D <= 55 * eps).
Proof using All.
  intros HM. split; [lra|]. intros HD. unfold near_R in HD.
  replace D with ((D - (M - 1)) + (M - 1)) by ring.
  eapply Rle_trans; [apply Rabs_triang|]. pose proof (Rabs_pos (M - 1)). nra.
Qed.
(** The exact length of the vector of the rounded components. *)
Lemma exact_norm (cx cy bx by_ : R) :
  cx * cx + cy * cy = 1 ->
  Rabs (bx - cx) <= 11 * eps -> Rabs (by_ - cy) <= 11 * eps ->
  Rabs (R_sqrt.sqrt (bx * bx + by_ * by_) - 1) <= 50 * eps.
Proof using All.
  intros Hc Hx Hy. apply Rabs_bound in Hx. apply Rabs_bound in Hy.
  assert (Hcx : -1 <= cx <= 1) by nra. assert (Hcy : -1 <= cy <= 1) by nra.
  assert (Hee : eps * eps <= eps / 1000) by nra.
  assert (Hsx : - (23 * eps) <= bx * bx - cx * cx <= 23 * eps).
  { replace (bx * bx - cx * cx) with ((bx - cx) * (bx - cx) + 2 * cx * (bx - cx))
      by ring.
    split; nra. }
  assert (Hsy : - (23 * eps) <= by_ * by_ - cy * cy <= 23 * eps).
  { replace (by_ * by_ - cy * cy) with ((by_ - cy) * (by_ - cy) + 2 * cy * (by_ - cy))
      by ring.
    split; nra. }
  assert (Hsq : 1 - 46 * eps <= R_sqrt.sqrt (bx * bx + by_ * by_) <= 1 + 46 * eps).
  { apply sqrt_between; nra. }
  apply Rabs_le. lra.
Qed.
End Steps.
End ErrorAnalysis.

Section DoubleOperations.
Import SpecFloat FloatOps FloatAxioms.
Local Open Scope R_scope.

(** The operations on the primitive floats, through the kernel's
    specification of them. *)
Lemma rounds_to_rounded (u : float) (t : R) :
  rounds_to (Prim2SF u) t -> rounded_to u t.
Proof. intros [Hfin Herr]. split; [done|exact Herr]. Qed.

Lemma mul_rounded (u v : float) :
  is_finite u = true -> is_finite v = true ->
  Rabs (F2R u * F2R v) < bpow 1000 ->
  rounded_to (u * v)%float (F2R u * F2R v).
Proof.
  intros Hu Hv Hmax. apply rounds_to_rounded. rewrite mul_spec.
  apply SFmul_bound; try done; apply Prim2SF_valid.
Qed.

Lemma add_rounded (u v : float) :
  is_finite u = true -> is_finite v = true ->
  Rabs (F2R u + F2R v) < bpow 1000 ->
  rounded_to (u + v)%float (F2R u + F2R v).
Proof.
  intros Hu Hv Hmax. apply rounds_to_rounded. rewrite add_spec.
  by apply SFadd_bound.
Qed.

Lemma sub_rounded (u v : float) :
  is_finite u = true -> is_finite v = true ->
  Rabs (F2R u - F2R v) < bpow 1000 ->
  rounded_to (u - v)%float (F2R u - F2R v).
Proof.
  intros Hu Hv Hmax. apply rounds_to_rounded. rewrite sub_spec.
  by apply SFsub_bound.
Qed.

Lemma div_rounded (u v : float) :
  is_finite u = true -> is_finite v = true ->
  F2R v <> 0 ->
  Rabs (F2R u / F2R v) < bpow 1000 ->
  rounded_to (u / v)%float (F2R u / F2R v).
Proof.
  intros Hu Hv Hv0 Hmax. apply rounds_to_rounded. rewrite div_spec.
  by apply SFdiv_bound.
Qed.

Lemma sqrt_rounded (u : float) :
  is_finite u = true -> 0 <= F2R u -> F2R u < bpow 1000 ->
  rounded_to (PrimFloat.sqrt u) (R_sqrt.sqrt (F2R u)).
Proof.
  intros Hu Hu0 Hmax. apply rounds_to_rounded. rewrite sqrt_spec.
  by apply SFsqrt_bound.
Qed.

(** Comparing an absolute value with a positive constant. *)
Lemma leb_abs_l (u c : float) :
  is_finite c = true -> nonneg_SF (Prim2SF c) = true ->
  PrimFloat.leb (PrimFloat.abs u) c = true ->
  is_finite u = true /\ Rabs (F2R u) <= F2R c.
Proof.
  intros Hc Hc0 Hleb. rewrite leb_spec, abs_spec in Hleb.
  pose proof (SFleb_abs_finite _ _ Hc Hleb) as Hfin.
  split; [exact Hfin|].
  destruct (SFabs_value (Prim2SF u)) as (_ & Hv & Hnn & Hval).
  unfold F2R. rewrite <- Hv.
  apply SFleb_nonneg; try done.
  - apply Hval, Prim2SF_valid.
  - apply Prim2SF_valid.
  - by apply Hnn.
Qed.

Lemma leb_abs_l_inv (u c : float) :
  is_finite u = true -> nonneg_SF (Prim2SF c) = true ->
  Rabs (F2R u) <= F2R c ->
  PrimFloat.leb (PrimFloat.abs u) c = true.
Proof.
  intros Hu Hc0 Hle. rewrite leb_spec, abs_spec.
  destruct (SFabs_value (Prim2SF u)) as (_ & Hv & Hnn & Hval).
  apply SFleb_nonneg; try done.
  - apply Hval, Prim2SF_valid.
  - apply Prim2SF_valid.
  - by apply Hnn.
  - by rewrite Hv.
Qed.

Lemma leb_abs_r (u c : float) :
  is_finite u = true -> nonneg_SF (Prim2SF c) = true ->
  PrimFloat.leb c (PrimFloat.abs u) = true ->
  F2R c <= Rabs (F2R u).
Proof.
  intros Hu Hc0 Hleb. rewrite leb_spec, abs_spec in Hleb.
  destruct (SFabs_value (Prim2SF u)) as (_ & Hv & Hnn & Hval).
  unfold F2R. rewrite <- Hv.
  apply SFleb_nonneg; try done.
  - apply Prim2SF_valid.
  - apply Hval, Prim2SF_valid.
  - by apply Hnn.
Qed.

(** The constants *)
Lemma bpow_52 : IZR 4503599627370496 * bpow (-52) = 1.
Proof.
  change 4503599627370496%Z with (2 ^ 52)%Z. rewrite <- bpow_IZR by lia.
  rewrite <- bpow_add. reflexivity.
Qed.

Lemma F2R_one : F2R 1%float = 1.
Proof.
  assert (H1 : Prim2SF 1%float = S754_finite false 4503599627370496 (-52))
    by (vm_compute; reflexivity).
  unfold F2R. rewrite H1. exact bpow_52.
Qed.

Lemma F2R_sc1 : F2R (sc1 (S := float)) = 1 /\ is_finite (sc1 (S := float)) = true.
Proof.
  assert (H1 : Prim2SF (sc1 (S := float))
               = S754_finite false 4503599627370496 (-52))
    by (vm_compute; reflexivity).
  unfold F2R, is_finite. rewrite H1. split; [exact bpow_52|done].
Qed.

Lemma F2R_lower : F2R 0x1p-500%float = bpow (-500).
Proof.
  assert (H1 : Prim2SF 0x1p-500%float = S754_finite false 4503599627370496 (-552))
    by (vm_compute; reflexivity).
  unfold F2R. rewrite H1. cbn [SF2R signed].
  change (-552)%Z with (-52 + -500)%Z. rewrite bpow_add, <- Rmult_assoc, bpow_52.
  ring.
Qed.

Lemma F2R_upper : F2R 0x1p499%float = bpow 499.
Proof.
  assert (H1 : Prim2SF 0x1p499%float = S754_finite false 4503599627370496 447)
    by (vm_compute; reflexivity).
  unfold F2R. rewrite H1. cbn [SF2R signed].
  change 447%Z with (-52 + 499)%Z. rewrite bpow_add, <- Rmult_assoc, bpow_52.
  ring.
Qed.

Lemma F2R_tolerance : bpow (-30) <= F2R 1e-9%float.
Proof.
  assert (H1 : Prim2SF 1e-9%float = S754_finite false 4835703278458517 (-82))
    by (vm_compute; reflexivity).
  unfold F2R. rewrite H1. cbn [SF2R signed].
  change (-30)%Z with (52 + -82)%Z. rewrite bpow_add.
  apply Rmult_le_compat_r; [pose proof (bpow_pos (-82)); lra|].
  rewrite bpow_IZR by lia. apply IZR_le. vm_compute. discriminate.
Qed.

Lemma bpow_sqr (e : Z) : bpow e * bpow e = bpow (2 * e).
Proof. rewrite <- bpow_add. f_equal. lia. Qed.

End DoubleOperations.

Section NormaliseDouble.
Local Open Scope R_scope.

(** The sizes of the two error terms. *)
Lemma double_eps_pos : 0 < double_eps.
Proof. apply bpow_pos. Qed.

Lemma double_eps_small : double_eps <= 1 / 1000.
Proof.
  unfold double_eps. pose proof (bpow_le (-49) (-10) ltac:(lia)) as Hle.
  assert (H10 : bpow (-10) = / 1024) by (unfold bpow; simpl; f_equal; lra).
  lra.
Qed.

Lemma double_eta_pos : 0 <= double_eta.
Proof. apply Rlt_le, bpow_pos. Qed.

Lemma double_eps_quarter : double_eps / 4 = bpow (-51).
Proof.
  unfold double_eps. change (-49)%Z with (-51 + 1 + 1)%Z.
  rewrite !bpow_succ. field.
Qed.

Lemma double_eta_1 : double_eta <= double_eps / 4.
Proof. rewrite double_eps_quarter. apply bpow_le. lia. Qed.

Lemma double_eta_scaled (t : R) (e : Z) :
  (-1020 <= e)%Z -> bpow e <= t -> double_eta <= double_eps * t / 4.
Proof.
  intros He Ht. pose proof double_eps_pos as Hp.
  apply Rle_trans with (double_eps / 4 * bpow e).
  - rewrite double_eps_quarter, <- bpow_add. unfold double_eta.
    apply bpow_le. lia.
  - replace (double_eps * t / 4) with (double_eps / 4 * t) by field.
    apply Rmult_le_compat_l; [lra|done].
Qed.

Lemma double_eta_times (t : R) :
  0 <= t <= bpow 500 -> double_eta * t <= double_eps / 4.
Proof.
  intros Ht. pose proof (bpow_pos (-1071)) as Hp.
  apply Rle_trans with (double_eta * bpow 500).
  - apply Rmult_le_compat_l; [apply double_eta_pos|lra].
  - rewrite double_eps_quarter. unfold double_eta. rewrite <- bpow_add.
    apply bpow_le. lia.
Qed.

Lemma sqr_le_bpow (t : R) (e : Z) : Rabs t <= bpow e -> t * t <= bpow (2 * e).
Proof.
  intros Ht. rewrite <- bpow_sqr. apply Rabs_bound in Ht.
  pose proof (bpow_pos e). nra.
Qed.

Lemma sqr_ge_bpow (t : R) (e : Z) : bpow e <= Rabs t -> bpow (2 * e) <= t * t.
Proof.
  intros Ht. rewrite <- bpow_sqr. pose proof (bpow_pos e).
  unfold Rabs in Ht. destruct (Rcase_abs t); nra.
Qed.

(** Normalising in double precision: a vector of doubles that can be
    normalised is turned into a vector of finite doubles whose length is
    within 10^-9 of 1, both as [magnitude] computes it in doubles and
    exactly. *)
Lemma normalise_unit_double (v : Vector2 float) :
  normalisable v = true ->
  near 1e-9%float (magnitude (normalise v)) 1%float = true /\
  is_finite (x (normalise v)) = true /\ is_finite (y (normalise v)) = true /\
  Rabs (R_sqrt.sqrt (F2R (x (normalise v)) * F2R (x (normalise v))
                     + F2R (y (normalise v)) * F2R (y (normalise v))) - 1)
  <= 1 / 10 ^ 9.
Proof.
  destruct v as [vx vy]. unfold normalisable. cbn [x y]. intros Hn.
  apply andb_true_iff in Hn as [Hn Hy]. apply andb_true_iff in Hn as [Hlow Hx].
  destruct (leb_abs_l vx 0x1p499%float) as [Hfx HX]; [done|done|done|].
  destruct (leb_abs_l vy 0x1p499%float) as [Hfy HY]; [done|done|done|].
  rewrite F2R_upper in HX, HY.
  set (X := F2R vx) in *. set (Y := F2R vy) in *.
  pose proof (sqr_le_bpow X 499 HX) as HX2. pose proof (sqr_le_bpow Y 499 HY) as HY2.
  change (2 * 499)%Z with 998%Z in HX2, HY2.
  assert (HX0 : 0 <= X * X) by nra. assert (HY0 : 0 <= Y * Y) by nra.
  set (s := X * X + Y * Y).
  assert (Hs_up : s <= bpow 999).
  { unfold s. change 999%Z with (998 + 1)%Z. rewrite bpow_succ. lra. }
  assert (Hs_low : bpow (-1000) <= s).
  { unfold s. apply orb_true_iff in Hlow as [Hl|Hl].
    - apply leb_abs_r in Hl; [|done|done]. rewrite F2R_lower in Hl.
      apply sqr_ge_bpow in Hl. change (2 * -500)%Z with (-1000)%Z in Hl.
      fold X in Hl. lra.
    - apply leb_abs_r in Hl; [|done|done]. rewrite F2R_lower in Hl.
      apply sqr_ge_bpow in Hl. change (2 * -500)%Z with (-1000)%Z in Hl.
      fold Y in Hl. lra. }
  assert (Hs0 : 0 < s) by (pose proof (bpow_pos (-1000)); lra).
  set (r := R_sqrt.sqrt s).
  assert (Hr : bpow (-500) <= r <= bpow 500).
  { pose proof (bpow_pos (-500)). pose proof (bpow_pos 500).
    apply sqrt_between.
    - lra.
    - rewrite bpow_sqr. exact Hs_low.
    - rewrite bpow_sqr. change (2 * 500)%Z with 1000%Z.
      pose proof (bpow_le 999 1000 ltac:(lia)). lra.
    - lra. }
  pose proof (bpow_pos (-500)) as Hp500.
  assert (Her : double_eta <= double_eps * r / 4).
  { apply (double_eta_scaled r (-500)); [lia|apply Hr]. }
  assert (Hes : double_eta <= double_eps * s / 4).
  { apply (double_eta_scaled s (-1000)); [lia|done]. }
  assert (Her' : double_eta * r <= double_eps / 4).
  { apply double_eta_times. lra. }
  pose proof double_eta_1 as He1.
  pose proof double_eps_pos as Hep. pose proof double_eps_small as Hes'.
  pose proof double_eta_pos as Het.
  pose proof (bpow_lt 998 1000 ltac:(lia)) as H998.
  pose proof (bpow_lt 999 1000 ltac:(lia)) as H999.
  assert (H1000 : bpow 1000 = 2 * bpow 999).
  { change 1000%Z with (999 + 1)%Z. by rewrite bpow_succ. }
  pose proof (bpow_pos 999) as Hp999.
  assert (H2 : 2 < bpow 1000).
  { pose proof (bpow_lt 1 1000 ltac:(lia)) as H. rewrite bpow_1 in H. done. }
  (* the squares and their sum *)
  destruct (mul_rounded vx vx Hfx Hfx) as [Hfxx Hxx].
  { fold X. rewrite Rabs_pos_eq by done. lra. }
  destruct (mul_rounded vy vy Hfy Hfy) as [Hfyy Hyy].
  { fold Y. rewrite Rabs_pos_eq by done. lra. }
  fold X in Hxx. fold Y in Hyy.
  destruct (sum_of_squares double_eps double_eta Hep Hes' Het X Y Hs0 Hes Her Her' He1
              _ _ (F2R (vx * vx + vy * vy)%float) Hxx Hyy) as [Hsum Hss'].
  fold s in Hsum, Hss'.
  destruct (add_rounded (vx * vx) (vy * vy) Hfxx Hfyy) as [Hfss Hss].
  { rewrite Rabs_pos_eq by lra. lra. }
  specialize (Hss' Hss).
  (* its root *)
  destruct (root_rounded double_eps double_eta Hep Hes' Het X Y Hs0 Hes Her Her' He1
              _ (F2R (PrimFloat.sqrt (vx * vx + vy * vy))) Hss') as [Hss0 Hm'].
  fold s r in Hss0, Hm'.
  destruct (sqrt_rounded (vx * vx + vy * vy)) as [Hfm Hm]; [done|lra|lra|].
  specialize (Hm' Hm).
  set (m := PrimFloat.sqrt (vx * vx + vy * vy)) in *.
  (* the inverse *)
  destruct (inverse_rounded double_eps double_eta Hep Hes' Het X Y Hs0 Hes Her Her' He1
              _ (F2R (sc1 / m)%float) Hm') as (Hm0 & Hinv0 & Hinv').
  fold s r in Hinv0, Hinv'.
  destruct F2R_sc1 as [Hone Hfone].
  destruct (div_rounded sc1 m Hfone Hfm) as [Hfinv Hinv].
  { lra. }
  { rewrite Hone. rewrite Rabs_pos_eq by lra.
    apply Rle_lt_trans with (2 / r); [lra|].
    apply Rle_lt_trans with (2 / bpow (-500)).
    - apply Rmult_le_compat_l; [lra|]. apply Rinv_le_contravar; lra.
    - replace (2 / bpow (-500)) with (bpow 501).
      + apply bpow_lt. lia.
      + change 501%Z with (500 + 1)%Z. rewrite bpow_succ.
        change 500%Z with (- (-500))%Z. rewrite bpow_opp. field. lra. }
  rewrite Hone in Hinv. specialize (Hinv' Hinv).
  set (inv := (sc1 / m)%float) in *.
  (* the components *)
  destruct (component_rounded double_eps double_eta Hep Hes' Het X Y Hs0 Hes Her Her' He1
              X (F2R inv) (F2R (vx * inv)%float)) as (Hbx0 & Hcx & Hbx'); [|done|].
  { unfold s in *. lra. }
  destruct (component_rounded double_eps double_eta Hep Hes' Het X Y Hs0 Hes Her Her' He1
              Y (F2R inv) (F2R (vy * inv)%float)) as (Hby0 & Hcy & Hby'); [|done|].
  { unfold s in *. lra. }
  fold s r in Hcx, Hcy, Hbx', Hby'.
  destruct (mul_rounded vx inv Hfx Hfinv) as [Hfbx Hbx]; [fold X; lra|].
  destruct (mul_rounded vy inv Hfy Hfinv) as [Hfby Hby]; [fold Y; lra|].
  specialize (Hbx' Hbx). specialize (Hby' Hby).
  set (bx := (vx * inv)%float) in *. set (by_ := (vy * inv)%float) in *.
  (* their squares and the sum *)
  destruct (square_rounded double_eps double_eta Hep Hes' Het X Y Hs0 Hes Her Her' He1
              (X / r) (F2R bx) (F2R (bx * bx)%float) Hcx Hbx') as [Hbxx0 Hbxx'].
  destruct (square_rounded double_eps double_eta Hep Hes' Het X Y Hs0 Hes Her Her' He1
              (Y / r) (F2R by_) (F2R (by_ * by_)%float) Hcy Hby') as [Hbyy0 Hbyy'].
  destruct (mul_rounded bx bx Hfbx Hfbx) as [Hfbxx Hbxx]; [lra|].
  destruct (mul_rounded by_ by_ Hfby Hfby) as [Hfbyy Hbyy]; [lra|].
  specialize (Hbxx' Hbxx). specialize (Hbyy' Hbyy).
  assert (Hunit : X / r * (X / r) + Y / r * (Y / r) = 1).
  { assert (Hr2 : r * r = s) by (apply sqrt_sqrt; lra).
    replace (X / r * (X / r) + Y / r * (Y / r)) with (s / (r * r))
      by (unfold s; field; lra).
    rewrite Hr2. field. lra. }
  destruct (unit_sum double_eps double_eta Hep Hes' Het X Y Hs0 Hes Her Her' He1
              _ _ _ _ (F2R (bx * bx + by_ * by_)%float) Hunit Hbxx' Hbyy')
    as [Htt0 Htt'].
  destruct (add_rounded (bx * bx) (by_ * by_) Hfbxx Hfbyy) as [Hftt Htt]; [lra|].
  specialize (Htt' Htt).
  (* the length *)
  destruct (unit_root double_eps double_eta Hep Hes' Het X Y Hs0 Hes Her Her' He1
              _ (F2R (PrimFloat.sqrt (bx * bx + by_ * by_))) Htt') as [Hroot0 HM'].
  destruct (sqrt_rounded (bx * bx + by_ * by_)) as [HfM HM]; [done|lra|lra|].
  specialize (HM' HM).
  set (M := PrimFloat.sqrt (bx * bx + by_ * by_)) in *.
  destruct (unit_difference double_eps double_eta Hep Hes' Het X Y Hs0 Hes Her Her' He1
              _ (F2R (M - 1)%float) HM') as [HD0 HD'].
  assert (Hf1 : is_finite 1%float = true) by done.
  destruct (sub_rounded M 1%float HfM Hf1) as [HfD HD].
  { rewrite F2R_one. lra. }
  rewrite F2R_one in HD. specialize (HD' HD).
  (* the test, and the length of the vector of doubles itself *)
  assert (H43 : 64 * double_eps <= bpow (-30)).
  { unfold double_eps.
    assert (H43 : bpow (-43) = 64 * bpow (-49)).
    { change (-43)%Z with (-49 + 1 + 1 + 1 + 1 + 1 + 1)%Z. rewrite !bpow_succ. ring. }
    rewrite <- H43. apply bpow_le. lia. }
  change (near 1e-9%float (magnitude (normalise (Vec2 vx vy))) 1%float)
    with (PrimFloat.leb (PrimFloat.abs (M - 1)%float) 1e-9%float).
  change (x (normalise (Vec2 vx vy))) with bx.
  change (y (normalise (Vec2 vx vy))) with by_.
  split; [|split; [done|split; [done|]]].
  - apply leb_abs_l_inv; [done|done|].
    eapply Rle_trans; [exact HD'|]. eapply Rle_trans; [|exact F2R_tolerance]. lra.
  - pose proof (exact_norm double_eps double_eta Hep Hes' Het X Y Hs0 Hes Her Her' He1
                  _ _ _ _ Hunit Hbx' Hby') as Hnorm.
    eapply Rle_trans; [exact Hnorm|].
    apply Rle_trans with (bpow (-30)); [lra|].
    replace (bpow (-30)) with (/ bpow 30) by (symmetry; apply (bpow_opp 30)).
    rewrite bpow_IZR by lia.
    unfold Rdiv. rewrite Rmult_1_l. apply Rinv_le_contravar.
    + apply pow_lt. lra.
    + rewrite pow_IZR. apply IZR_le. vm_compute. discriminate.
Qed.
End NormaliseDouble.

(** ** The bisectors in double precision *)

Section BisectorsDouble.
Context {G : Geometry float}.
Local Open Scope R_scope.

(** C8, as the code has it.  In double precision, for an input that passes
    the adjacency test and at each of whose vertices the sum of the two
    inset directions, as computed, can be normalised (its coordinates are at
    most 2^499 in absolute value and one of them is at least 2^-500: the two
    directions do not cancel and neither is infinite or NaN), every bisector
    that [createBisectors] produces is that sum normalised, its two
    coordinates are finite, and its length is within 10^-9 of 1: both the
    length as [magnitude] computes it in doubles and the exact length of the
    vector of doubles. *)
Theorem bisectors_unit_length_double (segments : list (TriangleSegment2 float))
    (tol : float) (bis : list (Vector2 float)) :
  createBisectors segments tol [] = Returns bis ->
  (forall i, (i < length segments)%nat ->
     normalisable
       (vadd (getInsetDirection (segments !!! i))
             (getInsetDirection (segments !!! prevIndex (length segments) i)))
     = true) ->
  bis = map (fun i =>
               normalise
                 (vadd (getInsetDirection (segments !!! i))
                       (getInsetDirection
                          (segments !!! prevIndex (length segments) i))))
            (seq 0 (length segments)) /\
  forall v, In v bis ->
    near 1e-9%float (magnitude v) 1%float = true /\
    is_finite (x v) = true /\ is_finite (y v) = true /\
    Rabs (R_sqrt.sqrt (F2R (x v) * F2R (x v) + F2R (y v) * F2R (y v)) - 1)
    <= 1 / 10 ^ 9.
Proof.
  intros Hbis Hsum. rewrite createBisectors_spec in Hbis.
  destruct (forallb _ _); [|done]. injection Hbis as <-. cbn [app].
  split; [done|]. intros v Hv. apply in_map_iff in Hv as (i & <- & Hi).
  apply in_seq in Hi.
  apply (normalise_unit_double
           (vadd (getInsetDirection (segments !!! i))
                 (getInsetDirection (segments !!! prevIndex (length segments) i)))).
  apply Hsum. lia.
Qed.
End BisectorsDouble.

Lemma bisectors_unit_length_double_witness :
  bisectors_of chevron
  = map (fun i =>
           normalise
             (vadd (getInsetDirection (chevron !!! i))
                   (getInsetDirection
                      (chevron !!! prevIndex (length chevron) i))))
        (seq 0 (length chevron)) /\
  forall v, In v (bisectors_of chevron) ->
    near 1e-9%float (magnitude v) 1%float = true /\
    is_finite (x v) = true /\ is_finite (y v) = true /\
    (Rabs (R_sqrt.sqrt (F2R (x v) * F2R (x v) + F2R (y v) * F2R (y v)) - 1)
     <= 1 / 10 ^ 9)%R.
Proof.
  apply (bisectors_unit_length_double (G := float_geometry) chevron 0.01%float
           (bisectors_of chevron)).
  - vm_compute. reflexivity.
  - intros i Hi. change (length chevron) with 4%nat in Hi.
    destruct i as [|[|[|[|i]]]]; [vm_compute; reflexivity ..|lia].
Defined.

(** The inputs on which the bisectors are not unit vectors are left out by
    the condition: on the segment followed by its reverse the sum of the two
    inset directions is zero, on the triangle with legs of length 2^-600 the
    inset directions themselves are not numbers. *)
Example degenerate_sums_not_normalisable :
  forallb (fun i =>
             normalisable
               (vadd (getInsetDirection (there_and_back !!! i))
                     (getInsetDirection
                        (there_and_back !!! prevIndex (length there_and_back) i))))
    (seq 0 (length there_and_back)) = false /\
  forallb (fun i =>
             normalisable
               (vadd (getInsetDirection (tiny_triangle !!! i))
                     (getInsetDirection
                        (tiny_triangle !!! prevIndex (length tiny_triangle) i))))
    (seq 0 (length tiny_triangle)) = false.
Proof. split; vm_compute; reflexivity. Qed.
